(** * Stock market dashboard: the ingestion and derived-view pipeline

    A shallow embedding of the front end's core:
    - [frontend/src/hooks/useWebSocket.js]: the transport hook
      (connect, reconnect with exponential backoff, effect cleanup);
    - [frontend/src/App.js]: the message-processing effect and the
      filter / sort / truncate effect;
    - the [StatsPanel] component: the [stats] memo;
    - the controls, the table header, the chart modal and the theme
      ([FilterControls.js], [StockTable.js], [TradeChartModal.js], [App.js]);
    - [frontend/useWebSocket.js]: the earlier hook.

    Numbers.  A finite IEEE double is a rational, and the comparisons of
    doubles are the comparisons of those rationals, so numeric fields are
    modelled in [Q]; the sign of a difference of two doubles is the sign of
    the exact difference.  The sums, quotients and products of the
    statistics are those of binary64: each operation is rounded to nearest,
    ties to even ([round64]), and can overflow to an infinity.  The axes of
    the chart are stated by order only, which rounding preserves, and are
    computed exactly. *)

From Stdlib Require Import ZArith QArith Qminmax Lqa List String Ascii Bool Lia Permutation
  Sorted.
From stdpp Require Import base option list gmap.

Open Scope Z_scope.

(* ================================================================== *)
(** * Data model *)
(* ================================================================== *)

(** One row of a [market_data] message (field names as in the stream). *)
Record Snapshot := mkSnapshot {
  symbol : string;
  current_price : Q;
  percent_change : Q;
  volume : Q;
  trade_count : Q;
  high : Q;
  low : Q;
  vwap : Q;
  std_dev : Q
}.

(** A numeric entry of [filterConfig].  The code stores finite numbers (the
    sliders), [Infinity] (initial state and the reset button) and, through
    [handleRangeChange] destructuring a one-element array, [undefined]. *)
Inductive bound :=
| Finite (q : Q)
| Infinity
| Undefined.

Record FilterConfig := mkFilterConfig {
  minPrice : bound;
  maxPrice : bound;
  minVolume : bound;
  maxVolume : bound;
  minTradeCount : bound;
  displayCount : Z
}.

(** The sortable columns of the table: the values [sortConfig.key] takes. *)
Inductive Key :=
| K_symbol | K_current_price | K_percent_change | K_trade_count | K_volume
| K_high | K_low | K_vwap | K_std_dev.

Inductive Direction := asc | desc.

Record SortConfig := mkSortConfig {
  key : Key;
  direction : Direction
}.

(* ================================================================== *)
(** * JavaScript primitives used by the effect *)
(* ================================================================== *)

(** [x >= b] for a number [x] and a config entry [b]; [undefined] converts
    to NaN, and every comparison with NaN is false. *)
Definition num_ge (x : Q) (b : bound) : bool :=
  match b with
  | Finite m => Qle_bool m x
  | Infinity => false
  | Undefined => false
  end.

(** [x <= b]. *)
Definition num_le (x : Q) (b : bound) : bool :=
  match b with
  | Finite m => Qle_bool x m
  | Infinity => true
  | Undefined => false
  end.

(** [a > b] on two config entries. *)
Definition bound_gt (a b : bound) : bool :=
  match a, b with
  | Finite x, Finite y => negb (Qle_bool x y)
  | Infinity, Finite _ => true
  | _, _ => false
  end.

(** [Array.prototype.sort(cmp)]: the order is the one [cmp] induces, and
    elements that compare equal keep their order (ECMAScript 2019 and
    later).  For a consistent comparator that result is unique
    ([array_sort_unique] below); it is computed here by insertion from the
    right. *)
Section ArraySort.
Context {A : Type} (cmp : A -> A -> Z).

Fixpoint sort_insert (x : A) (l : list A) : list A :=
  match l with
  | [] => [x]
  | y :: l' => if 0 <? cmp x y then y :: sort_insert x l' else x :: y :: l'
  end.

Definition array_sort (l : list A) : list A :=
  fold_right sort_insert [] l.

(** [l] is in the order of [cmp]: no element follows a later one. *)
Definition ordered (l : list A) : Prop :=
  StronglySorted (fun a b => cmp a b <= 0) l.
End ArraySort.

(** [Array.prototype.slice(start, end)] with integer arguments: a negative
    index counts from the end, and both are clamped to the length. *)
Definition slice_index (len i : Z) : Z :=
  if i <? 0 then Z.max (len + i) 0 else Z.min i len.

Definition array_slice {A : Type} (start end_ : Z) (l : list A) : list A :=
  let len := Z.of_nat (length l) in
  let k := slice_index len start in
  let final := slice_index len end_ in
  firstn (Z.to_nat (Z.max (final - k) 0)) (skipn (Z.to_nat k) l).

(* ================================================================== *)
(** * The derived view ([App.js], "Apply filters and sorting") *)
(* ================================================================== *)

(** The callback of [filtered.filter]. *)
Definition passes (fc : FilterConfig) (stock : Snapshot) : bool :=
  num_ge (current_price stock) (minPrice fc) &&
  num_le (current_price stock) (maxPrice fc) &&
  num_ge (volume stock) (minVolume fc) &&
  num_le (volume stock) (maxVolume fc) &&
  num_ge (trade_count stock) (minTradeCount fc).

(** [a[key]] against [b[key]]: strings compare by code units, numbers by
    value. *)
Definition key_compare (k : Key) (a b : Snapshot) : comparison :=
  match k with
  | K_symbol => String.compare (symbol a) (symbol b)
  | K_current_price => Qcompare (current_price a) (current_price b)
  | K_percent_change => Qcompare (percent_change a) (percent_change b)
  | K_trade_count => Qcompare (trade_count a) (trade_count b)
  | K_volume => Qcompare (volume a) (volume b)
  | K_high => Qcompare (high a) (high b)
  | K_low => Qcompare (low a) (low b)
  | K_vwap => Qcompare (vwap a) (vwap b)
  | K_std_dev => Qcompare (std_dev a) (std_dev b)
  end.

Definition key_lt (k : Key) (a b : Snapshot) : bool :=
  match key_compare k a b with Lt => true | _ => false end.

Definition key_gt (k : Key) (a b : Snapshot) : bool :=
  match key_compare k a b with Gt => true | _ => false end.

Definition is_asc (d : Direction) : bool :=
  match d with asc => true | desc => false end.

(** The callback of [filtered.sort]. *)
Definition comparator (sc : SortConfig) (a b : Snapshot) : Z :=
  if key_lt (key sc) a b then
    (if is_asc (direction sc) then -1 else 1)
  else if key_gt (key sc) a b then
    (if is_asc (direction sc) then 1 else -1)
  else 0.

Definition filter_step (fc : FilterConfig) (stocks : list Snapshot) : list Snapshot :=
  List.filter (passes fc) stocks.

Definition sort_step (sc : SortConfig) (l : list Snapshot) : list Snapshot :=
  array_sort (comparator sc) l.

Definition truncate_step (fc : FilterConfig) (l : list Snapshot) : list Snapshot :=
  array_slice 0 (displayCount fc) l.

(** The value handed to [setFilteredStocks]. *)
Definition compute (stocks : list Snapshot) (fc : FilterConfig) (sc : SortConfig)
  : list Snapshot :=
  truncate_step fc (sort_step sc (filter_step fc stocks)).

(* ================================================================== *)
(** * The transport hook ([hooks/useWebSocket.js]) *)
(* ================================================================== *)

Inductive ConnectionStatus := connecting | connected | disconnected | error.

(** [WebSocket.readyState]. *)
Inductive ReadyState := CONNECTING | OPEN | CLOSING | CLOSED.

(** The hook's state and refs.  Sockets and timers are named by their
    creation index; a timer id is truthy (browsers number timers from 1). *)
Record Hook := mkHook {
  lastMessage : option string;
  connectionStatus : ConnectionStatus;
  wsRef : option nat;
  reconnectTimeoutRef : option nat;
  reconnectCountRef : Z
}.

(** The host's side: every socket constructed so far with its ready state,
    the delay of every [setTimeout] call so far (in call order), and the
    timers that have neither fired nor been cleared. *)
Record Browser := mkBrowser {
  sockets : list ReadyState;
  timeouts : list Z;
  pending : gset nat
}.

Record World := mkWorld {
  hook : Hook;
  browser : Browser;
  mounted : bool
}.

Inductive Event :=
| SockOpen (id : nat)
| SockMessage (id : nat) (data : string)
| SockClose (id : nat)
| SockError (id : nat)
| TimerFire (t : nat)
| Unmount
| PeerClosing (id : nat).

Definition set_hook (f : Hook -> Hook) (w : World) : World :=
  mkWorld (f (hook w)) (browser w) (mounted w).

Definition set_browser (f : Browser -> Browser) (w : World) : World :=
  mkWorld (hook w) (f (browser w)) (mounted w).

(** State setters do nothing once the component is unmounted; refs are plain
    mutable cells and keep working. *)
Definition setConnectionStatus (s : ConnectionStatus) (w : World) : World :=
  if mounted w then
    set_hook (fun h => mkHook (lastMessage h) s (wsRef h)
                              (reconnectTimeoutRef h) (reconnectCountRef h)) w
  else w.

Definition setLastMessage (m : string) (w : World) : World :=
  if mounted w then
    set_hook (fun h => mkHook (Some m) (connectionStatus h) (wsRef h)
                              (reconnectTimeoutRef h) (reconnectCountRef h)) w
  else w.

Definition set_wsRef (r : option nat) : World -> World :=
  set_hook (fun h => mkHook (lastMessage h) (connectionStatus h) r
                            (reconnectTimeoutRef h) (reconnectCountRef h)).

Definition set_reconnectTimeoutRef (r : option nat) : World -> World :=
  set_hook (fun h => mkHook (lastMessage h) (connectionStatus h) (wsRef h)
                            r (reconnectCountRef h)).

Definition set_reconnectCountRef (n : Z) : World -> World :=
  set_hook (fun h => mkHook (lastMessage h) (connectionStatus h) (wsRef h)
                            (reconnectTimeoutRef h) n).

(** [new WebSocket(url)]: a fresh socket in state CONNECTING. *)
Definition new_WebSocket (w : World) : nat * World :=
  (length (sockets (browser w)),
   set_browser (fun b => mkBrowser (sockets b ++ [CONNECTING]) (timeouts b) (pending b)) w).

(** [setTimeout(callback, delay)]: every timer of the hook carries the same
    callback, so only the delay is recorded. *)
Definition setTimeout (delay : Z) (w : World) : nat * World :=
  (length (timeouts (browser w)),
   set_browser (fun b => mkBrowser (sockets b) (timeouts b ++ [delay])
                                   ({[ length (timeouts b) ]} ∪ pending b)) w).

Definition clearTimeout (t : nat) : World -> World :=
  set_browser (fun b => mkBrowser (sockets b) (timeouts b) (pending b ∖ {[ t ]})).

(** [socket.close()]: starts the closing handshake of a socket that is
    connecting or open; the socket's [close] event follows later. *)
Definition socket_close (id : nat) : World -> World :=
  set_browser (fun b =>
    match sockets b !! id with
    | Some CONNECTING | Some OPEN =>
        mkBrowser (<[ id := CLOSING ]> (sockets b)) (timeouts b) (pending b)
    | _ => b
    end).

Definition set_readyState (id : nat) (r : ReadyState) : World -> World :=
  set_browser (fun b => mkBrowser (<[ id := r ]> (sockets b)) (timeouts b) (pending b)).

Section Transport.
(** Whether [new WebSocket(url)] accepts the URL (it throws otherwise). *)
Variable url_ok : bool.

Definition connect (w : World) : World :=
  if url_ok then
    let '(websocket, w1) := new_WebSocket w in
    set_wsRef (Some websocket) w1
  else
    setConnectionStatus error w.

Definition onopen (w : World) : World :=
  set_reconnectCountRef 0 (setConnectionStatus connected w).

Definition onmessage (data : string) (w : World) : World :=
  setLastMessage data w.

Definition onclose (w : World) : World :=
  let w1 := setConnectionStatus disconnected w in
  let timeout := Z.min (1000 * 2 ^ reconnectCountRef (hook w1)) 30000 in
  let '(t, w2) := setTimeout timeout w1 in
  set_reconnectTimeoutRef (Some t) w2.

Definition onerror (w : World) : World :=
  setConnectionStatus error w.

(** The callback handed to [setTimeout] in [onclose]. *)
Definition reconnect (w : World) : World :=
  connect (set_reconnectCountRef (reconnectCountRef (hook w) + 1) w).

(** The function returned by the hook's effect. *)
Definition cleanup (w : World) : World :=
  let w1 := match wsRef (hook w) with
            | Some id => socket_close id w
            | None => w
            end in
  match reconnectTimeoutRef (hook w1) with
  | Some t => clearTimeout t w1
  | None => w1
  end.

Definition initial : World :=
  mkWorld (mkHook None connecting None None 0) (mkBrowser [] [] ∅) true.

(** First render: the effect runs [connect]. *)
Definition mount : World := connect initial.

(** One event of the host.  The host delivers [open] to a connecting
    socket, [message] to an open or closing socket, [close] once to each
    socket, and fires a timer only while it is pending; anything else does
    not happen and is modelled as no change.  [PeerClosing] is the start of
    a closing handshake by the peer: the ready state of an open socket
    becomes [CLOSING] and no handler runs until the socket's [close]
    event. *)
Definition step (e : Event) (w : World) : World :=
  match e with
  | SockOpen id =>
      match sockets (browser w) !! id with
      | Some CONNECTING => onopen (set_readyState id OPEN w)
      | _ => w
      end
  | SockMessage id data =>
      match sockets (browser w) !! id with
      | Some OPEN | Some CLOSING => onmessage data w
      | _ => w
      end
  | SockClose id =>
      match sockets (browser w) !! id with
      | Some CONNECTING | Some OPEN | Some CLOSING =>
          onclose (set_readyState id CLOSED w)
      | _ => w
      end
  | SockError id =>
      match sockets (browser w) !! id with
      | Some CONNECTING | Some OPEN | Some CLOSING => onerror w
      | _ => w
      end
  | TimerFire t =>
      if bool_decide (t ∈ pending (browser w)) then
        reconnect (clearTimeout t w)
      else w
  | Unmount =>
      if mounted w then
        mkWorld (hook (cleanup w)) (browser (cleanup w)) false
      else w
  | PeerClosing id =>
      match sockets (browser w) !! id with
      | Some OPEN => set_readyState id CLOSING w
      | _ => w
      end
  end.

Definition run (tr : list Event) (w : World) : World :=
  fold_left (fun w e => step e w) tr w.
End Transport.

(* ================================================================== *)
(** * The application state ([App.js]) *)
(* ================================================================== *)

(** Arrays are mutable objects: they live in a store and are named by
    reference.  [fresh] is the next unused reference; it also numbers the
    config objects, which are never updated in place and are kept as values
    tagged with their identity. *)
Record Store := mkStore {
  arrays : gmap nat (list Snapshot);
  fresh : nat
}.

Record obj (A : Type) := mkObj {
  obj_id : nat;
  obj_val : A
}.
Arguments mkObj {A} _ _.
Arguments obj_id {A} _.
Arguments obj_val {A} _.

(** Computations over the store. *)
Definition M (A : Type) : Type := Store -> A * Store.

Definition ret {A : Type} (a : A) : M A := fun s => (a, s).

Definition bind {A B : Type} (c : M A) (k : A -> M B) : M B :=
  fun s => let '(a, s1) := c s in k a s1.

Notation "'let*' x ':=' c 'in' k" := (bind c (fun x => k))
  (at level 10, x name, c at level 100, k at level 200).

Definition alloc (l : list Snapshot) : M nat :=
  fun s => (fresh s, mkStore (<[ fresh s := l ]> (arrays s)) (S (fresh s))).

Definition read (r : nat) : M (list Snapshot) :=
  fun s => (default [] (arrays s !! r), s).

Definition write (r : nat) (l : list Snapshot) : M unit :=
  fun s => (tt, mkStore (<[ r := l ]> (arrays s)) (fresh s)).

(** An object literal: a new identity. *)
Definition new_obj {A : Type} (v : A) : M (obj A) :=
  fun s => (mkObj (fresh s) v, mkStore (arrays s) (S (fresh s))).

(** [[...a]], [a.filter(p)] and [a.slice(s, e)] build a new array;
    [a.sort(cmp)] reorders [a] itself and returns it. *)
Definition spread (a : nat) : M nat :=
  let* l := read a in alloc l.

Definition filter_method (p : Snapshot -> bool) (a : nat) : M nat :=
  let* l := read a in alloc (List.filter p l).

Definition sort_method (cmp : Snapshot -> Snapshot -> Z) (a : nat) : M nat :=
  let* l := read a in
  let* _ := write a (array_sort cmp l) in
  ret a.

Definition slice_method (start end_ : Z) (a : nat) : M nat :=
  let* l := read a in alloc (array_slice start end_ l).

(** The body of the "Apply filters and sorting" effect, up to the array it
    hands to [setFilteredStocks]. *)
Definition view_effect_body (stocks : nat) (fc : FilterConfig) (sc : SortConfig) : M nat :=
  let* filtered := spread stocks in
  let* filtered := filter_method (passes fc) filtered in
  let* _ := sort_method (comparator sc) filtered in
  let* filtered := slice_method 0 (displayCount fc) filtered in
  ret filtered.

Record App := mkApp {
  store : Store;
  stocks : nat;
  filteredStocks : nat;
  sortConfig : obj SortConfig;
  filterConfig : obj FilterConfig;
  (** the dependencies seen by the last run of each effect *)
  message_deps : option string;
  view_deps : nat * nat * nat
}.

(** The dependency array [[stocks, sortConfig, filterConfig]], compared by
    identity. *)
Definition deps_of (a : App) : nat * nat * nat :=
  (stocks a, obj_id (sortConfig a), obj_id (filterConfig a)).

Definition contents (a : App) (r : nat) : list Snapshot :=
  default [] (arrays (store a) !! r).

Definition view_effect (a : App) : App :=
  let '(filtered, s) :=
    view_effect_body (stocks a) (obj_val (filterConfig a)) (obj_val (sortConfig a)) (store a) in
  mkApp s (stocks a) filtered (sortConfig a) (filterConfig a)
        (message_deps a) (deps_of a).

Definition run_view_effect (a : App) : App :=
  if bool_decide (view_deps a = deps_of a) then a else view_effect a.

(** ** The message-processing effect *)

Inductive exn := SyntaxError | TypeError.

Inductive result (A : Type) :=
| Ok (a : A)
| Throw (e : exn).
Arguments Ok {A} _.
Arguments Throw {A} _.

Definition try_catch {A : Type} (body : result A) (handler : exn -> result A) : result A :=
  match body with
  | Ok a => Ok a
  | Throw e => handler e
  end.

(** What [JSON.parse] returned, as far as the handler looks at it: the
    value [null] (reading a property of it throws), or a value with its
    [type] property when that is a string, and its [data] property, which
    the handler reads for a [market_data] frame, a list of snapshots. *)
Inductive message :=
| MNull
| MValue (type : option string) (data : list Snapshot).

Definition market_data : string := "market_data".

(** [message.type === 'market_data'] *)
Definition is_market_data (type : option string) : bool :=
  match type with
  | Some t => String.eqb t market_data
  | None => false
  end.

(** [if (lastMessage)]: null and the empty string are falsy. *)
Definition truthy (m : option string) : bool :=
  match m with
  | None => false
  | Some EmptyString => false
  | Some _ => true
  end.

(** [setStocks(message.data)]: the parsed array is a new object. *)
Definition setStocks (data : list Snapshot) (a : App) : App :=
  let '(r, s) := alloc data (store a) in
  mkApp s r (filteredStocks a) (sortConfig a) (filterConfig a)
        (message_deps a) (view_deps a).

Section MessageEffect.
(** [JSON.parse]; [None] when it throws a SyntaxError. *)
Variable JSON_parse : string -> option message.

Definition parse (raw : string) : result message :=
  match JSON_parse raw with
  | Some m => Ok m
  | None => Throw SyntaxError
  end.

Definition process_message (lastMessage : option string) (a : App) : result App :=
  match lastMessage with
  | Some raw =>
      if truthy lastMessage then
        try_catch
          (match parse raw with
           | Throw e => Throw e
           | Ok MNull => Throw TypeError
           | Ok (MValue type data) =>
               if is_market_data type then Ok (setStocks data a) else Ok a
           end)
          (fun _ => Ok a)
      else Ok a
  | None => Ok a
  end.

(** The effect as a state change; it never throws
    ([process_message_returns] below). *)
Definition message_effect (lastMessage : option string) (a : App) : App :=
  match process_message lastMessage a with
  | Ok a' => a'
  | Throw _ => a
  end.

(** A render after which every effect whose dependencies changed has run:
    first the message effect (dependency [lastMessage]), then, once the
    state it set is rendered, the view effect. *)
Definition run_message_effect (lastMessage : option string) (a : App) : App :=
  if bool_decide (message_deps a = lastMessage) then a
  else
    let a' := message_effect lastMessage a in
    mkApp (store a') (stocks a') (filteredStocks a') (sortConfig a')
          (filterConfig a') lastMessage (view_deps a').

Definition render (lastMessage : option string) (a : App) : App :=
  run_view_effect (run_message_effect lastMessage a).
End MessageEffect.

(** ** Handlers of the controls ([App.js], [FilterControls.js]) *)

#[global] Instance Key_eq_dec : EqDecision Key.
Proof. solve_decision. Defined.

Definition setSortConfig (v : SortConfig) (a : App) : App :=
  let '(o, s) := new_obj v (store a) in
  mkApp s (stocks a) (filteredStocks a) o (filterConfig a)
        (message_deps a) (view_deps a).

Definition setFilterConfig (v : FilterConfig) (a : App) : App :=
  let '(o, s) := new_obj v (store a) in
  mkApp s (stocks a) (filteredStocks a) (sortConfig a) o
        (message_deps a) (view_deps a).

Definition handleSort (k : Key) (a : App) : App :=
  let prevConfig := obj_val (sortConfig a) in
  setSortConfig
    (mkSortConfig k
       (if bool_decide (key prevConfig = k) && is_asc (direction prevConfig)
        then desc else asc)) a.

(** The two uses of [handleChange(field, value)]. *)
Inductive Change :=
| change_minTradeCount (value : Q)
| change_displayCount (value : Z).

Definition handleChange (c : Change) (a : App) : App :=
  let prev := obj_val (filterConfig a) in
  setFilterConfig
    (match c with
     | change_minTradeCount value =>
         mkFilterConfig (minPrice prev) (maxPrice prev) (minVolume prev)
                        (maxVolume prev) (Finite value) (displayCount prev)
     | change_displayCount value =>
         mkFilterConfig (minPrice prev) (maxPrice prev) (minVolume prev)
                        (maxVolume prev) (minTradeCount prev) value
     end) a.

Inductive RangeField := Price | Volume.

(** [values[i]]: [undefined] past the end of the array. *)
Definition element (values : list Q) (i : nat) : bound :=
  match nth_error values i with
  | Some q => Finite q
  | None => Undefined
  end.

Definition handleRangeChange (field : RangeField) (values : list Q) (a : App) : App :=
  let min := element values 0 in
  let max := element values 1 in
  let prev := obj_val (filterConfig a) in
  setFilterConfig
    (match field with
     | Price =>
         mkFilterConfig min max (minVolume prev) (maxVolume prev)
                        (minTradeCount prev) (displayCount prev)
     | Volume =>
         mkFilterConfig (minPrice prev) (maxPrice prev) min max
                        (minTradeCount prev) (displayCount prev)
     end) a.

Definition default_filterConfig : FilterConfig :=
  mkFilterConfig (Finite 0) Infinity (Finite 0) Infinity (Finite 0) 50.

Definition default_sortConfig : SortConfig := mkSortConfig K_trade_count desc.

Definition resetFilters (a : App) : App := setFilterConfig default_filterConfig a.

Inductive UserEvent :=
| HandleSort (k : Key)
| HandleChange (c : Change)
| HandleRangeChange (field : RangeField) (values : list Q)
| ResetFilters.

Definition handle (u : UserEvent) (a : App) : App :=
  match u with
  | HandleSort k => handleSort k a
  | HandleChange c => handleChange c a
  | HandleRangeChange field values => handleRangeChange field values a
  | ResetFilters => resetFilters a
  end.

(** ** Rendering the controls ([FilterControls.js]) *)

(** [formatLargeNumber(num)] of [FilterControls.js] compares [num] with
    three thresholds and, below them, returns [num.toString()]: on
    [undefined] every comparison is false and [toString] throws a
    TypeError; on a number, [Infinity] included, it returns. *)
Definition formatLargeNumber_throws (num : bound) : bool :=
  match num with
  | Undefined => true
  | _ => false
  end.

(** The render of [FilterControls] calls [formatLargeNumber] on [minVolume],
    on [maxVolume] unless that is [Infinity], and on [minTradeCount].  The
    price label prints its bounds in a template and no other component
    reads the filter configuration, so this is where a render of the
    application can throw. *)
Definition FilterControls_throws (fc : FilterConfig) : bool :=
  formatLargeNumber_throws (minVolume fc) ||
  match maxVolume fc with
  | Infinity => false
  | num => formatLargeNumber_throws num
  end ||
  formatLargeNumber_throws (minTradeCount fc).

(** The state of the [useState] calls, then the first render, which runs
    every effect. *)
Definition app_initial : App :=
  mkApp (mkStore (<[ 1%nat := [] ]> (<[ 0%nat := [] ]> ∅)) 4)
        0%nat 1%nat (mkObj 2%nat default_sortConfig) (mkObj 3%nat default_filterConfig)
        None (0%nat, 0%nat, 0%nat).

Definition app_mount : App := view_effect app_initial.

(** ** The hook and the component together *)

Record System := mkSystem {
  world : World;
  app : App
}.

Inductive Input :=
| Host (e : Event)
| User (u : UserEvent).

Section System.
Variable url_ok : bool.
Variable JSON_parse : string -> option message.

Definition sys_initial : System := mkSystem (mount url_ok) app_mount.

(** One input.  A handler sets state and the component renders again.
    When that render throws, nothing catches it (there is no error
    boundary): React unmounts the tree, which runs the cleanup of the hook's
    effect; the failed render commits nothing and runs no effect, and the
    record keeps the state of the last render that was committed.  A host
    event renders the component with the filter configuration of its last
    committed render, which returned. *)

Definition sys_step (i : Input) (s : System) : System :=
  match i with
  | Host e =>
      let w := step url_ok e (world s) in
      mkSystem w (if mounted w
                  then render JSON_parse (lastMessage (hook w)) (app s)
                  else app s)
  | User u =>
      if mounted (world s) then
        let a := handle u (app s) in
        if FilterControls_throws (obj_val (filterConfig a))
        then mkSystem (step url_ok Unmount (world s)) (app s)
        else mkSystem (world s) (render JSON_parse (lastMessage (hook (world s))) a)
      else s
  end.

Definition sys_run (tr : list Input) (s : System) : System :=
  fold_left (fun s i => sys_step i s) tr s.
End System.

(** The snapshot store as the consumer reads it. *)
Definition current (s : System) : list Snapshot := contents (app s) (stocks (app s)).

(** The derived view as the table reads it. *)
Definition view (s : System) : list Snapshot := contents (app s) (filteredStocks (app s)).

(* ================================================================== *)
(** * Double arithmetic *)
(* ================================================================== *)

(** A number that arithmetic returns: a finite double, as the rational it
    is, an infinity or [NaN].  The sign of a zero is not kept; it shows only
    in a quotient by zero, which the code modelled here does not form. *)
Inductive number := Fin (q : Q) | PosInf | NegInf | NaN.

(** [2^x] *)
Definition pow2 (x : Z) : Q :=
  if x <? 0 then 1 # Z.to_pos (2 ^ (- x)) else inject_Z (2 ^ x).

(** The exponent of the binade of [n / d], for [n] and [d] positive: the
    [e] with [2^e <= n / d < 2^(e+1)]. *)
Definition binade (n d : Z) : Z :=
  let k := Z.log2 n - Z.log2 d in
  if (if k <? 0 then d <=? n * 2 ^ (- k) else d * 2 ^ k <=? n) then k else k - 1.

(** The integer nearest to [n / d], for [n >= 0] and [d > 0]; of two
    nearest ones the even one. *)
Definition nearest_even (n d : Z) : Z :=
  let fl := n / d in
  match 2 * (n mod d) ?= d with
  | Lt => fl
  | Gt => fl + 1
  | Eq => if Z.even fl then fl else fl + 1
  end.

(** Rounding of the positive rational [n / d] to binary64: 53 bits of
    precision, [2^-1074] the smallest unit, an infinity from [2^1024] on. *)
Definition round_pos (n d : Z) : number :=
  let x := Z.max (binade n d - 52) (-1074) in
  let m := if x <? 0 then nearest_even (n * 2 ^ (- x)) d
           else nearest_even n (d * 2 ^ x) in
  if (0 <=? x) && (2 ^ 1024 <=? m * 2 ^ x) then PosInf
  else Fin (Qred (inject_Z m * pow2 x)).

Definition negate (a : number) : number :=
  match a with
  | Fin q => Fin (- q)
  | PosInf => NegInf
  | NegInf => PosInf
  | NaN => NaN
  end.

(** The double nearest to a rational, ties to even: what every arithmetic
    operation returns for its exact result. *)
Definition round64 (q : Q) : number :=
  let r := Qred q in
  match Qnum r ?= 0 with
  | Eq => Fin 0
  | Gt => round_pos (Qnum r) (Zpos (Qden r))
  | Lt => negate (round_pos (- Qnum r) (Zpos (Qden r)))
  end.

(** [a + b] *)
Definition fadd (a b : number) : number :=
  match a, b with
  | Fin x, Fin y => round64 (x + y)
  | NaN, _ | _, NaN => NaN
  | PosInf, NegInf | NegInf, PosInf => NaN
  | PosInf, _ | _, PosInf => PosInf
  | NegInf, _ | _, NegInf => NegInf
  end.

Definition Qpositive (q : Q) : bool := negb (Qle_bool q 0).

(** [a * b] *)
Definition fmul (a b : number) : number :=
  match a, b with
  | Fin x, Fin y => round64 (x * y)
  | NaN, _ | _, NaN => NaN
  | Fin x, PosInf | PosInf, Fin x =>
      if Qeq_bool x 0 then NaN else if Qpositive x then PosInf else NegInf
  | Fin x, NegInf | NegInf, Fin x =>
      if Qeq_bool x 0 then NaN else if Qpositive x then NegInf else PosInf
  | PosInf, PosInf | NegInf, NegInf => PosInf
  | PosInf, NegInf | NegInf, PosInf => NegInf
  end.

(** [a / b]; a zero divisor is taken as [+0]. *)
Definition fdiv (a b : number) : number :=
  match a, b with
  | Fin x, Fin y =>
      if Qeq_bool y 0 then
        if Qeq_bool x 0 then NaN else if Qpositive x then PosInf else NegInf
      else round64 (x / y)
  | NaN, _ | _, NaN => NaN
  | Fin _, PosInf | Fin _, NegInf => Fin 0
  | PosInf, Fin y => if Qle_bool 0 y then PosInf else NegInf
  | NegInf, Fin y => if Qle_bool 0 y then NegInf else PosInf
  | PosInf, PosInf | PosInf, NegInf | NegInf, PosInf | NegInf, NegInf => NaN
  end.

(* ================================================================== *)
(** * The statistics panel ([StatsPanel], the [stats] memo) *)
(* ================================================================== *)

Record MarketTrend := mkMarketTrend {
  gainers : nat;
  losers : nat;
  ratio : string
}.

Record ListEntry := mkListEntry {
  entry_symbol : string;
  entry_percent_change : Q;
  entry_value : string
}.

Record Stats := mkStats {
  totalVolume : number;
  totalTrades : number;
  avgPrice : number;
  marketTrend : MarketTrend;
  topGainers : list ListEntry;
  topLosers : list ListEntry;
  mostActiveVolume : list ListEntry;
  mostActiveTrades : list ListEntry
}.

(** The sign of a number, which is all [sort] reads of a comparator's
    result. *)
Definition Qsign (q : Q) : Z := Z.sgn (Qnum q).

(** [a.reduce((sum, x) => sum + f(x), 0)] *)
Definition reduce_sum {A : Type} (f : A -> Q) (l : list A) : number :=
  fold_left (fun sum x => fadd sum (Fin (f x))) l (Fin 0).

Definition length_Q {A : Type} (l : list A) : Q := inject_Z (Z.of_nat (length l)).

(** [(gainers.length / stocks.length) * 100] *)
Definition percent_up (gainers stocks : nat) : number :=
  fmul (fdiv (Fin (inject_Z (Z.of_nat gainers))) (Fin (inject_Z (Z.of_nat stocks))))
       (Fin 100).

Section StatsPanel.
(** Number formatting ([toLocaleString], [toFixed]) is the host's. *)
Variable formatPrice : Q -> string.
Variable formatLargeNumber : Q -> string.
Variable toFixed1 : number -> string.

Definition formatStockList (items : list Snapshot) (type : string)
           (valueKey : Snapshot -> Q) (formatFn : Q -> string) : list ListEntry :=
  List.map (fun stock => mkListEntry (symbol stock) (percent_change stock)
                                     (formatFn (valueKey stock)))
           (array_slice 0 5 items).

Definition stats (stocks : list Snapshot) : option Stats :=
  if (length stocks =? 0)%nat then None
  else
    let sortedByGain :=
      array_sort (fun a b => Qsign (percent_change b - percent_change a)) stocks in
    let sortedByVolume :=
      array_sort (fun a b => Qsign (volume b - volume a)) stocks in
    let sortedByTrades :=
      array_sort (fun a b => Qsign (trade_count b - trade_count a)) stocks in
    let totalVolume := reduce_sum volume stocks in
    let totalTrades := reduce_sum trade_count stocks in
    let avgPrice := fdiv (reduce_sum current_price stocks) (Fin (length_Q stocks)) in
    let gainers :=
      List.filter (fun stock => negb (Qle_bool (percent_change stock) 0)) stocks in
    let marketTrend :=
      mkMarketTrend (length gainers) (length stocks - length gainers)
                    (toFixed1 (percent_up (length gainers) (length stocks))) in
    Some (mkStats totalVolume totalTrades avgPrice marketTrend
            (formatStockList sortedByGain "gainers" current_price formatPrice)
            (formatStockList
               (rev (array_slice (-5) (Z.of_nat (length sortedByGain)) sortedByGain))
               "losers" current_price formatPrice)
            (formatStockList sortedByVolume "volume" volume formatLargeNumber)
            (formatStockList sortedByTrades "trades" trade_count formatLargeNumber)).
End StatsPanel.

(* ================================================================== *)
(** * The rest of the interface *)
(* ================================================================== *)

(** ** What the hook returns besides the last message
    ([hooks/useWebSocket.js]) *)

(** [sendMessage(message)]: the socket the message is handed to and the
    message, or nothing when [wsRef] holds no socket or one that is not
    open. *)
Definition sendMessage (message : string) (w : World) : option (nat * string) :=
  match wsRef (hook w) with
  | Some id =>
      match sockets (browser w) !! id with
      | Some OPEN => Some (id, message)
      | _ => None
      end
  | None => None
  end.

(** [isConnected: connectionStatus === 'connected'] *)
Definition isConnected (w : World) : bool :=
  match connectionStatus (hook w) with
  | connected => true
  | _ => false
  end.

(** ** The table header ([StockTable.js]) and the range sliders
    ([FilterControls.js], [ui/slider.js]) *)

Inductive Icon := ArrowUp | ArrowDown.

(** [SortIcon] of [StockTable.js]: nothing on a column the table is not
    sorted by. *)
Definition SortIcon (sortConfig : SortConfig) (columnKey : Key) : option Icon :=
  if bool_decide (key sortConfig = columnKey) then
    Some (if is_asc (direction sortConfig) then ArrowUp else ArrowDown)
  else None.

(** The [columns] table of [StockTable.js]: key, label, [sortable]. *)
Definition columns : list (Key * string * bool) :=
  [ (K_symbol, "Symbol"%string, true);
    (K_current_price, "Price"%string, true);
    (K_percent_change, "Change %"%string, true);
    (K_trade_count, "Trades"%string, true);
    (K_volume, "Volume"%string, true);
    (K_high, "High"%string, true);
    (K_low, "Low"%string, true);
    (K_vwap, "VWAP"%string, true);
    (K_std_dev, "StdDev"%string, true) ].

(** [handleHeaderClick]: [onSort] is [handleSort] of [App.js]. *)
Definition handleHeaderClick (k : Key) (a : App) : App :=
  match List.find (fun col => bool_decide (col.1.1 = k)) columns with
  | Some col => if col.2 then handleSort k a else a
  | None => a
  end.

(** [Slider]'s [onChange] ([ui/slider.js]): the value of the range input,
    alone in an array. *)
Definition Slider_onChange (value : Q) : list Q := [value].

(** The price and volume sliders of [FilterControls]:
    [onValueChange={(values) => handleRangeChange(field, values)}]. *)
Definition range_slider_moved (field : RangeField) (value : Q) : UserEvent :=
  HandleRangeChange field (Slider_onChange value).

(** ** The chart modal: [handleSymbolClick] ([App.js]) and the body of
    [TradeChartModal] *)
Module SymbolClick.

(** [new Date(s)] *)
Inductive Date := new_Date (s : string).

(** A point of [GET /api/historical/{symbol}], and a point of the chart. *)
Record Point := mkPoint {
  point_timestamp : string;
  point_price : Q;
  point_volume : Q
}.

Record Trade := mkTrade {
  timestamp : Date;
  price : Q;
  volume : Q
}.

(** The state [handleSymbolClick] sets. *)
Record Detail := mkDetail {
  selectedSymbol : option string;
  historicalData : list Trade;
  isModalOpen : bool;
  isLoading : bool;
  error : option string
}.

Definition closed_modal : Detail := mkDetail None [] false false None.

(** How the request ends: [fetch] or [response.json()] rejects, or
    anything else in the [try] block throws, with an error of this message;
    the response is not [ok]; or the body parsed, with its [success], [data]
    and [error] members. *)
Inductive Response :=
| Rejected (message : string)
| NotOk (status : string)
| Json (success : bool) (data : list Point) (error : option string).

Definition chartPoint (point : Point) : Trade :=
  mkTrade (new_Date (point_timestamp point)) (point_price point) (point_volume point).

(** [handleSymbolClick] up to its first [await]. *)
Definition click (symbol : string) (d : Detail) : Detail :=
  mkDetail (Some symbol) (historicalData d) true true None.

(** [handleSymbolClick] from the [await] on, [finally] included.  [status]
    is [response.status] as the template literal prints it. *)
Definition settle (r : Response) (d : Detail) : Detail :=
  let d1 :=
    match r with
    | Rejected message =>
        mkDetail (selectedSymbol d) (historicalData d) (isModalOpen d)
                 (isLoading d) (Some message)
    | NotOk status =>
        mkDetail (selectedSymbol d) (historicalData d) (isModalOpen d)
                 (isLoading d) (Some ("HTTP error! status: " ++ status)%string)
    | Json true data _ =>
        mkDetail (selectedSymbol d) (List.map chartPoint data) (isModalOpen d)
                 (isLoading d) (error d)
    | Json false _ err =>
        mkDetail (selectedSymbol d) (historicalData d) (isModalOpen d)
                 (isLoading d) err
    end in
  mkDetail (selectedSymbol d1) (historicalData d1) (isModalOpen d1) false (error d1).

(** [onClose] *)
Definition onClose (d : Detail) : Detail :=
  mkDetail (selectedSymbol d) (historicalData d) false (isLoading d) (error d).

(** What the modal shows in its chart container. *)
Inductive ModalView :=
| Closed
| Loading
| ShowError (message : string)
| NoData
| Chart (trades : list Trade).

Definition dataView (trades : list Trade) : ModalView :=
  match trades with
  | [] => NoData
  | _ => Chart trades
  end.

Definition modalView (d : Detail) : ModalView :=
  if negb (isModalOpen d) then Closed
  else if isLoading d then Loading
  else
    match error d with
    | Some EmptyString | None => dataView (historicalData d)
    | Some message => ShowError message
    end.

(** The request failed. *)
Definition failed (r : Response) : bool :=
  match r with
  | Json true _ _ => false
  | _ => true
  end.

(** What happens to the modal: a click on a symbol, the end of a request,
    the close button. *)
Inductive Ev :=
| Click (symbol : string)
| Settle (r : Response)
| Close.

Definition modal_step (e : Ev) (d : Detail) : Detail :=
  match e with
  | Click symbol => click symbol d
  | Settle r => settle r d
  | Close => onClose d
  end.

Definition modal_run (tr : list Ev) (d : Detail) : Detail :=
  fold_left (fun d e => modal_step e d) tr d.

(** The symbol of the last click and the chart of the last successful
    response in a trace. *)
Definition lastClicked (tr : list Ev) (before : option string) : option string :=
  fold_left (fun acc e => match e with Click symbol => Some symbol | _ => acc end)
            tr before.

Definition lastLoaded (tr : list Ev) (before : list Trade) : list Trade :=
  fold_left (fun acc e =>
               match e with
               | Settle (Json true data _) => List.map chartPoint data
               | _ => acc
               end) tr before.

End SymbolClick.

(** ** The figures of [TradeChartModal] *)
Module TradeChart.

(** [Math.min(...l)] and [Math.max(...l)] of a non-empty array; of the
    empty one they are [Infinity] and [-Infinity], here [None]. *)
Definition Math_min (l : list Q) : option Q :=
  match l with
  | [] => None
  | x :: xs => Some (fold_left Qmin xs x)
  end.

Definition Math_max (l : list Q) : option Q :=
  match l with
  | [] => None
  | x :: xs => Some (fold_left Qmax xs x)
  end.

Definition prices (trades : list SymbolClick.Trade) : list Q :=
  List.map SymbolClick.price trades.
Definition volumes (trades : list SymbolClick.Trade) : list Q :=
  List.map SymbolClick.volume trades.

(** [yDomain]: the price range widened by a tenth of itself, not below 0
    ([0.1] and [1.2] are taken as the decimals written). *)
Definition yDomain (trades : list SymbolClick.Trade) : option (Q * Q) :=
  match Math_min (prices trades), Math_max (prices trades) with
  | Some minPrice, Some maxPrice =>
      let priceRange := (maxPrice - minPrice)%Q in
      let padding := (priceRange * (1 # 10))%Q in
      Some (Qmax 0 (minPrice - padding), (maxPrice + padding)%Q)
  | _, _ => None
  end.

(** [volumeDomain]: from 0 to the largest volume and a fifth more. *)
Definition volumeDomain (trades : list SymbolClick.Trade) : option (Q * Q) :=
  match Math_max (volumes trades) with
  | Some maxVolume => Some (0%Q, (maxVolume * (12 # 10))%Q)
  | None => None
  end.

End TradeChart.

(** ** The theme ([App.js], "Theme state") *)
Module Theme.
Section JSON.
(** JSON values, with [JSON.parse] ([None] when it throws), [JSON.stringify],
    the two booleans and the truth value a condition or [!] sees. *)
Variable value : Type.
Variable JSON_parse : string -> option value.
Variable JSON_stringify : value -> string.
Variable of_bool : bool -> value.
Variable truthy : value -> bool.

(** The state [isDarkTheme], the entry ['darkTheme'] of [localStorage]
    ([None] when [getItem] returns [null]) and whether the document element
    carries the class ['dark']. *)
Record State := mkState {
  isDarkTheme : value;
  darkTheme : option string;
  dark : bool
}.

(** The initialiser of [useState]: [saved ? JSON.parse(saved) : false]. *)
Definition initialTheme (saved : option string) : option value :=
  match saved with
  | None | Some EmptyString => Some (of_bool false)
  | Some s => JSON_parse s
  end.

(** The effect on [[isDarkTheme]]. *)
Definition effect (theme : value) : State :=
  mkState theme (Some (JSON_stringify theme)) (truthy theme).

(** Loading the page over a given [localStorage]: first render, then the
    effect. *)
Definition load (saved : option string) : option State :=
  match initialTheme saved with
  | Some theme => Some (effect theme)
  | None => None
  end.

(** The button: [setIsDarkTheme(!isDarkTheme)]; the new value is never the
    old one, so the effect runs. *)
Definition toggle (s : State) : State :=
  effect (of_bool (negb (truthy (isDarkTheme s)))).

End JSON.

Arguments mkState {value} _ _ _.
Arguments isDarkTheme {value} _.
Arguments darkTheme {value} _.
Arguments dark {value} _.
Arguments initialTheme {value} _ _ _.
Arguments effect {value} _ _ _.
Arguments load {value} _ _ _ _ _.
Arguments toggle {value} _ _ _ _.
End Theme.

(** ** The earlier hook ([frontend/useWebSocket.js]) *)
Module Legacy.

(** The hook's state ([ws], [lastMessage], [reconnectCount]), the socket
    the cleanup of the effect's last run closes ([websocket] in the closure
    [connect] returns), the host's side, and whether the component is
    mounted. *)
Record State := mkState {
  ws : option nat;
  lastMessage : option string;
  reconnectCount : Z;
  websocket : option nat;
  browser : Browser;
  mounted : bool
}.

Definition set_browser (b : Browser) (s : State) : State :=
  mkState (ws s) (lastMessage s) (reconnectCount s) (websocket s) b (mounted s).

(** [new WebSocket(url)] *)
Definition new_WebSocket (b : Browser) : nat * Browser :=
  (length (sockets b), mkBrowser (sockets b ++ [CONNECTING]) (timeouts b) (pending b)).

(** [setTimeout(callback, delay)] *)
Definition setTimeout (delay : Z) (b : Browser) : Browser :=
  mkBrowser (sockets b) (timeouts b ++ [delay]) ({[ length (timeouts b) ]} ∪ pending b).

(** [websocket.close()] *)
Definition close (id : nat) (b : Browser) : Browser :=
  match sockets b !! id with
  | Some CONNECTING | Some OPEN =>
      mkBrowser (<[ id := CLOSING ]> (sockets b)) (timeouts b) (pending b)
  | _ => b
  end.

Definition set_readyState (id : nat) (r : ReadyState) (b : Browser) : Browser :=
  mkBrowser (<[ id := r ]> (sockets b)) (timeouts b) (pending b).

(** [connect], run by the effect of a mounted component.  Nothing catches
    what [new WebSocket] throws: [None]. *)
Definition connect (url_ok : bool) (s : State) : option State :=
  if url_ok then
    let '(id, b) := new_WebSocket (browser s) in
    Some (mkState (Some id) (lastMessage s) (reconnectCount s) (Some id) b (mounted s))
  else None.

(** The function [connect] returns, which the effect hands to React. *)
Definition cleanup (s : State) : State :=
  match websocket s with
  | Some id => set_browser (close id (browser s)) s
  | None => s
  end.

Definition onmessage (data : string) (s : State) : State :=
  if mounted s then
    mkState (ws s) (Some data) (reconnectCount s) (websocket s) (browser s) (mounted s)
  else s.

Definition onclose (s : State) : State :=
  set_browser (setTimeout 1000 (browser s)) s.

(** The timer's callback, [setReconnectCount(prev => prev + 1)]: on a
    mounted component the count changes, so the effect runs again, its
    previous cleanup first; on an unmounted one nothing happens. *)
Definition retry (url_ok : bool) (s : State) : option State :=
  if mounted s then
    connect url_ok
      (cleanup (mkState (ws s) (lastMessage s) (reconnectCount s + 1) (websocket s)
                        (browser s) (mounted s)))
  else Some s.

Definition initial : State := mkState None None 0 None (mkBrowser [] [] ∅) true.

Definition mount (url_ok : bool) : option State := connect url_ok initial.

(** One event of the host, as for the hook in use; [onerror] only logs and
    there is no [onopen]. *)
Definition step (url_ok : bool) (e : Event) (s : State) : option State :=
  match e with
  | SockOpen id =>
      match sockets (browser s) !! id with
      | Some CONNECTING => Some (set_browser (set_readyState id OPEN (browser s)) s)
      | _ => Some s
      end
  | SockMessage id data =>
      match sockets (browser s) !! id with
      | Some OPEN | Some CLOSING => Some (onmessage data s)
      | _ => Some s
      end
  | SockClose id =>
      match sockets (browser s) !! id with
      | Some CONNECTING | Some OPEN | Some CLOSING =>
          Some (onclose (set_browser (set_readyState id CLOSED (browser s)) s))
      | _ => Some s
      end
  | SockError id => Some s
  | TimerFire t =>
      if bool_decide (t ∈ pending (browser s)) then
        retry url_ok
          (set_browser (mkBrowser (sockets (browser s)) (timeouts (browser s))
                                  (pending (browser s) ∖ {[ t ]})) s)
      else Some s
  | Unmount =>
      if mounted s then
        let s1 := cleanup s in
        Some (mkState (ws s1) (lastMessage s1) (reconnectCount s1) (websocket s1)
                      (browser s1) false)
      else Some s
  | PeerClosing id =>
      match sockets (browser s) !! id with
      | Some OPEN => Some (set_browser (set_readyState id CLOSING (browser s)) s)
      | _ => Some s
      end
  end.

Fixpoint run (url_ok : bool) (tr : list Event) (s : State) : option State :=
  match tr with
  | [] => Some s
  | e :: tr =>
      match step url_ok e s with
      | Some s' => run url_ok tr s'
      | None => None
      end
  end.

End Legacy.

(* ================================================================== *)
(** * Vocabulary of the statements *)
(* ================================================================== *)

(** ** The view *)

(** Two snapshots carry the same value under column [k].  Rationals are
    compared as numbers ([==]): two representations of one number are the
    same key. *)
Definition same_key (k : Key) (a b : Snapshot) : Prop :=
  match k with
  | K_symbol => symbol a = symbol b
  | K_current_price => (current_price a == current_price b)%Q
  | K_percent_change => (percent_change a == percent_change b)%Q
  | K_trade_count => (trade_count a == trade_count b)%Q
  | K_volume => (volume a == volume b)%Q
  | K_high => (high a == high b)%Q
  | K_low => (low a == low b)%Q
  | K_vwap => (vwap a == vwap b)%Q
  | K_std_dev => (std_dev a == std_dev b)%Q
  end.

(** The ranges as the specification words them: a closed interval whose
    upper end may be absent ([Infinity]); an [undefined] end admits
    nothing. *)
Definition at_least (x : Q) (b : bound) : Prop :=
  match b with
  | Finite m => (m <= x)%Q
  | Infinity => False
  | Undefined => False
  end.

Definition at_most (x : Q) (b : bound) : Prop :=
  match b with
  | Finite m => (x <= m)%Q
  | Infinity => True
  | Undefined => False
  end.

Definition in_range (x : Q) (lo hi : bound) : Prop := at_least x lo /\ at_most x hi.

Definition retained (fc : FilterConfig) (s : Snapshot) : Prop :=
  in_range (current_price s) (minPrice fc) (maxPrice fc) /\
  in_range (volume s) (minVolume fc) (maxVolume fc) /\
  at_least (trade_count s) (minTradeCount fc).

(** ** The statistics *)



Definition number_eqb (a b : number) : bool :=
  match a, b with
  | Fin p, Fin q => (Qnum p =? Qnum q) && (Qden p =? Qden q)%positive
  | PosInf, PosInf | NegInf, NegInf | NaN, NaN => true
  | _, _ => false
  end.




(** ** The component between events *)

(** Ids handed out so far lie below [fresh]. *)
Definition bounded (a : App) : Prop :=
  let n := fresh (store a) in
  (stocks a < n /\ filteredStocks a < n /\
   obj_id (sortConfig a) < n /\ obj_id (filterConfig a) < n /\
   (view_deps a).1.1 < n /\ (view_deps a).1.2 < n /\ (view_deps a).2 < n)%nat.

(** The table shows the view of the current snapshots and configuration. *)
Definition consistent (a : App) : Prop :=
  contents a (filteredStocks a) =
  compute (contents a (stocks a)) (obj_val (filterConfig a)) (obj_val (sortConfig a)).

(** Between events: no effect is due, and the view is up to date. *)
Definition settled (a : App) : Prop :=
  bounded a /\ view_deps a = deps_of a /\ consistent a.

(** After a handler, before the effects run: the view is up to date unless
    a dependency changed. *)
Definition pending_render (a : App) : Prop :=
  bounded a /\ (view_deps a = deps_of a -> consistent a).

Definition set_message_deps (lastMessage : option string) (a : App) : App :=
  mkApp (store a) (stocks a) (filteredStocks a) (sortConfig a) (filterConfig a)
        lastMessage (view_deps a).

Definition sys_inv (s : System) : Prop :=
  settled (app s) /\ message_deps (app s) = lastMessage (hook (world s)).

(** The page sizes the selector offers ([displayOptions] in
    [FilterControls.js]). *)
Definition displayOptions : list Z := [10; 20; 50; 100; 200].

(** Inputs the controls can produce: the selector passes one of its own
    options to [handleChange('displayCount', ...)]. *)
Definition offered (i : Input) : bool :=
  match i with
  | User (HandleChange (change_displayCount value)) =>
      existsb (Z.eqb value) displayOptions
  | _ => true
  end.

Definition page_size (a : App) : Prop :=
  In (displayCount (obj_val (filterConfig a))) displayOptions.

(** ** The hook between events *)

Definition is_closed (r : ReadyState) : bool :=
  match r with CLOSED => true | _ => false end.

(** The delay of the [n]-th disconnect in a row, counted from 0, in
    milliseconds. *)
Definition backoff (n : nat) : Z := Z.min (1000 * 2 ^ Z.of_nat n) 30000.

(** The hook holds the one socket that is not closed, no timer is pending
    and the retry counter is 0: the state after mounting, and after every
    successful connect. *)
Definition calm (w : World) : bool :=
  match wsRef (hook w) with
  | Some id =>
      bool_decide (length (sockets (browser w)) = S id) &&
      forallb is_closed (firstn id (sockets (browser w))) &&
      match sockets (browser w) !! id with
      | Some st => negb (is_closed st)
      | None => false
      end &&
      bool_decide (pending (browser w) = ∅) &&
      (reconnectCountRef (hook w) =? 0)
  | None => false
  end.

(** Events other than a successful connect and the teardown. *)
Definition quiet (e : Event) : bool :=
  match e with
  | SockOpen _ | Unmount => false
  | _ => true
  end.

Definition not_unmount (e : Event) : bool :=
  match e with
  | Unmount => false
  | _ => true
  end.

(** One failed attempt: the hook's socket closes, then the timer set by
    its [onclose] fires. *)
Definition disconnect_round (url_ok : bool) (w : World) : World :=
  match wsRef (hook w) with
  | Some id =>
      step url_ok (TimerFire (length (timeouts (browser w))))
           (step url_ok (SockClose id) w)
  | None => w
  end.

(** The three situations of a mounted hook, [k] disconnects after the
    timers [base]: a socket is up; a reconnect is waiting for its timer; the
    constructor threw and nothing is scheduled. *)
Definition up (base : list Z) (k : nat) (w : World) : Prop :=
  exists l st,
    sockets (browser w) = l ++ [st] /\ Forall (eq CLOSED) l /\ st <> CLOSED /\
    wsRef (hook w) = Some (length l) /\
    pending (browser w) = ∅ /\
    timeouts (browser w) = base ++ List.map backoff (seq 0 k) /\
    reconnectCountRef (hook w) = Z.of_nat k.

Definition waiting (base : list Z) (k : nat) (w : World) : Prop :=
  Forall (eq CLOSED) (sockets (browser w)) /\
  pending (browser w) = {[ (length base + k)%nat ]} /\
  timeouts (browser w) = base ++ List.map backoff (seq 0 (S k)) /\
  reconnectCountRef (hook w) = Z.of_nat k.

Definition down (base : list Z) (k : nat) (w : World) : Prop :=
  Forall (eq CLOSED) (sockets (browser w)) /\
  pending (browser w) = ∅ /\
  timeouts (browser w) = base ++ List.map backoff (seq 0 k).

Definition phase (base : list Z) (w : World) : Prop :=
  exists k, up base k w \/ waiting base k w \/ down base k w.

(** The situations read the sockets, the timers, [wsRef] and the retry
    counter only. *)
Definition same_transport (w w' : World) : Prop :=
  browser w' = browser w /\ wsRef (hook w') = wsRef (hook w) /\
  reconnectCountRef (hook w') = reconnectCountRef (hook w).

(** ** The hook in any state *)

(** Sockets that are not closed. *)
Definition live_sockets (w : World) : list ReadyState :=
  List.filter (fun r => negb (is_closed r)) (sockets (browser w)).

(** Every pending timer is the one [reconnectTimeoutRef] holds. *)
Definition timer_held (w : World) : Prop :=
  forall t, t ∈ pending (browser w) -> reconnectTimeoutRef (hook w) = Some t.

(** What the status says about the sockets and the timers. *)
Definition status_inv (w : World) : Prop :=
  mounted w = true /\
  (connectionStatus (hook w) = connected ->
   exists id, wsRef (hook w) = Some id /\
              (sockets (browser w) !! id = Some OPEN \/
               sockets (browser w) !! id = Some CLOSING)) /\
  (pending (browser w) <> ∅ -> connectionStatus (hook w) = disconnected) /\
  (connectionStatus (hook w) = connecting ->
   sockets (browser w) = [CONNECTING] /\ timeouts (browser w) = []).

(** Torn down with nothing left to happen. *)
Definition frozen (w : World) : Prop :=
  mounted w = false /\ Forall (eq CLOSED) (sockets (browser w)) /\
  pending (browser w) = ∅.

(** The retry counter is never negative, and every delay handed to
    [setTimeout] is one of six values. *)
Definition delays_ok (w : World) : Prop :=
  0 <= reconnectCountRef (hook w) /\
  Forall (fun d => In d (List.map backoff (seq 0 6))) (timeouts (browser w)).

(** ** Columns, inputs and the comparators of the statistics *)

(** No two snapshots of [l] carry the same value under column [k]. *)
Definition distinct_keys (k : Key) (l : list Snapshot) : Prop :=
  ForallOrdPairs (fun a b => ~ same_key k a b) l.

Definition host_only (i : Input) : bool :=
  match i with
  | Host _ => true
  | User _ => false
  end.

(** The comparator [(a, b) => b.f - a.f] of the statistics, by its sign. *)
Definition by_desc (f : Snapshot -> Q) (a b : Snapshot) : Z := Qsign (f b - f a).

(** The entry [formatStockList] builds for a snapshot. *)
Definition entry_of (valueKey : Snapshot -> Q) (formatFn : Q -> string)
           (stock : Snapshot) : ListEntry :=
  mkListEntry (symbol stock) (percent_change stock) (formatFn (valueKey stock)).

(** ** The earlier hook between events *)

(** Sockets of the earlier hook that are not closed. *)
Definition legacy_live (s : Legacy.State) : list ReadyState :=
  List.filter (fun r => negb (is_closed r)) (sockets (Legacy.browser s)).

(** The situations of the earlier hook between events: the socket of the
    last effect run is the one socket not closed; every socket is closed and
    one timer is pending; every socket is closed and no timer is pending. *)
Definition legacy_up (s : Legacy.State) : Prop :=
  exists l st,
    sockets (Legacy.browser s) = l ++ [st] /\ Forall (eq CLOSED) l /\ st <> CLOSED /\
    Legacy.websocket s = Some (length l) /\ pending (Legacy.browser s) = ∅.

Definition legacy_waiting (s : Legacy.State) : Prop :=
  Forall (eq CLOSED) (sockets (Legacy.browser s)) /\
  exists t, pending (Legacy.browser s) = {[ t ]}.

Definition legacy_down (s : Legacy.State) : Prop :=
  Forall (eq CLOSED) (sockets (Legacy.browser s)) /\ pending (Legacy.browser s) = ∅.

Definition legacy_inv (s : Legacy.State) : Prop :=
  Forall (eq 1000) (timeouts (Legacy.browser s)) /\
  Z.of_nat (length (sockets (Legacy.browser s))) = Legacy.reconnectCount s + 1 /\
  Legacy.ws s = Legacy.websocket s /\
  (legacy_up s \/ legacy_waiting s \/ legacy_down s).

(** After the teardown in a state with [n] sockets, [c] retries, the
    message [m] and [k] timers set. *)
Definition legacy_torn (n : nat) (c : Z) (m : option string) (k : nat)
           (s : Legacy.State) : Prop :=
  Legacy.mounted s = false /\ length (sockets (Legacy.browser s)) = n /\
  Legacy.reconnectCount s = c /\ Legacy.lastMessage s = m /\
  ((legacy_up s /\ length (timeouts (Legacy.browser s)) = k) \/
   (Forall (eq CLOSED) (sockets (Legacy.browser s)) /\
    (length (timeouts (Legacy.browser s)) <= S k)%nat)).

(** ** Sample data *)

Definition row (sym : string) (price vol trades : Q) : Snapshot :=
  mkSnapshot sym price 0 vol trades price price price 0.

Definition AAA : Snapshot := row "AAA" 10 100 5.
Definition BBB : Snapshot := row "BBB" 11 400 5.
Definition CCC : Snapshot := row "CCC" 10 50 7.

(** A price ceiling of 10, everything else open. *)
Definition ceiling10 : FilterConfig :=
  mkFilterConfig (Finite 0) (Finite 10) (Finite 0) Infinity (Finite 0) 2.

Definition inverted : FilterConfig :=
  mkFilterConfig (Finite 10) (Finite 5) (Finite 0) Infinity (Finite 0) 50.

(** Pages of two and of twenty rows, every range open. *)
Definition first_two : FilterConfig :=
  mkFilterConfig (Finite 0) Infinity (Finite 0) Infinity (Finite 0) 2.

Definition first_twenty : FilterConfig :=
  mkFilterConfig (Finite 0) Infinity (Finite 0) Infinity (Finite 0) 20.

(** A hundred rows, of 0 to 99 trades. *)
Definition hundred_rows : list Snapshot :=
  List.map (fun n => row "ROW" 10 100 (inject_Z (Z.of_nat n))) (seq 0 100).

(** A row that rose by one and a half percent. *)
Definition UPP : Snapshot := mkSnapshot "UPP" 12 (3 # 2) 300 9 12 12 12 0.

(** A [toFixed(1)] that knows three numbers: 0, 100 and the double
    [(1 / 3) * 100], which is 33.33333333333333. *)
Definition three_ratios (r : number) : string :=
  if number_eqb r (Fin 0) then "0.0"
  else if number_eqb r (Fin 100) then "100.0"
  else if number_eqb r (Fin (2345624805922133 # 70368744177664)) then "33.3"
  else "?".

(** A parser that knows four frames. *)
Definition four_frames (raw : string) : option message :=
  if String.eqb raw "feed" then Some (MValue (Some market_data) [AAA; BBB; CCC])
  else if String.eqb raw "status" then Some (MValue (Some "market_status"%string) [])
  else if String.eqb raw "null" then Some MNull
  else None.

Definition connected_and_fed : list Input :=
  [Host (SockOpen 0%nat); Host (SockMessage 0%nat "feed")].

(** Two trades of a chart. *)
Definition two_trades : list SymbolClick.Trade :=
  [SymbolClick.mkTrade (SymbolClick.new_Date "t0") 10 100;
   SymbolClick.mkTrade (SymbolClick.new_Date "t1") 12 300].

(** JSON restricted to the two booleans. *)
Definition parse_bool (s : string) : option bool :=
  if String.eqb s "true" then Some true
  else if String.eqb s "false" then Some false
  else None.

Definition stringify_bool (b : bool) : string :=
  if b then "true"%string else "false"%string.

(** The earlier hook with its first socket open. *)
Definition legacy_open : Legacy.State :=
  Legacy.mkState (Some 0%nat) None 0 (Some 0%nat) (mkBrowser [OPEN] [] ∅) true.

(* ================================================================== *)
(** * Properties of [sort] and [slice] *)
(* ================================================================== *)

Section ArraySortFacts.
Context {A : Type} (cmp : A -> A -> Z).

Lemma sort_insert_perm (x : A) (l : list A) :
  Permutation (sort_insert cmp x l) (x :: l).
Proof.
  induction l as [|y l IH]; simpl; [reflexivity|].
  destruct (0 <? cmp x y); [|reflexivity].
  rewrite IH. apply perm_swap.
Qed.

Lemma array_sort_perm (l : list A) : Permutation (array_sort cmp l) l.
Proof.
  induction l as [|x l IH]; simpl; [reflexivity|].
  rewrite sort_insert_perm. now constructor.
Qed.

Lemma array_sort_length (l : list A) : length (array_sort cmp l) = length l.
Proof. apply Permutation_length, array_sort_perm. Qed.

Lemma array_sort_In (x : A) (l : list A) : In x (array_sort cmp l) <-> In x l.
Proof.
  split; apply Permutation_in; [|symmetry]; apply array_sort_perm.
Qed.

(** Inserting [x] puts it in front of every element of a class [P] that
    [x] does not follow. *)
Lemma sort_insert_filter (P : A -> bool) (x : A) (l : list A) :
  (P x = true -> forall y, In y l -> P y = true -> cmp x y <= 0) ->
  List.filter P (sort_insert cmp x l) =
  if P x then x :: List.filter P l else List.filter P l.
Proof.
  induction l as [|y l IH]; intros H; simpl; [reflexivity|].
  destruct (0 <? cmp x y) eqn:E.
  - simpl. rewrite IH by (intros Hx z Hz; apply H; [exact Hx | now right]).
    destruct (P x) eqn:Px, (P y) eqn:Py; try reflexivity.
    apply Z.ltb_lt in E.
    specialize (H eq_refl y (or_introl eq_refl) Py). lia.
  - reflexivity.
Qed.

(** Stability: a class of elements that compare equal to each other comes
    out in the order it went in. *)
Lemma array_sort_stable (P : A -> bool) (l : list A) :
  (forall x y, P x = true -> P y = true -> cmp x y <= 0) ->
  List.filter P (array_sort cmp l) = List.filter P l.
Proof.
  intros H. induction l as [|x l IH]; simpl; [reflexivity|].
  rewrite sort_insert_filter by (intros Hx y _ Hy; now apply H).
  now rewrite IH.
Qed.

Hypothesis cmp_total : forall x y, 0 < cmp x y -> cmp y x <= 0.
Hypothesis cmp_trans : forall x y z, cmp x y <= 0 -> cmp y z <= 0 -> cmp x z <= 0.

Lemma sort_insert_ordered (x : A) (l : list A) :
  ordered cmp l -> ordered cmp (sort_insert cmp x l).
Proof.
  induction 1 as [|y l Hl IH Hy]; simpl.
  - repeat constructor.
  - destruct (0 <? cmp x y) eqn:E.
    + constructor; [exact IH|].
      apply List.Forall_forall. intros z Hz.
      apply (Permutation_in _ (sort_insert_perm x l)) in Hz.
      destruct Hz as [<-|Hz].
      * apply cmp_total. now apply Z.ltb_lt.
      * rewrite List.Forall_forall in Hy. now apply Hy.
    + apply Z.ltb_ge in E.
      constructor; [now constructor|].
      constructor; [exact E|].
      rewrite List.Forall_forall in Hy |- *. intros z Hz.
      apply cmp_trans with y; [exact E | now apply Hy].
Qed.

Lemma array_sort_ordered (l : list A) : ordered cmp (array_sort cmp l).
Proof.
  induction l as [|x l IH]; simpl; [constructor|].
  now apply sort_insert_ordered.
Qed.
End ArraySortFacts.

Lemma In_skipn_In {A : Type} (n : nat) (l : list A) (y : A) :
  In y (skipn n l) -> In y l.
Proof.
  intros H. rewrite <- (firstn_skipn n l). apply in_or_app. now right.
Qed.

Lemma ordered_split {A : Type} (cmp : A -> A -> Z) (n : nat) (l : list A) :
  ordered cmp l ->
  forall x y, In x (firstn n l) -> In y (skipn n l) -> cmp x y <= 0.
Proof.
  intros H. revert n. induction H as [|a l Hl IH Ha]; intros n x y Hx Hy.
  - destruct n; simpl in Hx; contradiction.
  - destruct n as [|n]; simpl in *; [contradiction|].
    destruct Hx as [<-|Hx].
    + rewrite List.Forall_forall in Ha. apply Ha.
      now apply In_skipn_In with n.
    + now apply (IH n).
Qed.

Lemma array_slice_nil {A : Type} (start end_ : Z) :
  array_slice start end_ (@nil A) = [].
Proof. unfold array_slice. now rewrite skipn_nil, firstn_nil. Qed.

Lemma array_slice_prefix {A : Type} (n : Z) (l : list A) :
  0 <= n -> array_slice 0 n l = firstn (Z.to_nat n) l.
Proof.
  intros Hn. unfold array_slice, slice_index. simpl.
  destruct (n <? 0) eqn:E; [apply Z.ltb_lt in E; lia|].
  assert (H0 : Z.min 0 (Z.of_nat (length l)) = 0) by lia.
  rewrite H0, Z.sub_0_r. change (Z.to_nat 0) with 0%nat. rewrite skipn_0.
  destruct (Z.le_gt_cases n (Z.of_nat (length l))).
  - f_equal. lia.
  - rewrite !firstn_all2; try reflexivity; lia.
Qed.

Lemma filter_cons_inv {A : Type} (P : A -> bool) (m : list A) (a : A) (v : list A) :
  List.filter P m = a :: v ->
  exists m1 m2, m = m1 ++ a :: m2 /\ List.filter P m2 = v.
Proof.
  induction m as [|x m IH]; simpl; [discriminate|].
  destruct (P x).
  - intros E. inversion E. subst. now exists [], m.
  - intros E. destruct (IH E) as (m1 & m2 & -> & Hv).
    now exists (x :: m1), m2.
Qed.

Lemma filter_app_cons_inv {A : Type} (P : A -> bool) (u : list A) :
  forall (m : list A) (a : A) (v : list A),
  List.filter P m = u ++ a :: v ->
  exists m1 m2, m = m1 ++ a :: m2 /\ List.filter P m2 = v.
Proof.
  induction u as [|c u IH]; intros m a v E.
  - now apply filter_cons_inv.
  - apply filter_cons_inv in E. destruct E as (p & q & -> & Hq).
    destruct (IH q a v Hq) as (q1 & q2 & -> & Hv).
    exists (p ++ c :: q1), q2. split; [|exact Hv].
    now rewrite <- app_assoc.
Qed.

Section ArraySortUnique.
Context {A : Type} (cmp : A -> A -> Z).

(** A consistent comparator: swapping the arguments flips the sign, and
    "does not come after" is transitive. *)
Hypothesis cmp_opp : forall x y, Z.sgn (cmp y x) = - Z.sgn (cmp x y).
Hypothesis cmp_trans : forall x y z, cmp x y <= 0 -> cmp y z <= 0 -> cmp x z <= 0.

Lemma cmp_refl (x : A) : cmp x x = 0.
Proof. pose proof (cmp_opp x x). lia. Qed.

Lemma cmp_tie_trans (x a b : A) : cmp x a = 0 -> cmp x b = 0 -> cmp a b = 0.
Proof.
  intros Ha Hb. pose proof (cmp_opp x a). pose proof (cmp_opp a b).
  assert (cmp a b <= 0) by (apply cmp_trans with x; lia).
  assert (cmp b a <= 0) by (pose proof (cmp_opp x b); apply cmp_trans with x; lia).
  lia.
Qed.

Lemma class_In (l1 l2 : list A) (b : A) :
  (forall x, List.filter (fun y => cmp x y =? 0) l1 =
             List.filter (fun y => cmp x y =? 0) l2) ->
  In b l2 -> In b l1.
Proof.
  intros Hcls Hb.
  assert (H : In b (List.filter (fun y => cmp b y =? 0) l2)).
  { apply filter_In. split; [exact Hb|]. now rewrite cmp_refl. }
  rewrite <- Hcls in H. now apply filter_In in H.
Qed.

Lemma ordered_head (a : A) (l : list A) (b : A) :
  ordered cmp (a :: l) -> In b (a :: l) -> cmp a b <= 0.
Proof.
  intros H [<-|Hb].
  - now rewrite cmp_refl.
  - apply StronglySorted_inv in H. destruct H as [_ H].
    rewrite List.Forall_forall in H. now apply H.
Qed.

(** Two lists in the order of [cmp] whose classes of ties agree, element by
    element, are the same list. *)
Lemma ordered_stable_unique (l1 l2 : list A) :
  ordered cmp l1 -> ordered cmp l2 ->
  (forall x, List.filter (fun y => cmp x y =? 0) l1 =
             List.filter (fun y => cmp x y =? 0) l2) ->
  l1 = l2.
Proof.
  revert l2. induction l1 as [|a l1 IH]; intros l2 H1 H2 Hcls.
  - destruct l2 as [|b l2]; [reflexivity|].
    specialize (Hcls b). simpl in Hcls. rewrite cmp_refl in Hcls. discriminate.
  - destruct l2 as [|b l2].
    { specialize (Hcls a). simpl in Hcls. rewrite cmp_refl in Hcls. discriminate. }
    assert (Hab : cmp a b = 0).
    { assert (cmp a b <= 0).
      { apply (ordered_head a l1 b H1). apply (class_In _ (b :: l2)); [exact Hcls | now left]. }
      assert (cmp b a <= 0).
      { apply (ordered_head b l2 a H2).
        apply (class_In _ (a :: l1)); [intros x; symmetry; apply Hcls | now left]. }
      pose proof (cmp_opp a b). lia. }
    assert (a = b).
    { pose proof (Hcls a) as E. simpl in E. rewrite cmp_refl, Hab in E.
      simpl in E. now inversion E. }
    subst b. f_equal. apply IH.
    + now apply StronglySorted_inv in H1.
    + now apply StronglySorted_inv in H2.
    + intros x. specialize (Hcls x). simpl in Hcls.
      destruct (cmp x a =? 0); [now inversion Hcls | exact Hcls].
Qed.

(** Hence the result of [sort] is fixed by its contract: any stable
    arrangement of [l] in the order of [cmp] is [array_sort cmp l]. *)
Lemma array_sort_unique (l l' : list A) :
  ordered cmp l' ->
  (forall x, List.filter (fun y => cmp x y =? 0) l' =
             List.filter (fun y => cmp x y =? 0) l) ->
  l' = array_sort cmp l.
Proof.
  intros Ho Hcls. apply ordered_stable_unique; [exact Ho | |].
  - apply array_sort_ordered; [|exact cmp_trans].
    intros x y Hxy. pose proof (cmp_opp x y). lia.
  - intros x. rewrite Hcls. symmetry. apply array_sort_stable.
    intros a b Ha Hb. apply Z.eqb_eq in Ha, Hb.
    pose proof (cmp_tie_trans x a b Ha Hb). lia.
Qed.
End ArraySortUnique.

(* ================================================================== *)
(** * The comparator of the view *)
(* ================================================================== *)

Lemma string_compare_refl (s : string) : String.compare s s = Eq.
Proof.
  induction s as [|c s IH]; simpl; [reflexivity|].
  unfold Ascii.compare. now rewrite N.compare_refl.
Qed.

Lemma string_compare_le_trans (s1 s2 s3 : string) :
  String.compare s1 s2 <> Gt -> String.compare s2 s3 <> Gt ->
  String.compare s1 s3 <> Gt.
Proof.
  revert s2 s3. induction s1 as [|c1 s1 IH]; intros [|c2 s2] [|c3 s3]; simpl;
    try congruence.
  unfold Ascii.compare.
  destruct (N.compare_spec (N_of_ascii c1) (N_of_ascii c2)) as [E12|L12|G12];
    destruct (N.compare_spec (N_of_ascii c2) (N_of_ascii c3)) as [E23|L23|G23];
    try congruence; intros H12 H23.
  - rewrite E12, E23, N.compare_refl. now apply IH with s2.
  - rewrite E12. now apply N.compare_lt_iff in L23 as ->.
  - rewrite <- E23. now apply N.compare_lt_iff in L12 as ->.
  - assert (L13 : (N_of_ascii c1 < N_of_ascii c3)%N) by lia.
    now apply N.compare_lt_iff in L13 as ->.
Qed.

Lemma key_compare_antisym (k : Key) (a b : Snapshot) :
  key_compare k b a = CompOpp (key_compare k a b).
Proof.
  destruct k; simpl;
    first [ apply String.compare_antisym | symmetry; apply Qcompare_antisym ].
Qed.

Lemma key_compare_Eq (k : Key) (a b : Snapshot) :
  key_compare k a b = Eq <-> same_key k a b.
Proof.
  destruct k; simpl; try (symmetry; apply Qeq_alt).
  split.
  - apply String.compare_eq_iff.
  - intros ->. apply string_compare_refl.
Qed.

Lemma key_compare_le_trans (k : Key) (a b c : Snapshot) :
  key_compare k a b <> Gt -> key_compare k b c <> Gt -> key_compare k a c <> Gt.
Proof.
  destruct k; simpl;
    first [ apply string_compare_le_trans
          | rewrite <- !Qle_alt; apply Qle_trans ].
Qed.

Lemma same_key_trans (k : Key) (a b c : Snapshot) :
  same_key k a b -> same_key k b c -> same_key k a c.
Proof.
  destruct k; simpl; first [ congruence | apply Qeq_trans ].
Qed.

Lemma same_key_sym (k : Key) (a b : Snapshot) : same_key k a b -> same_key k b a.
Proof.
  destruct k; simpl; first [ congruence | apply Qeq_sym ].
Qed.

(** A tie of the comparator is exactly an equal key, whatever the
    direction. *)
Lemma comparator_zero (sc : SortConfig) (a b : Snapshot) :
  comparator sc a b = 0 <-> same_key (key sc) a b.
Proof.
  rewrite <- key_compare_Eq. unfold comparator, key_lt, key_gt.
  destruct (key_compare (key sc) a b), (is_asc (direction sc)); simpl;
    split; intros H; try reflexivity; try discriminate; lia.
Qed.

(** [a] does not rank after [b]. *)
Lemma comparator_le (sc : SortConfig) (a b : Snapshot) :
  comparator sc a b <= 0 <->
  if is_asc (direction sc) then key_compare (key sc) a b <> Gt
  else key_compare (key sc) b a <> Gt.
Proof.
  rewrite (key_compare_antisym (key sc) a b).
  unfold comparator, key_lt, key_gt.
  destruct (key_compare (key sc) a b), (is_asc (direction sc)); simpl;
    split; intros H; try lia; try discriminate; try congruence.
Qed.

Lemma comparator_total (sc : SortConfig) (x y : Snapshot) :
  0 < comparator sc x y -> comparator sc y x <= 0.
Proof.
  unfold comparator, key_lt, key_gt.
  rewrite (key_compare_antisym (key sc) x y).
  destruct (key_compare (key sc) x y), (is_asc (direction sc)); simpl; lia.
Qed.

Lemma comparator_trans (sc : SortConfig) (x y z : Snapshot) :
  comparator sc x y <= 0 -> comparator sc y z <= 0 -> comparator sc x z <= 0.
Proof.
  rewrite !comparator_le. destruct (is_asc (direction sc)); intros Hxy Hyz.
  - now apply key_compare_le_trans with y.
  - now apply key_compare_le_trans with y.
Qed.

Lemma sort_step_ordered (sc : SortConfig) (l : list Snapshot) :
  ordered (comparator sc) (sort_step sc l).
Proof.
  apply array_sort_ordered; [apply comparator_total | apply comparator_trans].
Qed.

Lemma comparator_opp (sc : SortConfig) (x y : Snapshot) :
  Z.sgn (comparator sc y x) = - Z.sgn (comparator sc x y).
Proof.
  unfold comparator, key_lt, key_gt.
  rewrite (key_compare_antisym (key sc) x y).
  destruct (key_compare (key sc) x y), (is_asc (direction sc)); reflexivity.
Qed.

(** The sorted list of the view is the only stable arrangement of the
    filtered list in the order of the comparator. *)
Lemma sort_step_unique (sc : SortConfig) (l l' : list Snapshot) :
  ordered (comparator sc) l' ->
  (forall x, List.filter (fun y => comparator sc x y =? 0) l' =
             List.filter (fun y => comparator sc x y =? 0) l) ->
  l' = sort_step sc l.
Proof.
  apply array_sort_unique; [apply comparator_opp | apply comparator_trans].
Qed.

(* ================================================================== *)
(** * The filter step *)
(* ================================================================== *)

Lemma num_ge_at_least (x : Q) (b : bound) : num_ge x b = true <-> at_least x b.
Proof.
  destruct b; simpl; [apply Qle_bool_iff | |]; split; (discriminate || contradiction).
Qed.

Lemma num_le_at_most (x : Q) (b : bound) : num_le x b = true <-> at_most x b.
Proof.
  destruct b; simpl; [apply Qle_bool_iff | |]; split;
    try discriminate; try contradiction; auto.
Qed.

Lemma passes_retained (fc : FilterConfig) (s : Snapshot) :
  passes fc s = true <-> retained fc s.
Proof.
  unfold passes, retained, in_range.
  rewrite !andb_true_iff, !num_ge_at_least, !num_le_at_most. tauto.
Qed.

(** C4.  The filter step keeps a snapshot exactly when its price lies in
    [[minPrice, maxPrice]], its volume in [[minVolume, maxVolume]], both ends
    included, and its trade count is at least [minTradeCount].  A price equal
    to [maxPrice] is not excluded by that bound, a price one above it is
    excluded, and an [Infinity] maximum excludes nothing. *)
Theorem filter_step_retains (stocks : list Snapshot) (fc : FilterConfig) :
  (forall s, In s (filter_step fc stocks) <-> In s stocks /\ retained fc s) /\
  (forall s m, maxPrice fc = Finite m -> (current_price s == m)%Q ->
     at_most (current_price s) (maxPrice fc) /\
     (In s (filter_step fc stocks) <->
      In s stocks /\ at_least (current_price s) (minPrice fc) /\
      in_range (volume s) (minVolume fc) (maxVolume fc) /\
      at_least (trade_count s) (minTradeCount fc))) /\
  (forall s m, maxPrice fc = Finite m -> (current_price s == m + 1)%Q ->
     ~ In s (filter_step fc stocks)) /\
  (maxPrice fc = Infinity -> maxVolume fc = Infinity ->
   forall s, In s (filter_step fc stocks) <->
     In s stocks /\ at_least (current_price s) (minPrice fc) /\
     at_least (volume s) (minVolume fc) /\
     at_least (trade_count s) (minTradeCount fc)).
Proof.
  assert (Hiff : forall s, In s (filter_step fc stocks) <-> In s stocks /\ retained fc s).
  { intros s. unfold filter_step. rewrite filter_In, passes_retained. reflexivity. }
  split; [exact Hiff|]. split; [|split].
  - intros s m Hmax Hs.
    assert (Hle : at_most (current_price s) (maxPrice fc)).
    { rewrite Hmax. simpl. rewrite Hs. apply Qle_refl. }
    split; [exact Hle|]. rewrite Hiff. unfold retained, in_range. tauto.
  - intros s m Hmax Hs Hin. apply Hiff in Hin.
    destruct Hin as (_ & (_ & Hle) & _). rewrite Hmax in Hle. simpl in Hle.
    rewrite Hs in Hle. apply (Qle_not_lt _ _ Hle).
    rewrite <- (Qplus_0_r m) at 1. apply Qplus_lt_r. reflexivity.
  - intros HP HV s. rewrite Hiff. unfold retained, in_range.
    rewrite HP, HV. simpl. tauto.
Qed.

(** C8.  With an inverted range ([minPrice > maxPrice] or
    [minVolume > maxVolume]) the view is the empty list. *)
Theorem compute_inverted_range_empty
        (stocks : list Snapshot) (fc : FilterConfig) (sc : SortConfig) :
  bound_gt (minPrice fc) (maxPrice fc) = true \/
  bound_gt (minVolume fc) (maxVolume fc) = true ->
  compute stocks fc sc = [].
Proof.
  intros Hinv.
  assert (Hnone : forall s, passes fc s = false).
  { intros s. apply not_true_is_false. rewrite passes_retained.
    unfold retained, in_range. intros ((Hlo & Hhi) & (Vlo & Vhi) & _).
    destruct Hinv as [H|H]; unfold bound_gt in H.
    - destruct (minPrice fc) as [lo| |], (maxPrice fc) as [hi| |];
        simpl in *; try discriminate; try contradiction.
      apply negb_true_iff in H.
      assert (Hle : (lo <= hi)%Q) by (now apply Qle_trans with (current_price s)).
      apply Qle_bool_iff in Hle. congruence.
    - destruct (minVolume fc) as [lo| |], (maxVolume fc) as [hi| |];
        simpl in *; try discriminate; try contradiction.
      apply negb_true_iff in H.
      assert (Hle : (lo <= hi)%Q) by (now apply Qle_trans with (volume s)).
      apply Qle_bool_iff in Hle. congruence. }
  unfold compute, filter_step.
  replace (List.filter (passes fc) stocks) with (@nil Snapshot).
  - unfold truncate_step, sort_step. simpl. apply array_slice_nil.
  - symmetry. induction stocks as [|s l IH]; simpl; [reflexivity|].
    now rewrite Hnone.
Qed.

(* ================================================================== *)
(** * The sort step *)
(* ================================================================== *)

(** C5.  The sort step is stable: for every snapshot [x], the snapshots
    whose key equals that of [x] stand in the output in the order they had in
    the input, under either direction, so no second key orders them; in
    particular, of two snapshots with equal keys the one that came first in
    the input comes first in the output; the comparator ties exactly on
    equal keys; and the descending comparator is the negation of the
    ascending one.  The output is a reordering of the input in the order of
    the comparator. *)
Theorem sort_step_stable (sc : SortConfig) (l : list Snapshot) :
  (forall x, List.filter (fun y => comparator sc x y =? 0) (sort_step sc l) =
             List.filter (fun y => comparator sc x y =? 0) l) /\
  (forall l1 a l2 b l3,
     l = l1 ++ a :: l2 ++ b :: l3 -> same_key (key sc) a b ->
     exists r1 r2 r3, sort_step sc l = r1 ++ a :: r2 ++ b :: r3) /\
  (forall a b, comparator sc a b = 0 <-> same_key (key sc) a b) /\
  (forall k a b, comparator (mkSortConfig k desc) a b =
                 - comparator (mkSortConfig k asc) a b) /\
  Permutation (sort_step sc l) l /\
  ordered (comparator sc) (sort_step sc l).
Proof.
  assert (Hst : forall x,
            List.filter (fun y => comparator sc x y =? 0) (sort_step sc l) =
            List.filter (fun y => comparator sc x y =? 0) l).
  { intros x. apply array_sort_stable. intros a b Ha Hb.
    apply Z.eqb_eq, comparator_zero in Ha. apply Z.eqb_eq, comparator_zero in Hb.
    assert (H : comparator sc a b = 0).
    { apply comparator_zero. apply same_key_trans with x; [|exact Hb].
      now apply same_key_sym. }
    lia. }
  split; [exact Hst|]. split; [|split; [|split; [|split]]].
  - intros l1 a l2 b l3 Hl Hab.
    pose proof (Hst a) as E. rewrite Hl in E at 2.
    rewrite List.filter_app in E. simpl in E.
    assert (Haa : (comparator sc a a =? 0) = true).
    { apply Z.eqb_eq, comparator_zero. destruct (key sc); simpl; reflexivity. }
    rewrite Haa, List.filter_app in E. simpl in E.
    assert (Hb : (comparator sc a b =? 0) = true) by now apply Z.eqb_eq, comparator_zero.
    rewrite Hb in E.
    apply filter_app_cons_inv in E. destruct E as (r1 & m2 & Hsort & Hm2).
    apply filter_app_cons_inv in Hm2. destruct Hm2 as (r2 & r3 & -> & _).
    now exists r1, r2, r3.
  - apply comparator_zero.
  - intros k a b. unfold comparator, key_lt, key_gt. simpl.
    destruct (key_compare k a b); reflexivity.
  - apply array_sort_perm.
  - apply sort_step_ordered.
Qed.

(* ================================================================== *)
(** * The statistics *)
(* ================================================================== *)


(** Rounding reads the number, not its representation as a fraction. *)
Lemma round64_proper (p q : Q) : (p == q)%Q -> round64 p = round64 q.
Proof. intros H. unfold round64. now rewrite (Qred_complete p q H). Qed.











(* ================================================================== *)
(** * The view effect on the store *)
(* ================================================================== *)

Lemma view_effect_body_spec (r : nat) (fc : FilterConfig) (sc : SortConfig) (s : Store) :
  let '(out, s') := view_effect_body r fc sc s in
  out = (fresh s + 2)%nat /\
  fresh s' = (fresh s + 3)%nat /\
  arrays s' !! out = Some (compute (default [] (arrays s !! r)) fc sc) /\
  (forall q, (q < fresh s)%nat -> arrays s' !! q = arrays s !! q).
Proof.
  unfold view_effect_body, spread, filter_method, sort_method, slice_method,
    bind, read, alloc, write, ret.
  simpl. rewrite !lookup_insert_eq. simpl.
  split; [lia|]. split; [lia|]. split; [reflexivity|].
  intros q Hq. rewrite !lookup_insert_ne by lia. reflexivity.
Qed.

Lemma view_effect_spec (a : App) :
  let a' := view_effect a in
  stocks a' = stocks a /\ sortConfig a' = sortConfig a /\
  filterConfig a' = filterConfig a /\ message_deps a' = message_deps a /\
  view_deps a' = deps_of a' /\
  filteredStocks a' = (fresh (store a) + 2)%nat /\
  fresh (store a') = (fresh (store a) + 3)%nat /\
  contents a' (filteredStocks a') =
    compute (contents a (stocks a)) (obj_val (filterConfig a)) (obj_val (sortConfig a)) /\
  (forall q, (q < fresh (store a))%nat -> contents a' q = contents a q).
Proof.
  unfold view_effect, contents.
  pose proof (view_effect_body_spec (stocks a) (obj_val (filterConfig a))
                (obj_val (sortConfig a)) (store a)) as H.
  destruct (view_effect_body _ _ _ _) as [out s']. simpl.
  destruct H as (Hout & Hfresh & Hres & Hframe).
  repeat split; try assumption.
  - now rewrite Hres.
  - intros q Hq. now rewrite Hframe.
Qed.

Lemma view_effect_settled (a : App) : bounded a -> settled (view_effect a).
Proof.
  intros Hb. pose proof (view_effect_spec a) as H. cbv zeta in H.
  destruct H as (Hs & Hsc & Hfc & _ & Hd & Hf & Hn & Hres & Hframe).
  unfold bounded in Hb. destruct Hb as (B1 & B2 & B3 & B4 & _).
  split; [|split].
  - unfold bounded. rewrite Hd. unfold deps_of. cbn [fst snd].
    rewrite Hs, Hsc, Hfc, Hf, Hn. lia.
  - exact Hd.
  - unfold consistent. rewrite Hres, Hs, Hsc, Hfc. now rewrite (Hframe _ B1).
Qed.

Lemma settled_pending_render (a : App) : settled a -> pending_render a.
Proof. intros (Hb & _ & Hc). split; [exact Hb | intros _; exact Hc]. Qed.

Lemma setStocks_spec (data : list Snapshot) (a : App) :
  let a' := setStocks data a in
  stocks a' = fresh (store a) /\ contents a' (stocks a') = data /\
  fresh (store a') = S (fresh (store a)) /\
  filteredStocks a' = filteredStocks a /\ sortConfig a' = sortConfig a /\
  filterConfig a' = filterConfig a /\ view_deps a' = view_deps a /\
  message_deps a' = message_deps a /\
  (forall q, (q < fresh (store a))%nat -> contents a' q = contents a q).
Proof.
  unfold setStocks, contents, alloc. simpl. rewrite lookup_insert_eq.
  repeat split. intros q Hq. rewrite lookup_insert_ne by lia. reflexivity.
Qed.

Lemma setStocks_pending_render (data : list Snapshot) (a : App) :
  pending_render a -> pending_render (setStocks data a).
Proof.
  intros [Hb _]. pose proof (setStocks_spec data a) as H. cbv zeta in H.
  destruct H as (Hs & _ & Hn & Hf & Hsc & Hfc & Hd & _).
  unfold bounded in Hb. split.
  - unfold bounded. rewrite Hs, Hn, Hf, Hsc, Hfc, Hd. lia.
  - unfold deps_of. rewrite Hs, Hd. intros E.
    destruct (view_deps a) as [[d1 d2] d3]. simpl in Hb. inversion E. lia.
Qed.

Lemma setSortConfig_pending_render (v : SortConfig) (a : App) :
  pending_render a -> pending_render (setSortConfig v a).
Proof.
  intros [Hb _]. unfold bounded in Hb. split.
  - unfold bounded, setSortConfig. simpl. lia.
  - unfold deps_of, setSortConfig. simpl. intros E.
    destruct (view_deps a) as [[d1 d2] d3]. simpl in Hb. inversion E. lia.
Qed.

Lemma setFilterConfig_pending_render (v : FilterConfig) (a : App) :
  pending_render a -> pending_render (setFilterConfig v a).
Proof.
  intros [Hb _]. unfold bounded in Hb. split.
  - unfold bounded, setFilterConfig. simpl. lia.
  - unfold deps_of, setFilterConfig. simpl. intros E.
    destruct (view_deps a) as [[d1 d2] d3]. simpl in Hb. inversion E. lia.
Qed.

Lemma handle_pending_render (u : UserEvent) (a : App) :
  pending_render a -> pending_render (handle u a).
Proof.
  destruct u; simpl; unfold handleSort, handleChange, handleRangeChange, resetFilters;
    first [ apply setSortConfig_pending_render | apply setFilterConfig_pending_render ].
Qed.

(** The handlers of the controls leave the snapshots alone. *)
Lemma handle_stocks (u : UserEvent) (a : App) :
  stocks (handle u a) = stocks a /\
  contents (handle u a) (stocks a) = contents a (stocks a) /\
  message_deps (handle u a) = message_deps a.
Proof.
  destruct u; simpl; repeat split.
Qed.

Section MessageEffectFacts.
Variable JSON_parse : string -> option message.

(** What the message effect does, by the frame it is given. *)
Lemma process_message_cases (lastMessage : option string) (a : App) :
  process_message JSON_parse lastMessage a =
  match lastMessage with
  | Some raw =>
      match truthy lastMessage, JSON_parse raw with
      | true, Some (MValue type data) =>
          if is_market_data type then Ok (setStocks data a) else Ok a
      | _, _ => Ok a
      end
  | None => Ok a
  end.
Proof.
  unfold process_message, parse, try_catch.
  destruct lastMessage as [raw|]; [|reflexivity].
  destruct (truthy (Some raw)); [|reflexivity].
  destruct (JSON_parse raw) as [[|type data]|]; try reflexivity.
  destruct (is_market_data type); reflexivity.
Qed.

Lemma process_message_returns (lastMessage : option string) (a : App) :
  process_message JSON_parse lastMessage a =
  Ok (message_effect JSON_parse lastMessage a).
Proof.
  unfold message_effect. rewrite process_message_cases.
  destruct lastMessage as [raw|]; [|reflexivity].
  destruct (truthy (Some raw)); [|reflexivity].
  destruct (JSON_parse raw) as [[|type data]|]; try reflexivity.
  destruct (is_market_data type); reflexivity.
Qed.

Lemma message_effect_cases (lastMessage : option string) (a : App) :
  message_effect JSON_parse lastMessage a = a \/
  exists raw data,
    lastMessage = Some raw /\ raw <> EmptyString /\
    JSON_parse raw = Some (MValue (Some market_data) data) /\
    message_effect JSON_parse lastMessage a = setStocks data a.
Proof.
  unfold message_effect. rewrite process_message_cases.
  destruct lastMessage as [raw|]; [|now left].
  destruct (truthy (Some raw)) eqn:T; [|now left].
  destruct (JSON_parse raw) as [[|type data]|] eqn:P; try now left.
  destruct (is_market_data type) eqn:I; [|now left].
  right. exists raw, data. repeat split; try reflexivity.
  - intros ->. discriminate T.
  - destruct type as [t|]; [|discriminate I]. simpl in I.
    apply String.eqb_eq in I. now subst t.
Qed.

Lemma message_effect_pending_render (lastMessage : option string) (a : App) :
  pending_render a -> pending_render (message_effect JSON_parse lastMessage a).
Proof.
  intros H. destruct (message_effect_cases lastMessage a) as [->|(raw & data & _ & _ & _ & ->)];
    [exact H | now apply setStocks_pending_render].
Qed.

Lemma run_message_effect_pending_render (lastMessage : option string) (a : App) :
  pending_render a -> pending_render (run_message_effect JSON_parse lastMessage a).
Proof.
  intros H. unfold run_message_effect. destruct (bool_decide _); [exact H|].
  apply (message_effect_pending_render lastMessage) in H.
  destruct H as [Hb Hc]. split; [exact Hb | exact Hc].
Qed.

Lemma run_message_effect_deps (lastMessage : option string) (a : App) :
  message_deps (run_message_effect JSON_parse lastMessage a) = lastMessage.
Proof.
  unfold run_message_effect. destruct (bool_decide _) eqn:E; [|reflexivity].
  now apply bool_decide_eq_true in E.
Qed.

Lemma run_view_effect_settled (a : App) :
  pending_render a -> settled (run_view_effect a).
Proof.
  intros [Hb Hc]. unfold run_view_effect.
  destruct (bool_decide _) eqn:E.
  - apply bool_decide_eq_true in E. split; [exact Hb|]. split; [exact E | now apply Hc].
  - now apply view_effect_settled.
Qed.

Lemma run_view_effect_message_deps (a : App) :
  message_deps (run_view_effect a) = message_deps a.
Proof.
  unfold run_view_effect. destruct (bool_decide _); [reflexivity|].
  pose proof (view_effect_spec a) as H. cbv zeta in H. apply H.
Qed.

Lemma render_settled (lastMessage : option string) (a : App) :
  pending_render a -> settled (render JSON_parse lastMessage a).
Proof.
  intros H. apply run_view_effect_settled.
  now apply run_message_effect_pending_render.
Qed.

Lemma render_message_deps (lastMessage : option string) (a : App) :
  message_deps (render JSON_parse lastMessage a) = lastMessage.
Proof.
  unfold render.
  now rewrite run_view_effect_message_deps, run_message_effect_deps.
Qed.

(** A render with nothing new to see changes nothing. *)
Lemma render_idle (a : App) :
  settled a -> render JSON_parse (message_deps a) a = a.
Proof.
  intros (_ & Hd & _). unfold render, run_message_effect.
  rewrite (bool_decide_eq_true_2 (message_deps a = message_deps a)) by reflexivity.
  unfold run_view_effect. now rewrite bool_decide_eq_true_2.
Qed.
End MessageEffectFacts.

(* ================================================================== *)
(** * The hook and the component together: invariants *)
(* ================================================================== *)

Section SystemFacts.
Variable url_ok : bool.
Variable JSON_parse : string -> option message.

(** A frame that makes the message effect do nothing only moves the
    effect's remembered dependency. *)
Lemma render_dropped (lastMessage : option string) (a : App) :
  settled a -> message_effect JSON_parse lastMessage a = a ->
  render JSON_parse lastMessage a = set_message_deps lastMessage a.
Proof.
  intros (_ & Hd & _) Hm. unfold render, run_message_effect.
  destruct (bool_decide (message_deps a = lastMessage)) eqn:E.
  - apply bool_decide_eq_true in E. unfold run_view_effect.
    rewrite bool_decide_eq_true_2 by exact Hd.
    destruct a; simpl in *; now subst.
  - rewrite Hm. unfold run_view_effect.
    rewrite bool_decide_eq_true_2 by exact Hd. reflexivity.
Qed.

(** A new [market_data] frame replaces the snapshots, and the view
    follows. *)
Lemma render_market_data (raw : string) (data : list Snapshot) (a : App) :
  settled a -> message_deps a <> Some raw -> raw <> EmptyString ->
  JSON_parse raw = Some (MValue (Some market_data) data) ->
  let a' := render JSON_parse (Some raw) a in
  contents a' (stocks a') = data /\ sortConfig a' = sortConfig a /\
  filterConfig a' = filterConfig a.
Proof.
  intros Hs Hne Hraw Hp a'.
  assert (Hm : message_effect JSON_parse (Some raw) a = setStocks data a).
  { unfold message_effect. rewrite process_message_cases, Hp.
    destruct raw; [contradiction|]. reflexivity. }
  subst a'. unfold render, run_message_effect.
  rewrite bool_decide_eq_false_2 by exact Hne. rewrite Hm.
  pose proof (setStocks_spec data a) as H. cbv zeta in H.
  destruct H as (Hst & Hc & Hn & Hf & Hsc & Hfc & Hd & _ & _).
  set (a1 := mkApp _ _ _ _ _ _ _).
  assert (Hdeps : view_deps a1 <> deps_of a1).
  { subst a1. unfold deps_of. cbn [view_deps stocks sortConfig filterConfig].
    rewrite Hd, Hst.
    destruct Hs as (Hb & _). unfold bounded in Hb.
    destruct (view_deps a) as [[d1 d2] d3]. simpl in Hb. intros E. inversion E. lia. }
  unfold run_view_effect. rewrite bool_decide_eq_false_2 by exact Hdeps.
  pose proof (view_effect_spec a1) as H. cbv zeta in H.
  destruct H as (Hs1 & Hsc1 & Hfc1 & _ & _ & _ & _ & _ & Hframe).
  rewrite Hs1, Hsc1, Hfc1. subst a1. cbn [stocks sortConfig filterConfig].
  split; [|split; assumption].
  rewrite Hframe by (cbn [store]; rewrite Hst, Hn; lia). exact Hc.
Qed.

Lemma step_unmounted_lastMessage (e : Event) (w : World) :
  mounted (step url_ok e w) = false ->
  lastMessage (hook (step url_ok e w)) = lastMessage (hook w).
Proof.
  destruct e; simpl;
    unfold onopen, onmessage, onclose, onerror, reconnect, connect, cleanup,
      setConnectionStatus, setLastMessage;
    repeat match goal with
      | |- context [match ?x with _ => _ end] => destruct x eqn:?; simpl
      end; try reflexivity; try congruence.
Qed.

Lemma step_message (id : nat) (raw : string) (w : World) :
  let w' := step url_ok (SockMessage id raw) w in
  connectionStatus (hook w') = connectionStatus (hook w) /\
  wsRef (hook w') = wsRef (hook w) /\
  reconnectTimeoutRef (hook w') = reconnectTimeoutRef (hook w) /\
  reconnectCountRef (hook w') = reconnectCountRef (hook w) /\
  browser w' = browser w /\ mounted w' = mounted w /\
  (lastMessage (hook w') = lastMessage (hook w) \/ lastMessage (hook w') = Some raw) /\
  (mounted w = true -> sockets (browser w) !! id = Some OPEN ->
   lastMessage (hook w') = Some raw).
Proof.
  simpl. unfold onmessage, setLastMessage.
  destruct (sockets (browser w) !! id) as [[]|]; destruct (mounted w) eqn:M;
    simpl; repeat split; auto; try congruence.
Qed.

Lemma sys_initial_inv : sys_inv (sys_initial url_ok).
Proof.
  split.
  - apply view_effect_settled. unfold bounded. simpl. lia.
  - unfold sys_initial, mount, connect. simpl.
    destruct url_ok; reflexivity.
Qed.

(** The two ways a handler of a mounted component ends. *)
Lemma sys_step_user_throws (u : UserEvent) (s : System) :
  mounted (world s) = true ->
  FilterControls_throws (obj_val (filterConfig (handle u (app s)))) = true ->
  sys_step url_ok JSON_parse (User u) s =
  mkSystem (step url_ok Unmount (world s)) (app s).
Proof. intros Hm Ht. unfold sys_step. now rewrite Hm, Ht. Qed.

Lemma sys_step_user_renders (u : UserEvent) (s : System) :
  mounted (world s) = true ->
  FilterControls_throws (obj_val (filterConfig (handle u (app s)))) = false ->
  sys_step url_ok JSON_parse (User u) s =
  mkSystem (world s)
           (render JSON_parse (lastMessage (hook (world s))) (handle u (app s))).
Proof. intros Hm Ht. unfold sys_step. now rewrite Hm, Ht. Qed.

Lemma unmount_mounted (w : World) : mounted (step url_ok Unmount w) = false.
Proof. simpl. destruct (mounted w) eqn:M; [reflexivity | exact M]. Qed.

Lemma sys_step_inv (i : Input) (s : System) : sys_inv s -> sys_inv (sys_step url_ok JSON_parse i s).
Proof.
  intros [Hs Hm]. destruct i as [e|u].
  - simpl. destruct (mounted (step url_ok e (world s))) eqn:M; split; simpl.
    + apply render_settled. now apply settled_pending_render.
    + apply render_message_deps.
    + exact Hs.
    + rewrite Hm. symmetry. now apply step_unmounted_lastMessage.
  - destruct (mounted (world s)) eqn:M;
      [|unfold sys_step; rewrite M; now split].
    destruct (FilterControls_throws (obj_val (filterConfig (handle u (app s))))) eqn:T.
    + rewrite (sys_step_user_throws u s M T). split; cbn [app world]; [exact Hs|].
      rewrite Hm. symmetry. apply step_unmounted_lastMessage, unmount_mounted.
    + rewrite (sys_step_user_renders u s M T). split; cbn [app world].
      * apply render_settled, handle_pending_render. now apply settled_pending_render.
      * apply render_message_deps.
Qed.

Lemma sys_run_inv (tr : list Input) (s : System) :
  sys_inv s -> sys_inv (sys_run url_ok JSON_parse tr s).
Proof.
  revert s. induction tr as [|i tr IH]; intros s H; simpl; [exact H|].
  apply IH. now apply sys_step_inv.
Qed.
End SystemFacts.

Lemma view_effect_filterConfig (a : App) : filterConfig (view_effect a) = filterConfig a.
Proof. pose proof (view_effect_spec a) as H. cbv zeta in H. apply H. Qed.

Lemma render_filterConfig (JSON_parse : string -> option message)
      (lastMessage : option string) (a : App) :
  filterConfig (render JSON_parse lastMessage a) = filterConfig a.
Proof.
  unfold render, run_view_effect.
  assert (H : filterConfig (run_message_effect JSON_parse lastMessage a) = filterConfig a).
  { unfold run_message_effect. destruct (bool_decide _); [reflexivity|].
    cbn [filterConfig].
    destruct (message_effect_cases JSON_parse lastMessage a)
      as [->|(raw & data & _ & _ & _ & ->)]; [reflexivity|].
    pose proof (setStocks_spec data a) as E. cbv zeta in E. apply E. }
  destruct (bool_decide _); [exact H|].
  now rewrite view_effect_filterConfig.
Qed.

(** No event mounts the component again. *)
Lemma step_mounted (url_ok : bool) (e : Event) (w : World) :
  mounted (step url_ok e w) = true -> mounted w = true.
Proof.
  destruct (mounted w) eqn:M; [reflexivity|].
  destruct e; simpl;
    unfold onopen, onmessage, onclose, onerror, reconnect, connect, cleanup,
      setConnectionStatus, setLastMessage;
    rewrite ?M;
    repeat match goal with
      | |- context [match ?x with _ => _ end] => destruct x eqn:?; simpl
      end; simpl; rewrite ?M; try congruence.
Qed.

(** While the component is mounted its filter configuration is one that
    [FilterControls] renders: the render after a host event does not
    throw. *)
Lemma sys_step_renders (url_ok : bool) (JSON_parse : string -> option message)
      (i : Input) (s : System) :
  (mounted (world s) = true ->
   FilterControls_throws (obj_val (filterConfig (app s))) = false) ->
  mounted (world (sys_step url_ok JSON_parse i s)) = true ->
  FilterControls_throws
    (obj_val (filterConfig (app (sys_step url_ok JSON_parse i s)))) = false.
Proof.
  intros H. destruct i as [e|u].
  - cbn [sys_step world app]. intros M. rewrite M, render_filterConfig.
    apply H. now apply step_mounted in M.
  - destruct (mounted (world s)) eqn:M;
      [|unfold sys_step; rewrite M; intros M'; congruence].
    destruct (FilterControls_throws (obj_val (filterConfig (handle u (app s))))) eqn:T.
    + rewrite (sys_step_user_throws url_ok JSON_parse u s M T). cbn [world].
      rewrite unmount_mounted. discriminate.
    + rewrite (sys_step_user_renders url_ok JSON_parse u s M T). cbn [world app].
      intros _. now rewrite render_filterConfig.
Qed.

Lemma sys_run_renders (url_ok : bool) (JSON_parse : string -> option message)
      (tr : list Input) :
  let s := sys_run url_ok JSON_parse tr (sys_initial url_ok) in
  mounted (world s) = true ->
  FilterControls_throws (obj_val (filterConfig (app s))) = false.
Proof.
  cbv zeta.
  assert (H : forall s,
            (mounted (world s) = true ->
             FilterControls_throws (obj_val (filterConfig (app s))) = false) ->
            mounted (world (sys_run url_ok JSON_parse tr s)) = true ->
            FilterControls_throws
              (obj_val (filterConfig (app (sys_run url_ok JSON_parse tr s)))) = false).
  { induction tr as [|i tr IH]; intros s Hs; simpl; [exact Hs|].
    apply IH. now apply sys_step_renders. }
  apply H. intros _. reflexivity.
Qed.

Lemma handle_page_size (u : UserEvent) (a : App) :
  offered (User u) = true -> page_size a -> page_size (handle u a).
Proof.
  unfold page_size. intros Ho Hp.
  destruct u as [k|[v|v]|[] values|]; simpl in *; auto.
  - repeat (apply orb_true_iff in Ho; destruct Ho as [Ho|Ho]);
      try discriminate Ho; apply Z.eqb_eq in Ho; subst v; auto 10.
Qed.

Lemma sys_run_page_size (url_ok : bool) (JSON_parse : string -> option message)
      (tr : list Input) (s : System) :
  forallb offered tr = true -> page_size (app s) ->
  page_size (app (sys_run url_ok JSON_parse tr s)).
Proof.
  revert s. induction tr as [|i tr IH]; intros s Htr Hs; simpl; [exact Hs|].
  simpl in Htr. apply andb_true_iff in Htr. destruct Htr as [Hi Htr].
  apply IH; [exact Htr|].
  destruct i as [e|u]; cbn [sys_step].
  - cbn [app]. destruct (mounted _); [|exact Hs].
    unfold page_size. now rewrite render_filterConfig.
  - destruct (mounted (world s)); [|exact Hs]. cbv zeta.
    destruct (FilterControls_throws _); cbn [app]; [exact Hs|].
    unfold page_size. rewrite render_filterConfig. now apply handle_page_size.
Qed.

Lemma page_size_nonneg (a : App) :
  page_size a -> 0 <= displayCount (obj_val (filterConfig a)).
Proof.
  unfold page_size, displayOptions. simpl. intros H.
  repeat (destruct H as [<-|H]; [lia|]). contradiction.
Qed.

(* ================================================================== *)
(** * The truncation step *)
(* ================================================================== *)

Lemma compute_prefix (stocks : list Snapshot) (fc : FilterConfig) (sc : SortConfig) :
  0 <= displayCount fc ->
  compute stocks fc sc =
    firstn (Z.to_nat (displayCount fc)) (sort_step sc (filter_step fc stocks)) /\
  Z.of_nat (length (compute stocks fc sc)) =
    Z.min (displayCount fc) (Z.of_nat (length (filter_step fc stocks))).
Proof.
  intros Hn.
  assert (Hc : compute stocks fc sc =
               firstn (Z.to_nat (displayCount fc)) (sort_step sc (filter_step fc stocks))).
  { unfold compute, truncate_step. now apply array_slice_prefix. }
  split; [exact Hc|].
  rewrite Hc, length_firstn. unfold sort_step. rewrite array_sort_length. lia.
Qed.

(** C6.  For a display count that is not negative, the view is the first
    [displayCount] entries of the sorted, filtered list; its length is the
    smaller of [displayCount] and the number of snapshots that pass the
    filter; no entry kept ranks after an entry dropped; and with 100
    snapshots passing and [displayCount = 20] the view has 20 entries.  In
    every state the controls can reach the display count is one of the page
    sizes, so the table shows exactly that prefix. *)
Theorem compute_truncates :
  (forall (stocks : list Snapshot) (fc : FilterConfig) (sc : SortConfig),
     0 <= displayCount fc ->
     let sorted := sort_step sc (filter_step fc stocks) in
     let n := Z.to_nat (displayCount fc) in
     compute stocks fc sc = firstn n sorted /\
     Z.of_nat (length (compute stocks fc sc)) =
       Z.min (displayCount fc) (Z.of_nat (length (filter_step fc stocks))) /\
     (forall x y, In x (compute stocks fc sc) -> In y (skipn n sorted) ->
                  comparator sc x y <= 0) /\
     (length (filter_step fc stocks) = 100%nat -> displayCount fc = 20 ->
      length (compute stocks fc sc) = 20%nat /\
      compute stocks fc sc = firstn 20 sorted)) /\
  (forall (url_ok : bool) (JSON_parse : string -> option message) (tr : list Input),
     forallb offered tr = true ->
     let s := sys_run url_ok JSON_parse tr (sys_initial url_ok) in
     let fc := obj_val (filterConfig (app s)) in
     let sc := obj_val (sortConfig (app s)) in
     In (displayCount fc) displayOptions /\
     view s = firstn (Z.to_nat (displayCount fc))
                     (sort_step sc (filter_step fc (current s))) /\
     Z.of_nat (length (view s)) =
       Z.min (displayCount fc) (Z.of_nat (length (filter_step fc (current s))))).
Proof.
  split.
  - intros stocks fc sc Hn sorted n.
    destruct (compute_prefix stocks fc sc Hn) as [Hc Hlen].
    split; [exact Hc|]. split; [exact Hlen|]. split.
    + intros x y Hx Hy. rewrite Hc in Hx.
      apply (ordered_split (comparator sc) n sorted); auto.
      apply sort_step_ordered.
    + intros H100 H20. rewrite Hc. subst n. rewrite H20.
      change (Z.to_nat 20) with 20%nat. split; [|reflexivity].
      rewrite length_firstn. subst sorted. unfold sort_step.
      rewrite array_sort_length, H100. reflexivity.
  - intros url_ok JSON_parse tr Htr s fc sc.
    assert (Hp : page_size (app s)).
    { apply sys_run_page_size; [exact Htr|]. unfold page_size. simpl. auto. }
    assert (Hinv : sys_inv s) by apply sys_run_inv, sys_initial_inv.
    destruct Hinv as [(_ & _ & Hc) _]. unfold consistent in Hc.
    fold (view s) (current s) in Hc. fold fc sc in Hc.
    destruct (compute_prefix (current s) fc sc (page_size_nonneg _ Hp)) as [E1 E2].
    split; [exact Hp|]. rewrite Hc. split; assumption.
Qed.

(* ================================================================== *)
(** * Inbound frames *)
(* ================================================================== *)

(** C3.  In every reachable state, a frame whose payload does not parse is
    dropped: the message effect returns normally with the state it was
    given, the snapshots (reference and contents), the store and the view
    stay as they were, and so do the connection status, the refs, the
    sockets and the timers (nothing is closed).  The stream goes on: a
    [market_data] frame delivered next on the open socket replaces the
    snapshots. *)
Theorem malformed_frame_dropped
        (url_ok : bool) (JSON_parse : string -> option message)
        (tr : list Input) (id : nat) (raw : string) :
  JSON_parse raw = None ->
  let s := sys_run url_ok JSON_parse tr (sys_initial url_ok) in
  let s' := sys_step url_ok JSON_parse (Host (SockMessage id raw)) s in
  process_message JSON_parse (Some raw) (app s) = Ok (app s) /\
  (stocks (app s') = stocks (app s) /\ store (app s') = store (app s) /\
   current s' = current s /\ view s' = view s) /\
  (connectionStatus (hook (world s')) = connectionStatus (hook (world s)) /\
   wsRef (hook (world s')) = wsRef (hook (world s)) /\
   reconnectTimeoutRef (hook (world s')) = reconnectTimeoutRef (hook (world s)) /\
   reconnectCountRef (hook (world s')) = reconnectCountRef (hook (world s)) /\
   browser (world s') = browser (world s) /\
   mounted (world s') = mounted (world s)) /\
  (forall raw2 data,
     raw2 <> EmptyString ->
     JSON_parse raw2 = Some (MValue (Some market_data) data) ->
     mounted (world s) = true ->
     sockets (browser (world s)) !! id = Some OPEN ->
     current (sys_step url_ok JSON_parse (Host (SockMessage id raw2)) s') = data).
Proof.
  intros Hp s s'.
  assert (Hinv : sys_inv s) by apply sys_run_inv, sys_initial_inv.
  destruct Hinv as [Hs Hm].
  assert (Hdrop : forall a, message_effect JSON_parse (Some raw) a = a).
  { intros a. unfold message_effect. rewrite process_message_cases, Hp.
    now destruct (truthy (Some raw)). }
  pose proof (step_message url_ok id raw (world s)) as Hw. cbv zeta in Hw.
  destruct Hw as (W1 & W2 & W3 & W4 & W5 & W6 & W7 & W8).
  assert (Happ : exists lm, app s' = set_message_deps lm (app s)).
  { subst s'. cbn [sys_step app world]. destruct (mounted _).
    - destruct W7 as [E|E]; rewrite E.
      + exists (message_deps (app s)). rewrite <- Hm.
        rewrite render_idle by exact Hs. now destruct (app s).
      + exists (Some raw). apply render_dropped; [exact Hs | apply Hdrop].
    - exists (message_deps (app s)). now destruct (app s). }
  destruct Happ as [lm Happ].
  split; [|split; [|split]].
  - rewrite process_message_returns. now rewrite Hdrop.
  - unfold current, view. rewrite Happ. repeat split.
  - repeat split; assumption.
  - intros raw2 data Hraw2 Hp2 Hmt Hopen.
    assert (Hinv' : sys_inv s') by (apply sys_step_inv; now split).
    destruct Hinv' as [Hs' Hm'].
    assert (Hlm : lastMessage (hook (world s')) = Some raw) by now apply W8.
    pose proof (step_message url_ok id raw2 (world s')) as Hw2. cbv zeta in Hw2.
    destruct Hw2 as (_ & _ & _ & _ & _ & V6 & _ & V8).
    assert (Hmt' : mounted (world s') = true)
      by (subst s'; cbn [sys_step app world]; congruence).
    assert (Hopen' : sockets (browser (world s')) !! id = Some OPEN)
      by (subst s'; cbn [sys_step app world]; now rewrite W5).
    unfold current. cbn [sys_step app world]. rewrite V6, Hmt', (V8 Hmt' Hopen').
    apply render_market_data; auto.
    rewrite Hm', Hlm. intros E. inversion E. subst raw2. congruence.
Qed.

(** C10.  In every reachable state, a frame that parses to anything but
    a value whose [type] is ['market_data'] (so also ['market_status'],
    ['error'], a missing type, [null]) leaves the snapshots as they were;
    a new [market_data] frame on the open socket replaces them with its
    [data]. *)
Theorem only_market_data_replaces_stocks
        (url_ok : bool) (JSON_parse : string -> option message)
        (tr : list Input) (id : nat) (raw : string) :
  let s := sys_run url_ok JSON_parse tr (sys_initial url_ok) in
  let s' := sys_step url_ok JSON_parse (Host (SockMessage id raw)) s in
  (forall m, JSON_parse raw = Some m ->
     (forall data, m <> MValue (Some market_data) data) ->
     stocks (app s') = stocks (app s) /\ store (app s') = store (app s) /\
     current s' = current s) /\
  (forall t data, t = "market_status"%string \/ t = "error"%string ->
     JSON_parse raw = Some (MValue (Some t) data) ->
     stocks (app s') = stocks (app s) /\ store (app s') = store (app s) /\
     current s' = current s) /\
  (forall data, JSON_parse raw = Some (MValue (Some market_data) data) ->
     raw <> EmptyString -> lastMessage (hook (world s)) <> Some raw ->
     mounted (world s) = true -> sockets (browser (world s)) !! id = Some OPEN ->
     current s' = data).
Proof.
  intros s s'.
  assert (Hinv : sys_inv s) by apply sys_run_inv, sys_initial_inv.
  destruct Hinv as [Hs Hm].
  pose proof (step_message url_ok id raw (world s)) as Hw. cbv zeta in Hw.
  destruct Hw as (_ & _ & _ & _ & _ & W6 & W7 & W8).
  assert (Hkeep : forall m, JSON_parse raw = Some m ->
     (forall data, m <> MValue (Some market_data) data) ->
     stocks (app s') = stocks (app s) /\ store (app s') = store (app s) /\
     current s' = current s).
  { intros m Hp Hty.
    assert (Hdrop : message_effect JSON_parse (Some raw) (app s) = app s).
    { destruct (message_effect_cases JSON_parse (Some raw) (app s))
        as [E|(raw' & data & E1 & _ & E2 & _)]; [exact E|].
      inversion E1. subst raw'. rewrite Hp in E2. inversion E2. now destruct (Hty data). }
    assert (Happ : exists lm, app s' = set_message_deps lm (app s)).
    { subst s'. cbn [sys_step app world]. destruct (mounted _).
      - destruct W7 as [E|E]; rewrite E.
        + exists (message_deps (app s)). rewrite <- Hm.
          rewrite render_idle by exact Hs. now destruct (app s).
        + exists (Some raw). now apply render_dropped.
      - exists (message_deps (app s)). now destruct (app s). }
    destruct Happ as [lm Happ]. unfold current. rewrite Happ. repeat split. }
  split; [exact Hkeep|]. split.
  - intros t data Ht Hp. apply (Hkeep _ Hp). intros data' E.
    inversion E. destruct Ht; subst t; discriminate.
  - intros data Hp Hraw Hlm Hmt Hopen. unfold current. subst s'.
    cbn [sys_step app world]. rewrite W6, Hmt, (W8 Hmt Hopen).
    apply render_market_data; auto. now rewrite Hm.
Qed.

(* ================================================================== *)
(** * The derived view as a whole *)
(* ================================================================== *)


(* ================================================================== *)
(** * Reconnection *)
(* ================================================================== *)

Lemma closed_lookup (l : list ReadyState) (i : nat) (r : ReadyState) :
  Forall (eq CLOSED) l -> l !! i = Some r -> r = CLOSED.
Proof.
  intros H E. rewrite Forall_lookup in H. symmetry. now apply (H i).
Qed.

Lemma live_lookup (l : list ReadyState) (st r : ReadyState) (i : nat) :
  Forall (eq CLOSED) l -> (l ++ [st]) !! i = Some r -> r <> CLOSED ->
  i = length l /\ r = st.
Proof.
  intros H E Hr. apply lookup_snoc_Some in E.
  destruct E as [[_ E]|[-> ->]]; [|now split].
  now apply (closed_lookup l i r H) in E.
Qed.

Lemma insert_last (l : list ReadyState) (st r : ReadyState) :
  <[ length l := r ]> (l ++ [st]) = l ++ [r].
Proof.
  replace (length l) with (length l + 0)%nat by lia.
  now rewrite insert_app_r.
Qed.

Lemma timeouts_snoc (base : list Z) (k : nat) :
  (base ++ List.map backoff (seq 0 k)) ++ [backoff k] =
  base ++ List.map backoff (seq 0 (S k)).
Proof.
  rewrite seq_S, List.map_app, app_assoc. reflexivity.
Qed.

Lemma timeouts_length (base : list Z) (k : nat) :
  length (base ++ List.map backoff (seq 0 k)) = (length base + k)%nat.
Proof. now rewrite length_app, length_map, length_seq. Qed.

Section TransportFacts.
Variable url_ok : bool.

(** A disconnect while a socket is up: the delay is that of the count,
    and the reconnect waits. *)
Lemma close_up (base : list Z) (k : nat) (w : World) (id : nat) (r : ReadyState) :
  up base k w -> sockets (browser w) !! id = Some r -> r <> CLOSED ->
  waiting base k (onclose (set_readyState id CLOSED w)) /\
  timeouts (browser (onclose (set_readyState id CLOSED w))) =
    timeouts (browser w) ++ [backoff k].
Proof.
  intros (l & st & Hs & Hl & Hst & Hws & Hp & Ht & Hc) E Hr.
  rewrite Hs in E. destruct (live_lookup l st r id Hl E Hr) as [-> ->].
  destruct w as [[lm cs ws rt rc] [socks tos pend] m]. simpl in *. subst.
  unfold onclose, setConnectionStatus, setTimeout, set_readyState,
    set_reconnectTimeoutRef, set_hook, set_browser.
  destruct m; simpl;
    change (Z.min (1000 * 2 ^ Z.of_nat k) 30000) with (backoff k);
    rewrite insert_last, timeouts_length;
    (split; [|reflexivity]); rewrite timeouts_snoc; unfold waiting; simpl;
    (split; [apply Forall_app; split; [exact Hl | now repeat constructor]|]);
    (split; [now rewrite (right_id_L ∅ (∪))|]); split; reflexivity.
Qed.

(** The timer of a waiting reconnect fires. *)
Lemma fire_waiting (base : list Z) (k : nat) (w : World) :
  waiting base k w ->
  let w' := reconnect url_ok (clearTimeout (length base + k) w) in
  (url_ok = true -> up base (S k) w') /\ (url_ok = false -> down base (S k) w').
Proof.
  intros (Hl & Hp & Ht & Hc).
  destruct w as [[lm cs ws rt rc] [socks tos pend] m]. simpl in *. subst.
  unfold reconnect, connect, clearTimeout, set_reconnectCountRef, new_WebSocket,
    set_wsRef, setConnectionStatus, set_hook, set_browser. simpl.
  rewrite difference_diag_L.
  destruct url_ok; simpl; (split; intros U; [|]); try discriminate U.
  - exists socks, CONNECTING. simpl. repeat split; auto; try discriminate. lia.
  - destruct m; simpl; repeat split; auto.
Qed.

Lemma phase_same (base : list Z) (w w' : World) :
  same_transport w w' -> phase base w -> phase base w'.
Proof.
  intros (Hb & Hw & Hc) [k H]. exists k.
  unfold up, waiting, down in *. rewrite Hb, Hw, Hc. exact H.
Qed.

Lemma setConnectionStatus_same (c : ConnectionStatus) (w : World) :
  same_transport w (setConnectionStatus c w).
Proof. unfold setConnectionStatus. destruct (mounted w); repeat split. Qed.

Lemma setLastMessage_same (m : string) (w : World) :
  same_transport w (setLastMessage m w).
Proof. unfold setLastMessage. destruct (mounted w); repeat split. Qed.

(** The peer starts closing the socket that is up: it stays the one socket
    that is not closed. *)
Lemma peer_closing_up (base : list Z) (k : nat) (w : World) (id : nat) :
  up base k w -> sockets (browser w) !! id = Some OPEN ->
  up base k (set_readyState id CLOSING w).
Proof.
  intros (l & st & Hs & Hl & Hst & Hws & Hp & Ht & Hc) E.
  rewrite Hs in E. destruct (live_lookup l st OPEN id Hl E) as [-> <-]; [discriminate|].
  exists l, CLOSING. unfold set_readyState, set_browser. simpl.
  rewrite Hs, insert_last. repeat split; auto; discriminate.
Qed.

Lemma peer_closing_phase (base : list Z) (id : nat) (w : World) :
  phase base w -> phase base (step url_ok (PeerClosing id) w).
Proof.
  intros H. simpl. destruct (sockets (browser w) !! id) as [r|] eqn:E; [|exact H].
  destruct r; try exact H. destruct H as [k [Hup|[Hw|Hd]]].
  - exists k. left. now apply peer_closing_up.
  - destruct Hw as (Hl & _). now apply (closed_lookup _ _ _ Hl) in E.
  - destruct Hd as (Hl & _). now apply (closed_lookup _ _ _ Hl) in E.
Qed.

Lemma step_phase_quiet (base : list Z) (e : Event) (w : World) :
  phase base w -> quiet e = true -> phase base (step url_ok e w).
Proof.
  intros H Hq. destruct e as [id|id data|id|id|t| |id]; try discriminate Hq;
    [| | | |exact (peer_closing_phase base id w H)]; simpl.
  - destruct (sockets (browser w) !! id) as [[]|]; try exact H;
      apply (phase_same base w); auto; apply setLastMessage_same.
  - destruct (sockets (browser w) !! id) as [r|] eqn:E; [|exact H].
    assert (Hr : r <> CLOSED -> phase base (onclose (set_readyState id CLOSED w))).
    { intros Hr. destruct H as [k [Hup|[Hw|Hd]]].
      - exists k. right. left. now apply (close_up base k w id r).
      - destruct Hw as (Hl & _). now apply (closed_lookup _ _ _ Hl) in E.
      - destruct Hd as (Hl & _). now apply (closed_lookup _ _ _ Hl) in E. }
    destruct r; try exact H; now apply Hr.
  - destruct (sockets (browser w) !! id) as [[]|]; try exact H;
      apply (phase_same base w); auto; apply setConnectionStatus_same.
  - destruct (bool_decide (t ∈ pending (browser w))) eqn:E; [|exact H].
    apply bool_decide_eq_true in E. destruct H as [k [Hup|[Hw|Hd]]].
    + destruct Hup as (l & st & _ & _ & _ & _ & Hp & _). rewrite Hp in E. set_solver.
    + assert (Ht : t = (length base + k)%nat).
      { destruct Hw as (_ & Hp & _). rewrite Hp in E. set_solver. }
      subst t. destruct (fire_waiting base k w Hw) as [Hu Hd].
      exists (S k). destruct url_ok; [left | right; right]; auto.
    + destruct Hd as (_ & Hp & _). rewrite Hp in E. set_solver.
Qed.

Lemma run_phase_quiet (base : list Z) (tr : list Event) (w : World) :
  phase base w -> forallb quiet tr = true -> phase base (run url_ok tr w).
Proof.
  revert w. induction tr as [|e tr IH]; intros w H Hq; simpl; [exact H|].
  simpl in Hq. apply andb_true_iff in Hq. destruct Hq as [He Htr].
  apply IH; [|exact Htr]. now apply step_phase_quiet.
Qed.

Lemma calm_up (w : World) : calm w = true -> up (timeouts (browser w)) 0 w.
Proof.
  unfold calm. destruct (wsRef (hook w)) as [id|] eqn:Hws; [|discriminate].
  destruct (sockets (browser w) !! id) as [st|] eqn:Hst;
    rewrite ?andb_false_r; try discriminate.
  rewrite !andb_true_iff. intros ((((Hlen & Hall) & Hlive) & Hp) & Hc).
  apply bool_decide_eq_true in Hlen, Hp. apply Z.eqb_eq in Hc.
  exists (firstn id (sockets (browser w))), st.
  assert (Hid : length (firstn id (sockets (browser w))) = id)
    by (rewrite length_firstn; lia).
  repeat split.
  - rewrite <- (take_S_r _ _ _ Hst). symmetry. apply take_ge. lia.
  - apply Forall_forall. intros r Hr. rewrite forallb_forall in Hall.
    apply list_elem_of_In, Hall in Hr. now destruct r.
  - intros ->. discriminate Hlive.
  - now rewrite Hid.
  - exact Hp.
  - simpl. now rewrite app_nil_r.
  - exact Hc.
Qed.

(** A successful connect brings the hook back to the calm state. *)
Lemma open_calm (base : list Z) (id : nat) (w : World) :
  phase base w -> sockets (browser w) !! id = Some CONNECTING ->
  calm (step url_ok (SockOpen id) w) = true.
Proof.
  intros [k H] E. simpl. rewrite E.
  destruct H as [Hup|[Hw|Hd]].
  - destruct Hup as (l & st & Hs & Hl & Hst & Hws & Hp & Ht & Hc).
    rewrite Hs in E. destruct (live_lookup l st CONNECTING id Hl E) as [-> <-];
      [discriminate|].
    destruct w as [[lm cs ws rt rc] [socks tos pend] m]. simpl in *. subst.
    unfold onopen, setConnectionStatus, set_readyState, set_reconnectCountRef,
      set_hook, set_browser, calm.
    assert (Hall : forallb is_closed l = true).
    { apply forallb_forall. intros r Hr. rewrite Forall_forall in Hl.
      apply list_elem_of_In, Hl in Hr. now subst r. }
    destruct m; simpl; rewrite insert_last, length_app, firstn_app, Nat.sub_diag,
      firstn_all, app_nil_r, Hall, list_lookup_middle by reflexivity; simpl;
      rewrite !bool_decide_eq_true_2 by (reflexivity || lia); reflexivity.
  - destruct Hw as (Hl & _). now apply (closed_lookup _ _ _ Hl) in E.
  - destruct Hd as (Hl & _). now apply (closed_lookup _ _ _ Hl) in E.
Qed.

Lemma step_phase (e : Event) (w : World) :
  (exists base, phase base w) -> not_unmount e = true ->
  exists base, phase base (step url_ok e w).
Proof.
  intros [base H] He. destruct (quiet e) eqn:Hq.
  - exists base. now apply step_phase_quiet.
  - destruct e as [id| | | | | |]; try discriminate.
    destruct (sockets (browser w) !! id) as [r|] eqn:E.
    + destruct r; try (exists base; simpl; rewrite E; exact H).
      exists (timeouts (browser (step url_ok (SockOpen id) w))), 0%nat. left.
      apply calm_up. now apply (open_calm base).
    + exists base. simpl. rewrite E. exact H.
Qed.

Lemma run_phase (tr : list Event) (w : World) :
  (exists base, phase base w) -> forallb not_unmount tr = true ->
  exists base, phase base (run url_ok tr w).
Proof.
  revert w. induction tr as [|e tr IH]; intros w H Hq; simpl; [exact H|].
  simpl in Hq. apply andb_true_iff in Hq. destruct Hq as [He Htr].
  apply IH; [|exact Htr]. now apply step_phase.
Qed.

Lemma mount_phase : phase [] (mount url_ok).
Proof.
  exists 0%nat. unfold mount, connect, initial.
  destruct url_ok; simpl.
  - left. exists [], CONNECTING. repeat split; auto; discriminate.
  - right. right. repeat split; auto.
Qed.

Lemma disconnect_round_up (base : list Z) (k : nat) (w : World) :
  url_ok = true -> up base k w ->
  up base (S k) (disconnect_round url_ok w) /\
  timeouts (browser (disconnect_round url_ok w)) =
    timeouts (browser w) ++ [backoff k].
Proof.
  intros Hurl Hup. pose proof Hup as (l & st & Hs & Hl & Hst & Hws & Hp & Ht & Hc).
  unfold disconnect_round. rewrite Hws.
  assert (E : sockets (browser w) !! length l = Some st)
    by (rewrite Hs; now apply list_lookup_middle).
  destruct (close_up base k w (length l) st Hup E Hst) as [Hw Htw].
  assert (Hstep : step url_ok (SockClose (length l)) w =
                  onclose (set_readyState (length l) CLOSED w)).
  { simpl. rewrite E. destruct st; try reflexivity. now destruct Hst. }
  rewrite Hstep. rewrite Ht, timeouts_length.
  destruct (fire_waiting base k _ Hw) as [Hf _]. specialize (Hf Hurl).
  assert (Hfire : step url_ok (TimerFire (length base + k))
                       (onclose (set_readyState (length l) CLOSED w)) =
                  reconnect url_ok (clearTimeout (length base + k)
                       (onclose (set_readyState (length l) CLOSED w)))).
  { cbn [step]. destruct Hw as (_ & Hpw & _). rewrite Hpw.
    rewrite bool_decide_eq_true_2 by set_solver. reflexivity. }
  rewrite Hfire. split; [exact Hf|].
  destruct Hf as (l' & st' & _ & _ & _ & _ & _ & Htf & _).
  rewrite Htf, <- timeouts_snoc. reflexivity.
Qed.

Lemma disconnect_rounds (base : list Z) (n k : nat) (w : World) :
  url_ok = true -> up base k w ->
  up base (k + n) (Nat.iter n (disconnect_round url_ok) w).
Proof.
  intros Hurl. induction n as [|n IH]; intros Hup; simpl.
  - now rewrite Nat.add_0_r.
  - rewrite Nat.add_succ_r. apply disconnect_round_up; [exact Hurl|]. now apply IH.
Qed.
End TransportFacts.

Section Leak.
Variable url_ok : bool.

(** The cleanup leaves the hook with a socket that is not closed and
    handlers that still run: the situation [up]. *)
Lemma unmount_up (base : list Z) (k : nat) (w : World) :
  up base k w -> up base k (step url_ok Unmount w).
Proof.
  intros Hup. pose proof Hup as (l & st & Hs & Hl & Hst & Hws & Hp & Ht & Hc).
  simpl. destruct (mounted w) eqn:M; [|exact Hup].
  assert (E : sockets (browser w) !! length l = Some st)
    by (rewrite Hs; now apply list_lookup_middle).
  destruct w as [[lm cs ws rt rc] [socks tos pend] m]. simpl in *. subst.
  unfold cleanup, socket_close, clearTimeout, set_browser. simpl. rewrite E.
  exists l, (match st with CONNECTING | OPEN => CLOSING | _ => st end).
  destruct st, rt; simpl; rewrite ?insert_last, ?empty_difference_L;
    repeat split; auto; try discriminate; now destruct Hst.
Qed.

(** So the retries go on after the teardown as they did before it. *)
Lemma teardown_keeps_retrying (w : World) (n : nat) :
  url_ok = true -> calm w = true ->
  timeouts (browser (Nat.iter n (disconnect_round url_ok) (step url_ok Unmount w))) =
  timeouts (browser w) ++ List.map backoff (seq 0 n).
Proof.
  intros Hurl Hc.
  pose proof (disconnect_rounds url_ok (timeouts (browser w)) n 0
                (step url_ok Unmount w) Hurl (unmount_up _ _ _ (calm_up w Hc)))
    as (l & st & _ & _ & _ & _ & _ & Ht & _).
  exact Ht.
Qed.
End Leak.

Lemma backoff_capped (n : nat) : (5 <= n)%nat -> backoff n = 30000.
Proof.
  intros H. unfold backoff.
  assert (2 ^ 5 <= 2 ^ Z.of_nat n) by (apply Z.pow_le_mono_r; lia).
  change (2 ^ 5) with 32 in *. lia.
Qed.

(** C1.  From a calm state (just mounted, or just connected), whatever
    the host does short of a successful connect or the teardown, the delays
    the hook hands to [setTimeout] are the first [k] terms of
    [min(1000 * 2^n, 30000)], [n = 0, 1, ...]; [n] failed attempts in a row
    yield exactly the first [n] terms; in seconds the terms are 1, 2, 4, 8,
    16, 30, 30, 30 and 30 from then on; and a successful connect, in any
    state reached without teardown, sets the retry counter to 0 and makes
    the state calm again, so the next delay is 1000 ms. *)
Theorem reconnect_delays_back_off (url_ok : bool) :
  (forall w tr, calm w = true -> forallb quiet tr = true ->
     exists k, timeouts (browser (run url_ok tr w)) =
               timeouts (browser w) ++ List.map backoff (seq 0 k)) /\
  (forall w n, calm w = true -> url_ok = true ->
     timeouts (browser (Nat.iter n (disconnect_round url_ok) w)) =
     timeouts (browser w) ++ List.map backoff (seq 0 n)) /\
  List.map (fun d => d / 1000) (List.map backoff (seq 0 8)) =
    [1; 2; 4; 8; 16; 30; 30; 30] /\
  (forall n, (5 <= n)%nat -> backoff n = 30000) /\
  (forall tr id, forallb not_unmount tr = true ->
     let w := run url_ok tr (mount url_ok) in
     sockets (browser w) !! id = Some CONNECTING ->
     let w' := step url_ok (SockOpen id) w in
     reconnectCountRef (hook w') = 0 /\ calm w' = true /\
     timeouts (browser (step url_ok (SockClose id) w')) =
       timeouts (browser w') ++ [1000]).
Proof.
  split; [|split; [|split; [|split]]].
  - intros w tr Hc Hq.
    assert (H : phase (timeouts (browser w)) (run url_ok tr w)).
    { apply run_phase_quiet; [|exact Hq]. exists 0%nat. left. now apply calm_up. }
    destruct H as [k [Hup|[Hw|Hd]]].
    + destruct Hup as (l & st & _ & _ & _ & _ & _ & Ht & _). now exists k.
    + destruct Hw as (_ & _ & Ht & _). now exists (S k).
    + destruct Hd as (_ & _ & Ht). now exists k.
  - intros w n Hc Hurl.
    pose proof (disconnect_rounds url_ok (timeouts (browser w)) n 0 w Hurl (calm_up w Hc))
      as (l & st & _ & _ & _ & _ & _ & Ht & _).
    exact Ht.
  - reflexivity.
  - apply backoff_capped.
  - intros tr id Htr w Hid w'.
    destruct (run_phase url_ok tr (mount url_ok)) as [base Hph];
      [exists []; apply mount_phase | exact Htr |].
    fold w in Hph.
    assert (Hcalm : calm w' = true) by now apply (open_calm url_ok base).
    pose proof (calm_up w' Hcalm) as Hup.
    assert (Hopen : sockets (browser w') !! id = Some OPEN).
    { subst w'. simpl. rewrite Hid. unfold onopen, setConnectionStatus.
      destruct (mounted _); simpl; apply list_lookup_insert_eq;
        now apply lookup_lt_Some in Hid. }
    split; [|split; [exact Hcalm|]].
    + now destruct Hup as (l & st & _ & _ & _ & _ & _ & _ & Hc).
    + destruct (close_up _ 0 w' id OPEN Hup Hopen) as [_ Ht]; [discriminate|].
      simpl. rewrite Hopen. exact Ht.
Qed.

(** C2, what the code does.  The cleanup closes the open socket and has
    no timer left to clear; the handlers stay attached, so the [close] event
    of that socket still runs [onclose], which sets a new timer, and the
    timer constructs a new socket although the component is unmounted.  When
    the socket had already closed, the cleanup clears the pending timer and
    nothing follows. *)
Theorem teardown_leaks_reconnect :
  let torn := run true [SockOpen 0%nat; Unmount] (mount true) in
  let later := run true [SockClose 0%nat; TimerFire 0%nat] torn in
  let waiting_torn := run true [SockClose 0%nat; Unmount; TimerFire 0%nat] (mount true) in
  (mounted torn = false /\ sockets (browser torn) = [CLOSING] /\
   elements (pending (browser torn)) = []) /\
  (sockets (browser later) = [CLOSED; CONNECTING] /\
   timeouts (browser later) = [1000] /\
   wsRef (hook later) = Some 1%nat) /\
  (sockets (browser waiting_torn) = [CLOSED] /\
   elements (pending (browser waiting_torn)) = []).
Proof. vm_compute. repeat split. Qed.

(* ================================================================== *)
(** * Instances *)
(* ================================================================== *)

Lemma reconnect_delays_back_off_witness :
  timeouts (browser (Nat.iter 6 (disconnect_round true) (mount true))) =
  [1000; 2000; 4000; 8000; 16000; 30000].
Proof.
  destruct (reconnect_delays_back_off true) as (_ & H & _).
  exact (H (mount true) 6%nat eq_refl eq_refl).
Defined.

Lemma malformed_frame_dropped_witness :
  current (sys_step true four_frames (Host (SockMessage 0%nat "{bad"))
             (sys_run true four_frames connected_and_fed (sys_initial true))) =
  [AAA; BBB; CCC].
Proof.
  pose proof (malformed_frame_dropped true four_frames connected_and_fed 0%nat
                "{bad" eq_refl) as H.
  cbv zeta in H. destruct H as (_ & (_ & _ & H & _) & _).
  rewrite H. vm_compute. reflexivity.
Defined.

Lemma filter_step_retains_witness :
  In AAA (filter_step ceiling10 [AAA; BBB; CCC]) /\
  ~ In BBB (filter_step ceiling10 [AAA; BBB; CCC]).
Proof.
  destruct (filter_step_retains [AAA; BBB; CCC] ceiling10) as (_ & Hin & Hout & _).
  split.
  - apply (Hin AAA 10%Q eq_refl); [reflexivity|].
    unfold in_range, at_least, at_most, Qle. simpl. repeat split; auto; lia.
  - apply (Hout BBB 10%Q eq_refl). reflexivity.
Defined.

Lemma sort_step_stable_witness :
  List.filter (fun y => comparator default_sortConfig AAA y =? 0)
              (sort_step default_sortConfig [AAA; CCC; BBB]) = [AAA; BBB].
Proof.
  destruct (sort_step_stable default_sortConfig [AAA; CCC; BBB]) as (H & _).
  rewrite (H AAA). reflexivity.
Defined.

Lemma compute_truncates_witness :
  compute [AAA; BBB; CCC] first_two default_sortConfig = [CCC; AAA] /\
  Z.of_nat (length (compute [AAA; BBB; CCC] first_two default_sortConfig)) = Z.min 2 3 /\
  length (filter_step first_twenty hundred_rows) = 100%nat /\
  length (compute hundred_rows first_twenty default_sortConfig) = 20%nat.
Proof.
  destruct compute_truncates as [Hpure _].
  pose proof (Hpure [AAA; BBB; CCC] first_two default_sortConfig) as H.
  pose proof (Hpure hundred_rows first_twenty default_sortConfig) as H'.
  cbv zeta in H, H'.
  destruct H as (Hc & Hlen & _); [simpl; lia|].
  destruct H' as (_ & _ & _ & H100); [simpl; lia|].
  assert (Hpass : length (filter_step first_twenty hundred_rows) = 100%nat)
    by (vm_compute; reflexivity).
  split; [rewrite Hc; vm_compute; reflexivity|].
  split; [exact Hlen|]. split; [exact Hpass|].
  exact (proj1 (H100 Hpass eq_refl)).
Defined.


Lemma compute_inverted_range_empty_witness :
  compute [AAA; BBB; CCC] inverted default_sortConfig = [].
Proof.
  apply compute_inverted_range_empty. left. reflexivity.
Defined.


Lemma only_market_data_replaces_stocks_witness :
  current (sys_step true four_frames (Host (SockMessage 0%nat "status"))
             (sys_run true four_frames connected_and_fed (sys_initial true))) =
  [AAA; BBB; CCC].
Proof.
  pose proof (only_market_data_replaces_stocks true four_frames connected_and_fed
                0%nat "status") as H.
  cbv zeta in H. destruct H as (_ & H & _).
  destruct (H "market_status"%string [] (or_introl eq_refl) eq_refl) as (_ & _ & Hc).
  rewrite Hc. vm_compute. reflexivity.
Defined.

(** The view of three rows under a price ceiling of 10 and a page of 2, by
    trade count, descending. *)
Example compute_ceiling10 :
  compute [AAA; BBB; CCC] ceiling10 default_sortConfig = [CCC; AAA].
Proof. vm_compute. reflexivity. Qed.

(** A negative end index of [slice] counts from the end of the array. *)
Example array_slice_negative_end : array_slice 0 (-1) [AAA; BBB; CCC] = [AAA; BBB].
Proof. reflexivity. Qed.

(** The range sliders hand [handleRangeChange] a one-element array, which
    leaves the maximum [undefined]; no price is at most [undefined]. *)
Example one_element_range :
  let s := sys_run true four_frames
             (connected_and_fed ++ [User (HandleRangeChange Price [5%Q])])
             (sys_initial true) in
  maxPrice (obj_val (filterConfig (app s))) = Undefined /\ view s = [].
Proof. vm_compute. split; reflexivity. Qed.

(** The statistics of the three rows: totals and the mean price. *)
Example stats_three_rows :
  exists st,
    stats (fun _ => EmptyString) (fun _ => EmptyString) (fun _ => EmptyString)
          [AAA; BBB; CCC] = Some st /\
    totalVolume st = Fin 550 /\ totalTrades st = Fin 17 /\
    avgPrice st = Fin (5817149518686891 # 562949953421312) /\
    gainers (marketTrend st) = 0%nat /\ losers (marketTrend st) = 3%nat.
Proof. eexists. split; [reflexivity|]. repeat split. Qed.

(* ================================================================== *)
(** * The hook in any state *)
(* ================================================================== *)

Section HookFacts.
Variable url_ok : bool.

Lemma filter_closed (l : list ReadyState) :
  Forall (eq CLOSED) l -> List.filter (fun r => negb (is_closed r)) l = [].
Proof.
  induction 1 as [|r l <- _ IH]; simpl; [reflexivity | exact IH].
Qed.

Lemma phase_counts (base : list Z) (w : World) :
  phase base w -> (length (live_sockets w) + size (pending (browser w)) <= 1)%nat.
Proof.
  unfold live_sockets. intros [k [Hup|[Hw|Hd]]].
  - destruct Hup as (l & st & -> & Hl & Hst & _ & -> & _).
    rewrite List.filter_app, (filter_closed l Hl), size_empty. simpl.
    destruct st; simpl; lia.
  - destruct Hw as (Hl & -> & _). rewrite (filter_closed _ Hl), size_singleton.
    simpl. lia.
  - destruct Hd as (Hl & -> & _). rewrite (filter_closed _ Hl), size_empty.
    simpl. lia.
Qed.

Lemma closed_no_live (w : World) (id : nat) (r : ReadyState) :
  Forall (eq CLOSED) (sockets (browser w)) ->
  sockets (browser w) !! id = Some r -> r = CLOSED.
Proof. apply closed_lookup. Qed.

(** In the situations without a socket that is up, socket events find
    nothing to act on. *)
Lemma phase_live_up (base : list Z) (w : World) (id : nat) (r : ReadyState) :
  phase base w -> sockets (browser w) !! id = Some r -> r <> CLOSED ->
  exists k, up base k w.
Proof.
  intros [k [Hup|[Hw|Hd]]] E Hr.
  - now exists k.
  - destruct Hw as (Hl & _). now apply (closed_lookup _ _ _ Hl) in E.
  - destruct Hd as (Hl & _). now apply (closed_lookup _ _ _ Hl) in E.
Qed.

Lemma phase_pending_waiting (base : list Z) (w : World) (t : nat) :
  phase base w -> t ∈ pending (browser w) ->
  exists k, waiting base k w /\ t = (length base + k)%nat.
Proof.
  intros [k [Hup|[Hw|Hd]]] Ht.
  - destruct Hup as (l & st & _ & _ & _ & _ & Hp & _). rewrite Hp in Ht. set_solver.
  - exists k. split; [exact Hw|]. destruct Hw as (_ & Hp & _). rewrite Hp in Ht. set_solver.
  - destruct Hd as (_ & Hp & _). rewrite Hp in Ht. set_solver.
Qed.

Lemma step_timer_held (e : Event) (w : World) :
  (exists base, phase base w) -> timer_held w -> timer_held (step url_ok e w).
Proof.
  intros [base Hph] Hheld. destruct e as [id|id data|id|id|t| |id]; simpl.
  - destruct (sockets (browser w) !! id) as [[]|]; try exact Hheld.
    unfold timer_held, onopen, setConnectionStatus. intros t.
    destruct (mounted _); simpl; apply Hheld.
  - destruct (sockets (browser w) !! id) as [[]|]; try exact Hheld;
      unfold timer_held, onmessage, setLastMessage; intros t;
      destruct (mounted _); simpl; apply Hheld.
  - destruct (sockets (browser w) !! id) as [r|] eqn:E; [|exact Hheld].
    assert (Hr : r <> CLOSED -> timer_held (onclose (set_readyState id CLOSED w))).
    { intros Hr. destruct (phase_live_up base w id r Hph E Hr) as [k Hup].
      destruct Hup as (l & st & _ & _ & _ & _ & Hp & _).
      unfold timer_held, onclose, setConnectionStatus, setTimeout. intros t.
      destruct (mounted _); simpl; rewrite Hp, (right_id_L ∅ (∪)); intros Ht;
        apply elem_of_singleton in Ht; now subst t. }
    destruct r; try exact Hheld; apply Hr; discriminate.
  - destruct (sockets (browser w) !! id) as [[]|]; try exact Hheld;
      unfold timer_held, onerror, setConnectionStatus; intros t;
      destruct (mounted _); simpl; apply Hheld.
  - destruct (bool_decide (t ∈ pending (browser w))) eqn:E; [|exact Hheld].
    apply bool_decide_eq_true in E.
    destruct (phase_pending_waiting base w t Hph E) as (k & (_ & Hp & _) & ->).
    unfold timer_held, reconnect, connect, clearTimeout, new_WebSocket, setConnectionStatus.
    intros t'. destruct url_ok; [|destruct (mounted _)]; simpl;
      rewrite Hp, difference_diag_L; intros Ht; now apply not_elem_of_empty in Ht.
  - destruct (mounted w); [|exact Hheld].
    unfold timer_held, cleanup. simpl. intros t.
    assert (Hsame : forall w1, pending (browser w1) = pending (browser w) ->
                      reconnectTimeoutRef (hook w1) = reconnectTimeoutRef (hook w) ->
                      t ∈ pending (browser
                            match reconnectTimeoutRef (hook w1) with
                            | Some t0 => clearTimeout t0 w1
                            | None => w1
                            end) ->
                      reconnectTimeoutRef (hook
                            match reconnectTimeoutRef (hook w1) with
                            | Some t0 => clearTimeout t0 w1
                            | None => w1
                            end) = Some t).
    { intros w1 Hp Hr. rewrite Hr.
      destruct (reconnectTimeoutRef (hook w)) as [t0|] eqn:R; simpl.
      - rewrite Hp. intros Ht. apply elem_of_difference in Ht. destruct Ht as [Ht Hne].
        apply Hheld in Ht. rewrite R in Ht. inversion Ht. subst. set_solver.
      - rewrite Hp, Hr. intros Ht. apply Hheld in Ht. now rewrite R in Ht. }
    destruct (wsRef (hook w)) as [id|]; apply Hsame; try reflexivity.
    + unfold socket_close. simpl. now destruct (sockets (browser w) !! id) as [[]|].
  - destruct (sockets (browser w) !! id) as [[]|]; exact Hheld.
Qed.

(** The cleanup while a reconnect waits, or after the constructor threw:
    whatever timer is pending is cleared, and nothing is left. *)
Lemma unmount_closed (w : World) :
  (exists base, phase base w) -> timer_held w ->
  mounted w = true -> Forall (eq CLOSED) (sockets (browser w)) ->
  frozen (step url_ok Unmount w) /\
  sockets (browser (step url_ok Unmount w)) = sockets (browser w) /\
  timeouts (browser (step url_ok Unmount w)) = timeouts (browser w).
Proof.
  intros [base Hph] Hheld Hm Hl. simpl. rewrite Hm. unfold cleanup.
  set (w1 := match wsRef (hook w) with Some id => socket_close id w | None => w end).
  assert (H1 : w1 = w).
  { subst w1. destruct (wsRef (hook w)) as [id|]; [|reflexivity].
    unfold socket_close, set_browser.
    destruct (sockets (browser w) !! id) as [r|] eqn:E.
    - apply (closed_lookup _ _ _ Hl) in E. subst r. now destruct w as [h [] m].
    - now destruct w as [h [] m]. }
  rewrite H1. unfold frozen. simpl.
  assert (Hp : pending (browser match reconnectTimeoutRef (hook w) with
                                | Some t => clearTimeout t w
                                | None => w
                                end) = ∅).
  { destruct (reconnectTimeoutRef (hook w)) as [t0|] eqn:R; simpl.
    - apply set_eq. intros t. split; [|set_solver]. intros Ht.
      apply elem_of_difference in Ht. destruct Ht as [Ht Hne].
      apply Hheld in Ht. rewrite R in Ht. inversion Ht. set_solver.
    - apply set_eq. intros t. split; [|set_solver]. intros Ht.
      apply Hheld in Ht. now rewrite R in Ht. }
  destruct (reconnectTimeoutRef (hook w)); simpl in *; repeat split; auto.
Qed.

Lemma frozen_step (e : Event) (w : World) : frozen w -> step url_ok e w = w.
Proof.
  intros (Hm & Hl & Hp). destruct e as [id|id data|id|id|t| |id]; simpl.
  - destruct (sockets (browser w) !! id) as [r|] eqn:E; [|reflexivity].
    apply (closed_lookup _ _ _ Hl) in E. now subst r.
  - destruct (sockets (browser w) !! id) as [r|] eqn:E; [|reflexivity].
    apply (closed_lookup _ _ _ Hl) in E. now subst r.
  - destruct (sockets (browser w) !! id) as [r|] eqn:E; [|reflexivity].
    apply (closed_lookup _ _ _ Hl) in E. now subst r.
  - destruct (sockets (browser w) !! id) as [r|] eqn:E; [|reflexivity].
    apply (closed_lookup _ _ _ Hl) in E. now subst r.
  - rewrite Hp. rewrite bool_decide_eq_false_2 by set_solver. reflexivity.
  - now rewrite Hm.
  - destruct (sockets (browser w) !! id) as [r|] eqn:E; [|reflexivity].
    apply (closed_lookup _ _ _ Hl) in E. now subst r.
Qed.

Lemma frozen_run (tr : list Event) (w : World) : frozen w -> run url_ok tr w = w.
Proof.
  intros H. induction tr as [|e tr IH]; simpl; [reflexivity|].
  now rewrite (frozen_step e w H).
Qed.

Lemma delay_value (c : Z) :
  0 <= c -> In (Z.min (1000 * 2 ^ c) 30000) (List.map backoff (seq 0 6)).
Proof.
  intros Hc. destruct (Z_lt_le_dec c 5) as [Hlt|Hge].
  - assert (Hcases : c = 0 \/ c = 1 \/ c = 2 \/ c = 3 \/ c = 4) by lia.
    destruct Hcases as [->|[->|[->|[->| ->]]]]; vm_compute; auto 10.
  - replace (Z.min (1000 * 2 ^ c) 30000) with (backoff 5).
    + vm_compute. auto 10.
    + rewrite backoff_capped by lia. unfold backoff.
      assert (2 ^ 5 <= 2 ^ c) by (apply Z.pow_le_mono_r; lia).
      change (2 ^ 5) with 32 in *. lia.
Qed.

Lemma step_delays_ok (e : Event) (w : World) :
  delays_ok w -> delays_ok (step url_ok e w).
Proof.
  intros [Hc Hd]. destruct e as [id|id data|id|id|t| |id]; simpl.
  - destruct (sockets (browser w) !! id) as [[]|]; try (now split).
    unfold delays_ok, onopen, setConnectionStatus.
    destruct (mounted _); simpl; split; auto; lia.
  - destruct (sockets (browser w) !! id) as [[]|]; try (now split);
      unfold delays_ok, onmessage, setLastMessage;
      destruct (mounted _); simpl; split; auto.
  - assert (H : delays_ok (onclose (set_readyState id CLOSED w))).
    { unfold delays_ok, onclose, setConnectionStatus, setTimeout.
      destruct (mounted _); simpl; (split; [exact Hc|]);
        apply Forall_app; (split; [exact Hd|]);
        (constructor; [now apply delay_value | constructor]). }
    destruct (sockets (browser w) !! id) as [[]|]; try (now split); exact H.
  - destruct (sockets (browser w) !! id) as [[]|]; try (now split);
      unfold delays_ok, onerror, setConnectionStatus;
      destruct (mounted _); simpl; split; auto.
  - destruct (bool_decide _); [|now split].
    unfold delays_ok, reconnect, connect, clearTimeout, new_WebSocket, setConnectionStatus.
    destruct url_ok; [|destruct (mounted _)]; simpl; split; auto; lia.
  - destruct (mounted w); [|now split].
    unfold delays_ok, cleanup, socket_close, clearTimeout. simpl.
    destruct (wsRef (hook w)) as [id|]; simpl;
      destruct (reconnectTimeoutRef (hook w)); simpl;
      try destruct (sockets (browser w) !! id) as [[]|]; simpl; split; auto.
  - destruct (sockets (browser w) !! id) as [[]|]; split; assumption.
Qed.

Lemma run_delays_ok (tr : list Event) (w : World) :
  delays_ok w -> delays_ok (run url_ok tr w).
Proof.
  revert w. induction tr as [|e tr IH]; intros w H; simpl; [exact H|].
  apply IH. now apply step_delays_ok.
Qed.

Lemma mount_delays_ok : delays_ok (mount url_ok).
Proof.
  unfold delays_ok, mount, connect, initial. destruct url_ok; simpl; split;
    (lia || constructor).
Qed.

(** The shape of the hook and the timer it holds, under every event, the
    teardown included. *)
Lemma step_hook_inv (e : Event) (w : World) :
  (exists base, phase base w) /\ timer_held w ->
  (exists base, phase base (step url_ok e w)) /\ timer_held (step url_ok e w).
Proof.
  intros [Hph Hheld]. split; [|now apply step_timer_held].
  destruct (not_unmount e) eqn:He; [now apply step_phase|].
  destruct e; try discriminate. destruct Hph as [base [k Hph]].
  destruct Hph as [Hup|Hcl].
  - exists base, k. left. now apply unmount_up.
  - destruct (mounted w) eqn:Hm.
    + assert (Hl : Forall (eq CLOSED) (sockets (browser w)))
        by (destruct Hcl as [Hw|Hd]; [apply Hw | apply Hd]).
      destruct (unmount_closed w) as ((_ & Hl' & Hp') & Hs & Ht); auto.
      { exists base, k. now right. }
      destruct Hcl as [(_ & _ & Htw & _)|(_ & _ & Htd)].
      * exists base, (S k). right. right. repeat split; auto. now rewrite Ht.
      * exists base, k. right. right. repeat split; auto. now rewrite Ht.
    + exists base, k. right. simpl. now rewrite Hm.
Qed.

Lemma run_hook_inv (tr : list Event) (w : World) :
  (exists base, phase base w) /\ timer_held w ->
  (exists base, phase base (run url_ok tr w)) /\ timer_held (run url_ok tr w).
Proof.
  revert w. induction tr as [|e tr IH]; intros w H; simpl; [exact H|].
  apply IH. now apply step_hook_inv.
Qed.

Lemma mount_hook_inv : (exists base, phase base (mount url_ok)) /\ timer_held (mount url_ok).
Proof.
  split; [exists []; apply mount_phase|].
  unfold timer_held, mount, connect, initial, setConnectionStatus.
  intros t. destruct url_ok; simpl; intros Ht; now apply not_elem_of_empty in Ht.
Qed.

Lemma step_status_inv (e : Event) (w : World) :
  not_unmount e = true -> (exists base, phase base w) -> status_inv w ->
  status_inv (step url_ok e w).
Proof.
  intros He [base Hph] Hst. pose proof Hst as (Hm & Hconn & Hpend & Hcing).
  destruct e as [id|id data|id|id|t| |id]; try discriminate He; simpl.
  - destruct (sockets (browser w) !! id) as [r|] eqn:E; [|exact Hst].
    destruct r; try exact Hst.
    destruct (phase_live_up base w id CONNECTING Hph E) as [k Hup]; [discriminate|].
    destruct Hup as (l & st & Hs & Hl & _ & Hws & Hp & _).
    rewrite Hs in E. destruct (live_lookup l st CONNECTING id Hl E) as [-> <-];
      [discriminate|].
    unfold status_inv, onopen, setConnectionStatus, set_readyState. simpl.
    rewrite Hm. simpl. rewrite Hs, insert_last, Hp, Hws.
    split; [first [exact Hm | reflexivity]|]. split; [|split].
    + intros _. exists (length l). split; [reflexivity|]. left.
      now apply list_lookup_middle.
    + intros Hne. now destruct Hne.
    + discriminate.
  - assert (H : status_inv (onmessage data w)).
    { unfold status_inv, onmessage, setLastMessage. rewrite Hm. simpl. now rewrite Hm. }
    destruct (sockets (browser w) !! id) as [[]|]; try exact Hst; exact H.
  - destruct (sockets (browser w) !! id) as [r|] eqn:E; [|exact Hst].
    assert (H : r <> CLOSED -> status_inv (onclose (set_readyState id CLOSED w))).
    { intros Hr. unfold status_inv, onclose, setConnectionStatus, setTimeout,
        set_readyState. simpl. rewrite Hm. simpl.
      split; [first [exact Hm | reflexivity]|]. split; [discriminate|].
      split; [reflexivity | discriminate]. }
    destruct r; try exact Hst; apply H; discriminate.
  - destruct (sockets (browser w) !! id) as [r|] eqn:E; [|exact Hst].
    assert (H : r <> CLOSED -> status_inv (onerror w)).
    { intros Hr. destruct (phase_live_up base w id r Hph E Hr) as [k Hup].
      destruct Hup as (l & st & _ & _ & _ & _ & Hp & _).
      unfold status_inv, onerror, setConnectionStatus. rewrite Hm. simpl.
      split; [first [exact Hm | reflexivity]|]. split; [discriminate|].
      split; [|discriminate].
      rewrite Hp. intros Hne. now destruct Hne. }
    destruct r; try exact Hst; apply H; discriminate.
  - destruct (bool_decide (t ∈ pending (browser w))) eqn:E; [|exact Hst].
    apply bool_decide_eq_true in E.
    assert (Hdis : connectionStatus (hook w) = disconnected).
    { apply Hpend. intros Hp. rewrite Hp in E. now apply not_elem_of_empty in E. }
    destruct (phase_pending_waiting base w t Hph E) as (k & (_ & Hp & _) & ->).
    unfold status_inv, reconnect, connect, clearTimeout, new_WebSocket,
      setConnectionStatus.
    destruct url_ok; simpl; rewrite ?Hm; simpl; rewrite Hp, difference_diag_L, ?Hdis;
      (split; [first [exact Hm | reflexivity]|]); (split; [discriminate|]);
      (split; [|discriminate]); intros Hne; now destruct Hne.
  - destruct (sockets (browser w) !! id) as [r|] eqn:E; [|exact Hst].
    destruct r; try exact Hst.
    destruct (phase_live_up base w id OPEN Hph E) as [k Hup]; [discriminate|].
    destruct Hup as (l & st & Hs & Hl & _ & Hws & Hp & _).
    rewrite Hs in E. destruct (live_lookup l st OPEN id Hl E) as [-> <-];
      [discriminate|].
    unfold status_inv, set_readyState. simpl. rewrite Hs, insert_last.
    split; [exact Hm|]. split; [|split].
    + intros _. exists (length l). split; [exact Hws|]. right.
      now apply list_lookup_middle.
    + exact Hpend.
    + intros Hcg. destruct (Hcing Hcg) as [Hsock _]. rewrite Hs in Hsock.
      destruct l as [|a [|b l']]; simpl in Hsock; congruence.
Qed.

Lemma mount_status_inv : status_inv (mount url_ok).
Proof.
  unfold status_inv, mount, connect, initial, setConnectionStatus.
  destruct url_ok; simpl; (split; [reflexivity|]); (split; [discriminate|]);
    (split; [intros Hne; now destruct Hne|]); intros H;
    first [discriminate H | split; reflexivity].
Qed.

Lemma run_status_inv (tr : list Event) (w : World) :
  forallb not_unmount tr = true -> (exists base, phase base w) -> status_inv w ->
  status_inv (run url_ok tr w).
Proof.
  revert w. induction tr as [|e tr IH]; intros w Htr Hph Hst; simpl; [exact Hst|].
  simpl in Htr. apply andb_true_iff in Htr. destruct Htr as [He Htr].
  apply IH; [exact Htr | now apply step_phase | now apply step_status_inv].
Qed.
End HookFacts.

(** X1.  After any sequence of socket events, timer callbacks and
    teardowns since mounting, the hook has at most one thing in flight: the
    sockets that are not closed and the reconnect timers that are pending
    number at most one together.  So two connections are never open at the
    same time, and no retry is scheduled while a connection is open. *)
Theorem one_socket_or_one_timer (url_ok : bool) (tr : list Event) :
  let w := run url_ok tr (mount url_ok) in
  (length (live_sockets w) + size (pending (browser w)) <= 1)%nat.
Proof.
  intros w. destruct (run_hook_inv url_ok tr (mount url_ok) (mount_hook_inv url_ok))
    as [[base Hph] _].
  now apply (phase_counts base).
Qed.

(** X2.  While the component is mounted, whenever [isConnected] is true
    [wsRef] holds a socket that is open or, the peer having started the
    closing handshake, closing.  [sendMessage] hands its message to the
    socket in the first case and drops it without notice in the second; the
    second case arises as soon as the peer starts closing an open socket, so
    [isConnected] does not tell that a message will be sent. *)
Theorem connected_sends_unless_closing
        (url_ok : bool) (tr : list Event) (message : string) :
  forallb not_unmount tr = true ->
  let w := run url_ok tr (mount url_ok) in
  (isConnected w = true ->
   exists id, wsRef (hook w) = Some id /\
     ((sockets (browser w) !! id = Some OPEN /\
       sendMessage message w = Some (id, message)) \/
      (sockets (browser w) !! id = Some CLOSING /\
       sendMessage message w = None))) /\
  (forall id, sockets (browser w) !! id = Some OPEN -> isConnected w = true ->
     let w' := step url_ok (PeerClosing id) w in
     isConnected w' = true /\ sendMessage message w' = None).
Proof.
  intros Htr w.
  assert (Hph : exists base, phase base w).
  { apply run_phase; [exists []; apply mount_phase | exact Htr]. }
  assert (Hst : status_inv w).
  { apply run_status_inv; [exact Htr | exists []; apply mount_phase
                           | apply mount_status_inv]. }
  assert (Hsend : forall w0, status_inv w0 -> isConnected w0 = true ->
            exists id, wsRef (hook w0) = Some id /\
              ((sockets (browser w0) !! id = Some OPEN /\
                sendMessage message w0 = Some (id, message)) \/
               (sockets (browser w0) !! id = Some CLOSING /\
                sendMessage message w0 = None))).
  { intros w0 (_ & Hconn & _) Hc.
    destruct Hconn as (id & Hws & [Hopen|Hclosing]).
    { unfold isConnected in Hc. now destruct (connectionStatus (hook w0)). }
    - exists id. split; [exact Hws|]. left. split; [exact Hopen|].
      unfold sendMessage. now rewrite Hws, Hopen.
    - exists id. split; [exact Hws|]. right. split; [exact Hclosing|].
      unfold sendMessage. now rewrite Hws, Hclosing. }
  split; [now apply Hsend|].
  intros id Hopen Hc w'.
  assert (Hc' : isConnected w' = true).
  { subst w'. simpl. rewrite Hopen. exact Hc. }
  split; [exact Hc'|].
  assert (Hst' : status_inv w')
    by (apply step_status_inv; [reflexivity | exact Hph | exact Hst]).
  destruct (Hsend w' Hst' Hc') as (id' & Hws' & [[Ho _]|[_ Hnone]]); [|exact Hnone].
  exfalso. destruct Hph as [base Hph].
  destruct (phase_live_up base w id OPEN Hph Hopen) as [k Hup]; [discriminate|].
  destruct Hup as (l & st & Hs & Hl & _ & Hws & _).
  rewrite Hs in Hopen.
  destruct (live_lookup l st OPEN id Hl Hopen) as [-> <-]; [discriminate|].
  assert (Ew : w' = set_readyState (length l) CLOSING w).
  { subst w'. simpl. rewrite Hs, list_lookup_middle by reflexivity. reflexivity. }
  rewrite Ew in Ho, Hws'. unfold set_readyState in Ho, Hws'. simpl in Ho, Hws'.
  rewrite Hws in Hws'. injection Hws' as <-.
  rewrite Hs, insert_last, list_lookup_middle in Ho by reflexivity. discriminate Ho.
Qed.

(** X3.  While the component is mounted: whenever a reconnect timer is
    pending the status is ['disconnected']; the status is ['connecting'] only
    before the first socket has opened or closed, with that one socket still
    connecting and no timer ever set; so once a retry has been scheduled the
    status never reads ['connecting'] again, also while a retry is actually
    connecting. *)
Theorem status_while_retrying (url_ok : bool) (tr : list Event) :
  forallb not_unmount tr = true ->
  let w := run url_ok tr (mount url_ok) in
  (pending (browser w) <> ∅ -> connectionStatus (hook w) = disconnected) /\
  (connectionStatus (hook w) = connecting ->
   sockets (browser w) = [CONNECTING] /\ timeouts (browser w) = []) /\
  (timeouts (browser w) <> [] -> connectionStatus (hook w) <> connecting).
Proof.
  intros Htr w.
  assert (Hst : status_inv w).
  { apply run_status_inv; [exact Htr | exists []; apply mount_phase
                           | apply mount_status_inv]. }
  destruct Hst as (_ & _ & Hp & Hc).
  split; [exact Hp|]. split; [exact Hc|].
  intros Hne E. now destruct (Hc E) as [_ Ht].
Qed.

(** X4.  If every socket has already closed when the effect cleanup runs,
    the cleanup clears the pending reconnect timer, constructs no socket and
    sets no timer, and nothing that happens afterwards changes the state:
    no reconnection follows such a teardown. *)
Theorem teardown_after_close_is_final (url_ok : bool) (before after : list Event) :
  let w := run url_ok before (mount url_ok) in
  mounted w = true -> Forall (eq CLOSED) (sockets (browser w)) ->
  let torn := step url_ok Unmount w in
  pending (browser torn) = ∅ /\
  sockets (browser torn) = sockets (browser w) /\
  timeouts (browser torn) = timeouts (browser w) /\
  run url_ok after torn = torn.
Proof.
  intros w Hm Hl torn.
  destruct (run_hook_inv url_ok before (mount url_ok) (mount_hook_inv url_ok))
    as [Hph Hheld].
  destruct (unmount_closed url_ok w Hph Hheld Hm Hl) as (Hfr & Hs & Ht).
  split; [apply Hfr|]. split; [exact Hs|]. split; [exact Ht|].
  now apply frozen_run.
Qed.

(** X5.  Whatever happens, teardown included, the retry counter is never
    negative and every delay the hook hands to [setTimeout] is one of 1000,
    2000, 4000, 8000, 16000 and 30000 milliseconds. *)
Theorem delays_are_six_values (url_ok : bool) (tr : list Event) :
  let w := run url_ok tr (mount url_ok) in
  0 <= reconnectCountRef (hook w) /\
  Forall (fun d => In d [1000; 2000; 4000; 8000; 16000; 30000])
         (timeouts (browser w)).
Proof.
  intros w. apply (run_delays_ok url_ok tr), mount_delays_ok.
Qed.

(* ================================================================== *)
(** * More on the derived view *)
(* ================================================================== *)

Lemma array_slice_from_0 {A : Type} (e : Z) (l : list A) :
  array_slice 0 e l =
  firstn (Z.to_nat (slice_index (Z.of_nat (length l)) e)) l.
Proof.
  unfold array_slice.
  assert (H0 : slice_index (Z.of_nat (length l)) 0 = 0) by (unfold slice_index; simpl; lia).
  rewrite H0, Z.sub_0_r. change (Z.to_nat 0) with 0%nat. rewrite skipn_0.
  f_equal. unfold slice_index. destruct (e <? 0); lia.
Qed.

Lemma ordered_firstn {A : Type} (cmp : A -> A -> Z) (n : nat) (l : list A) :
  ordered cmp l -> ordered cmp (firstn n l).
Proof.
  intros H. revert n. induction H as [|a l Hl IH Ha]; intros [|n]; simpl;
    try constructor.
  - apply IH.
  - rewrite List.Forall_forall in Ha |- *. intros x Hx. apply Ha.
    rewrite <- (firstn_skipn n l). apply in_or_app. now left.
Qed.

(** Sorting a list that is already in order leaves it as it is. *)
Lemma array_sort_ordered_id {A : Type} (cmp : A -> A -> Z) (l : list A) :
  ordered cmp l -> array_sort cmp l = l.
Proof.
  induction 1 as [|a l Hl IH Ha]; simpl; [reflexivity|].
  rewrite IH. destruct l as [|b l]; simpl; [reflexivity|].
  inversion Ha as [|? ? Hab _]; subst.
  destruct (0 <? cmp a b) eqn:E; [|reflexivity].
  apply Z.ltb_lt in E. lia.
Qed.

Lemma filter_all {A : Type} (p : A -> bool) (l : list A) :
  (forall x, In x l -> p x = true) -> List.filter p l = l.
Proof.
  induction l as [|a l IH]; intros H; simpl; [reflexivity|].
  rewrite (H a (or_introl eq_refl)). f_equal. apply IH. intros x Hx. apply H. now right.
Qed.

Lemma filter_split {A : Type} (p : A -> bool) (l : list A) :
  Permutation (List.filter p l ++ List.filter (fun x => negb (p x)) l) l.
Proof.
  induction l as [|a l IH]; simpl; [reflexivity|].
  destruct (p a); simpl.
  - now constructor.
  - rewrite <- Permutation_middle. now constructor.
Qed.

Lemma compute_In (stocks : list Snapshot) (fc : FilterConfig) (sc : SortConfig) (x : Snapshot) :
  In x (compute stocks fc sc) -> In x stocks /\ passes fc x = true.
Proof.
  unfold compute, truncate_step. rewrite array_slice_from_0. intros H.
  assert (H' : In x (sort_step sc (filter_step fc stocks))).
  { rewrite <- (firstn_skipn (Z.to_nat (slice_index
        (Z.of_nat (length (sort_step sc (filter_step fc stocks)))) (displayCount fc)))).
    apply in_or_app. now left. }
  apply array_sort_In in H'. now apply filter_In in H'.
Qed.

Lemma compute_ordered (stocks : list Snapshot) (fc : FilterConfig) (sc : SortConfig) :
  ordered (comparator sc) (compute stocks fc sc).
Proof.
  unfold compute, truncate_step. rewrite array_slice_from_0.
  apply ordered_firstn, sort_step_ordered.
Qed.

(** X6.  Every row of the view is one of the snapshots given and passes
    the filter; the view followed by some other rows is a rearrangement of
    the snapshots, so no row is shown more often than it occurs; the view is
    in the order of the comparator; and when no more rows pass the filter
    than [displayCount] allows, the view is the sorted filtered list itself,
    a rearrangement of the rows that pass. *)
Theorem view_rows_are_current_and_pass
        (stocks : list Snapshot) (fc : FilterConfig) (sc : SortConfig) :
  (forall x, In x (compute stocks fc sc) -> In x stocks /\ retained fc x) /\
  (exists rest, Permutation (compute stocks fc sc ++ rest) stocks) /\
  ordered (comparator sc) (compute stocks fc sc) /\
  (Z.of_nat (length (filter_step fc stocks)) <= displayCount fc ->
   compute stocks fc sc = sort_step sc (filter_step fc stocks) /\
   Permutation (compute stocks fc sc) (filter_step fc stocks)).
Proof.
  split; [|split; [|split]].
  - intros x Hx. apply compute_In in Hx. now rewrite <- passes_retained.
  - unfold compute, truncate_step. rewrite array_slice_from_0.
    set (sorted := sort_step sc (filter_step fc stocks)).
    set (n := Z.to_nat _).
    exists (skipn n sorted ++ List.filter (fun x => negb (passes fc x)) stocks).
    rewrite app_assoc, firstn_skipn. subst sorted. unfold sort_step.
    rewrite array_sort_perm. apply filter_split.
  - apply compute_ordered.
  - intros Hlen.
    assert (E : compute stocks fc sc = sort_step sc (filter_step fc stocks)).
    { unfold compute, truncate_step. rewrite array_slice_from_0.
      apply firstn_all2. unfold sort_step at 1 2. rewrite array_sort_length.
      unfold slice_index. destruct (displayCount fc <? 0) eqn:N.
      - apply Z.ltb_lt in N. lia.
      - lia. }
    split; [exact E|]. rewrite E. apply array_sort_perm.
Qed.

(** X7.  With the other entries of the filter configuration fixed,
    the view for a display count [n] is the first [n] rows of the view for
    any larger display count: raising the display count only appends
    rows. *)
Theorem smaller_page_is_prefix
        (stocks : list Snapshot) (sc : SortConfig)
        (lo hi lo' hi' tc : bound) (n m : Z) :
  0 <= n <= m ->
  compute stocks (mkFilterConfig lo hi lo' hi' tc n) sc =
  firstn (Z.to_nat n) (compute stocks (mkFilterConfig lo hi lo' hi' tc m) sc).
Proof.
  intros Hnm. unfold compute, truncate_step, filter_step, passes. simpl.
  rewrite !array_slice_prefix by lia. rewrite firstn_firstn. f_equal. lia.
Qed.

(** X8.  For a display count that is not negative, filtering, sorting and
    truncating the rows of the view again under the same configurations
    gives the view back. *)
Theorem compute_idempotent
        (stocks : list Snapshot) (fc : FilterConfig) (sc : SortConfig) :
  0 <= displayCount fc ->
  compute (compute stocks fc sc) fc sc = compute stocks fc sc.
Proof.
  intros Hn. set (v := compute stocks fc sc).
  unfold compute at 1, filter_step.
  rewrite (filter_all (passes fc) v) by (intros x Hx; now apply compute_In in Hx).
  unfold sort_step. rewrite (array_sort_ordered_id _ v) by apply compute_ordered.
  unfold truncate_step. rewrite array_slice_prefix by exact Hn.
  apply firstn_all2.
  destruct (compute_prefix stocks fc sc Hn) as [_ Hlen]. fold v in Hlen. lia.
Qed.

Lemma ordered_snoc {A : Type} (cmp : A -> A -> Z) (l : list A) (a : A) :
  ordered cmp l -> (forall x, In x l -> cmp x a <= 0) -> ordered cmp (l ++ [a]).
Proof.
  induction 1 as [|b l Hl IH Hb]; intros Ha; simpl.
  - repeat constructor.
  - constructor.
    + apply IH. intros x Hx. apply Ha. now right.
    + apply List.Forall_forall. intros x Hx. apply in_app_or in Hx.
      destruct Hx as [Hx|[<-|[]]].
      * rewrite List.Forall_forall in Hb. now apply Hb.
      * apply Ha. now left.
Qed.

Lemma ordered_rev {A : Type} (cmp cmp' : A -> A -> Z) (l : list A) :
  (forall a b, cmp a b <= 0 -> cmp' b a <= 0) ->
  ordered cmp l -> ordered cmp' (rev l).
Proof.
  intros Hflip. induction 1 as [|a l Hl IH Ha]; simpl; [constructor|].
  apply ordered_snoc; [exact IH|].
  intros x Hx. apply in_rev in Hx. apply Hflip.
  rewrite List.Forall_forall in Ha. now apply Ha.
Qed.

Lemma same_key_refl (k : Key) (a : Snapshot) : same_key k a a.
Proof. destruct k; simpl; reflexivity. Qed.

Lemma filter_none {A : Type} (p : A -> bool) (l : list A) :
  (forall x, In x l -> p x = false) -> List.filter p l = [].
Proof.
  induction l as [|a l IH]; intros H; simpl; [reflexivity|].
  rewrite (H a (or_introl eq_refl)). apply IH. intros x Hx. apply H. now right.
Qed.

Lemma class_at_most_one (k : Key) (d : Direction) (l : list Snapshot) (x : Snapshot) :
  distinct_keys k l ->
  (length (List.filter (fun y => (comparator (mkSortConfig k d) x y =? 0)%Z) l) <= 1)%nat.
Proof.
  induction 1 as [|a l Ha Hl IH]; simpl; [lia|].
  destruct (comparator (mkSortConfig k d) x a =? 0) eqn:E; [|exact IH].
  apply Z.eqb_eq, comparator_zero in E. simpl in E.
  rewrite filter_none; [simpl; lia|].
  intros b Hb. apply Z.eqb_neq. rewrite comparator_zero. simpl. intros Hxb.
  rewrite List.Forall_forall in Ha. apply (Ha b Hb).
  apply same_key_trans with x; [now apply same_key_sym | exact Hxb].
Qed.

Lemma rev_short {A : Type} (l : list A) : (length l <= 1)%nat -> rev l = l.
Proof. destruct l as [|a [|b l]]; simpl; intros H; try reflexivity; lia. Qed.

(** X9.  When no two snapshots carry the same value in the sort column,
    the descending order is the ascending order reversed. *)
Theorem descending_is_reverse_of_ascending (k : Key) (l : list Snapshot) :
  distinct_keys k l ->
  sort_step (mkSortConfig k desc) l = rev (sort_step (mkSortConfig k asc) l).
Proof.
  intros Hd. symmetry. apply sort_step_unique.
  - apply (ordered_rev (comparator (mkSortConfig k asc))); [|apply sort_step_ordered].
    intros a b Hab.
    pose proof (comparator_opp (mkSortConfig k asc) a b) as Ho.
    assert (E : comparator (mkSortConfig k desc) b a = - comparator (mkSortConfig k asc) b a).
    { unfold comparator, key_lt, key_gt. simpl. now destruct (key_compare k b a). }
    lia.
  - intros x. rewrite List.filter_rev.
    assert (Hext : forall m, List.filter (fun y => comparator (mkSortConfig k desc) x y =? 0) m =
                             List.filter (fun y => comparator (mkSortConfig k asc) x y =? 0) m).
    { intros m. apply List.filter_ext. intros y.
      unfold comparator, key_lt, key_gt. simpl. now destruct (key_compare k x y). }
    rewrite !Hext. unfold sort_step.
    rewrite array_sort_stable.
    + apply rev_short. now apply class_at_most_one.
    + intros a b Ha Hb. apply Z.eqb_eq, comparator_zero in Ha.
      apply Z.eqb_eq, comparator_zero in Hb.
      assert (H : comparator (mkSortConfig k asc) a b = 0); [|lia].
      apply comparator_zero. apply same_key_trans with x; [|exact Hb].
      now apply same_key_sym.
Qed.

(* ================================================================== *)
(** * The controls *)
(* ================================================================== *)

Lemma compute_none_pass (stocks : list Snapshot) (fc : FilterConfig) (sc : SortConfig) :
  (forall s, passes fc s = false) -> compute stocks fc sc = [].
Proof.
  intros H. unfold compute, filter_step.
  replace (List.filter (passes fc) stocks) with (@nil Snapshot).
  - unfold truncate_step, sort_step. simpl. apply array_slice_nil.
  - symmetry. induction stocks as [|s l IH]; simpl; [reflexivity|]. now rewrite H.
Qed.

Lemma passes_undefined_max (fc : FilterConfig) (s : Snapshot) :
  maxPrice fc = Undefined \/ maxVolume fc = Undefined -> passes fc s = false.
Proof.
  unfold passes. intros [H|H]; rewrite H; simpl;
    rewrite ?andb_false_r; reflexivity.
Qed.

Section ControlFacts.
Variable url_ok : bool.
Variable JSON_parse : string -> option message.

(** A step of the controls whose render returns: the world and the
    snapshots stay, the configs are those the handler built, and the view is
    recomputed. *)
Lemma user_step (u : UserEvent) (s : System) :
  sys_inv s -> mounted (world s) = true ->
  FilterControls_throws (obj_val (filterConfig (handle u (app s)))) = false ->
  let s' := sys_step url_ok JSON_parse (User u) s in
  sys_inv s' /\ world s' = world s /\ current s' = current s /\
  filterConfig (app s') = filterConfig (handle u (app s)) /\
  sortConfig (app s') = sortConfig (handle u (app s)) /\
  view s' = compute (current s) (obj_val (filterConfig (handle u (app s))))
                    (obj_val (sortConfig (handle u (app s)))).
Proof.
  intros Hinv Hmt T s'. pose proof Hinv as [Hs Hm].
  assert (Hinv' : sys_inv s') by now apply sys_step_inv.
  assert (Hstep : s' = mkSystem (world s)
            (render JSON_parse (lastMessage (hook (world s))) (handle u (app s))))
    by (subst s'; now apply sys_step_user_renders).
  assert (Happ : app s' = run_view_effect (handle u (app s))).
  { rewrite Hstep. cbn [app]. unfold render, run_message_effect.
    destruct (handle_stocks u (app s)) as (_ & _ & ->).
    now rewrite bool_decide_eq_true_2 by exact Hm. }
  assert (Hw : world s' = world s) by now rewrite Hstep.
  destruct (handle_stocks u (app s)) as (Hst & Hct & _).
  assert (Hb : bounded (handle u (app s))).
  { apply handle_pending_render. now apply settled_pending_render. }
  assert (Hkeep : stocks (app s') = stocks (app s) /\
                  filterConfig (app s') = filterConfig (handle u (app s)) /\
                  sortConfig (app s') = sortConfig (handle u (app s)) /\
                  contents (app s') (stocks (app s)) = contents (app s) (stocks (app s))).
  { rewrite Happ. unfold run_view_effect. destruct (bool_decide _).
    - rewrite Hst. auto.
    - pose proof (view_effect_spec (handle u (app s))) as H. cbv zeta in H.
      destruct H as (E1 & E2 & E3 & _ & _ & _ & _ & _ & Hframe).
      rewrite E1, E2, E3, Hst. repeat split.
      rewrite Hframe; [exact Hct|]. rewrite <- Hst. apply Hb. }
  destruct Hkeep as (K1 & K2 & K3 & K4).
  assert (Hcur : current s' = current s) by (unfold current; now rewrite K1, K4).
  split; [exact Hinv'|]. split; [exact Hw|]. split; [exact Hcur|].
  split; [exact K2|]. split; [exact K3|].
  destruct Hinv' as [(_ & _ & Hc') _]. unfold consistent in Hc'.
  unfold view. rewrite Hc'. fold (current s'). now rewrite Hcur, K2, K3.
Qed.

Lemma render_sortConfig (lastMessage : option string) (a : App) :
  sortConfig (render JSON_parse lastMessage a) = sortConfig a.
Proof.
  unfold render, run_view_effect.
  assert (H : sortConfig (run_message_effect JSON_parse lastMessage a) = sortConfig a).
  { unfold run_message_effect. destruct (bool_decide _); [reflexivity|].
    cbn [sortConfig].
    destruct (message_effect_cases JSON_parse lastMessage a)
      as [->|(raw & data & _ & _ & _ & ->)]; [reflexivity|].
    pose proof (setStocks_spec data a) as E. cbv zeta in E. apply E. }
  destruct (bool_decide _); [exact H|].
  pose proof (view_effect_spec (run_message_effect JSON_parse lastMessage a)) as E.
  cbv zeta in E. destruct E as (_ & -> & _). exact H.
Qed.

(** Events of the host leave both configs alone. *)
Lemma host_run_configs (tr : list Input) (s : System) :
  forallb host_only tr = true ->
  filterConfig (app (sys_run url_ok JSON_parse tr s)) = filterConfig (app s) /\
  sortConfig (app (sys_run url_ok JSON_parse tr s)) = sortConfig (app s).
Proof.
  revert s. induction tr as [|i tr IH]; intros s Htr; simpl; [now split|].
  simpl in Htr. apply andb_true_iff in Htr. destruct Htr as [Hi Htr].
  destruct i as [e|u]; [|discriminate].
  destruct (IH (sys_step url_ok JSON_parse (Host e) s) Htr) as [-> ->].
  cbn [sys_step app]. destruct (mounted _); [|now split].
  now rewrite render_filterConfig, render_sortConfig.
Qed.

(** Once unmounted, the component stays so. *)
Lemma sys_run_unmounted (tr : list Input) (s : System) :
  mounted (world s) = false ->
  mounted (world (sys_run url_ok JSON_parse tr s)) = false.
Proof.
  revert s. induction tr as [|i tr IH]; intros s Hm; simpl; [exact Hm|].
  apply IH. destruct i as [e|u].
  - cbn [sys_step world].
    destruct (mounted (step url_ok e (world s))) eqn:M; [|reflexivity].
    apply step_mounted in M. congruence.
  - unfold sys_step. now rewrite Hm.
Qed.
End ControlFacts.

Lemma sys_view_consistent (s : System) :
  sys_inv s ->
  view s = compute (current s) (obj_val (filterConfig (app s)))
                   (obj_val (sortConfig (app s))).
Proof. intros [(_ & _ & Hc) _]. exact Hc. Qed.

(** X10.  A click on a column header sorts by that column, every column
    being sortable; the direction is descending exactly when the table was
    sorted by that column ascending before, and ascending otherwise; a second
    click on the column the table is already sorted by restores the sort
    configuration; the sort icon is on the clicked column and on no other;
    the filter configuration and the snapshots are not touched. *)
Theorem header_click_toggles (k : Key) (a : App) :
  let a1 := handleHeaderClick k a in
  let a2 := handleHeaderClick k a1 in
  key (obj_val (sortConfig a1)) = k /\
  (direction (obj_val (sortConfig a1)) = desc <->
   obj_val (sortConfig a) = mkSortConfig k asc) /\
  (key (obj_val (sortConfig a)) = k ->
   obj_val (sortConfig a2) = obj_val (sortConfig a)) /\
  (forall c, SortIcon (obj_val (sortConfig a1)) c <> None <-> c = k) /\
  obj_val (filterConfig a2) = obj_val (filterConfig a) /\ stocks a2 = stocks a.
Proof.
  assert (Hclick : forall b, handleHeaderClick k b = handleSort k b).
  { intros b. unfold handleHeaderClick. destruct k; reflexivity. }
  intros a1 a2. subst a2 a1. rewrite !Hclick.
  unfold handleSort, setSortConfig, new_obj. simpl.
  destruct (obj_val (sortConfig a)) as [k0 d0] eqn:E. simpl.
  split; [reflexivity|]. split; [|split; [|split; [|split]]].
  - destruct (bool_decide (k0 = k)) eqn:B; simpl.
    + apply bool_decide_eq_true in B. subst k0. destruct d0; simpl; split;
        intros H; (reflexivity || discriminate || congruence).
    + apply bool_decide_eq_false in B. split; [discriminate|].
      intros H. inversion H. contradiction.
  - intros ->. rewrite !bool_decide_eq_true_2 by reflexivity. now destruct d0.
  - intros c. unfold SortIcon. simpl. destruct (bool_decide (k = c)) eqn:B.
    + apply bool_decide_eq_true in B. split; [auto | discriminate].
    + apply bool_decide_eq_false in B. split; [intros H; now destruct H | congruence].
  - reflexivity.
  - reflexivity.
Qed.

(** X11.  [Slider] reports its value as a one-element array, and
    [handleRangeChange] reads the maximum from the second entry of that
    array, so a move of a range slider stores the value as the minimum and
    [undefined] as the maximum.  In every reachable mounted state: after a
    move of the price slider no snapshot is at most [undefined], so the
    table is empty, and it stays empty whatever frames and socket events
    follow, until a control is used again; after a move of the volume slider
    the render of [FilterControls] throws on the [undefined] maximum, the
    component is unmounted, the cleanup of the hook runs, and the component
    stays unmounted whatever follows. *)
Theorem range_slider_empties_or_unmounts
        (url_ok : bool) (JSON_parse : string -> option message)
        (tr : list Input) (field : RangeField) (value : Q) (later : list Input) :
  let s := sys_run url_ok JSON_parse tr (sys_initial url_ok) in
  mounted (world s) = true ->
  let moved := handle (range_slider_moved field value) (app s) in
  let s' := sys_step url_ok JSON_parse (User (range_slider_moved field value)) s in
  match field with
  | Price =>
      minPrice (obj_val (filterConfig moved)) = Finite value /\
      maxPrice (obj_val (filterConfig moved)) = Undefined /\
      FilterControls_throws (obj_val (filterConfig moved)) = false /\
      mounted (world s') = true /\
      filterConfig (app s') = filterConfig moved /\
      view s' = [] /\
      (forallb host_only later = true ->
       view (sys_run url_ok JSON_parse later s') = [])
  | Volume =>
      minVolume (obj_val (filterConfig moved)) = Finite value /\
      maxVolume (obj_val (filterConfig moved)) = Undefined /\
      FilterControls_throws (obj_val (filterConfig moved)) = true /\
      world s' = step url_ok Unmount (world s) /\
      mounted (world s') = false /\
      mounted (world (sys_run url_ok JSON_parse later s')) = false
  end.
Proof.
  intros s Hmt moved s'.
  assert (Hinv : sys_inv s) by apply sys_run_inv, sys_initial_inv.
  pose proof (sys_run_renders url_ok JSON_parse tr Hmt) as Hr. fold s in Hr.
  destruct field.
  - assert (T : FilterControls_throws (obj_val (filterConfig moved)) = false).
    { subst moved. unfold FilterControls_throws in *. exact Hr. }
    destruct (user_step url_ok JSON_parse (range_slider_moved Price value) s Hinv Hmt T)
      as (Hinv' & Hw & _ & Hfc & _ & Hview).
    fold s' in Hinv', Hw, Hfc, Hview. fold moved in Hfc, Hview.
    assert (Hmax : maxPrice (obj_val (filterConfig (app s'))) = Undefined \/
                   maxVolume (obj_val (filterConfig (app s'))) = Undefined)
      by (rewrite Hfc; left; reflexivity).
    split; [reflexivity|]. split; [reflexivity|]. split; [exact T|].
    split; [now rewrite Hw|]. split; [exact Hfc|]. split.
    + rewrite (sys_view_consistent s' Hinv').
      apply compute_none_pass. intros x. now apply passes_undefined_max.
    + intros Hlater. rewrite sys_view_consistent by now apply sys_run_inv.
      destruct (host_run_configs url_ok JSON_parse later s' Hlater) as [-> _].
      apply compute_none_pass. intros x. now apply passes_undefined_max.
  - assert (T : FilterControls_throws (obj_val (filterConfig moved)) = true).
    { subst moved. reflexivity. }
    assert (Hstep : s' = mkSystem (step url_ok Unmount (world s)) (app s))
      by (subst s'; now apply sys_step_user_throws).
    split; [reflexivity|]. split; [reflexivity|]. split; [exact T|].
    split; [now rewrite Hstep|].
    assert (Hm' : mounted (world s') = false)
      by (rewrite Hstep; apply unmount_mounted).
    split; [exact Hm'|]. now apply sys_run_unmounted.
Qed.

Lemma passes_default (s : Snapshot) :
  passes default_filterConfig s = true <->
  (0 <= current_price s)%Q /\ (0 <= volume s)%Q /\ (0 <= trade_count s)%Q.
Proof.
  unfold passes, default_filterConfig. simpl.
  rewrite !andb_true_iff, !Qle_bool_iff. intuition.
Qed.

(** X12.  In every reachable mounted state the reset button restores the
    initial filter configuration and leaves the sort configuration and the
    snapshots alone; every row then shown has a price, a volume and a trade
    count that are not negative; and when all current snapshots are so, the
    table shows the first fifty of them in the current sort order. *)
Theorem reset_shows_first_fifty
        (url_ok : bool) (JSON_parse : string -> option message) (tr : list Input) :
  let s := sys_run url_ok JSON_parse tr (sys_initial url_ok) in
  mounted (world s) = true ->
  let s' := sys_step url_ok JSON_parse (User ResetFilters) s in
  obj_val (filterConfig (app s')) = default_filterConfig /\
  obj_val (sortConfig (app s')) = obj_val (sortConfig (app s)) /\
  current s' = current s /\
  (forall x, In x (view s') ->
     (0 <= current_price x)%Q /\ (0 <= volume x)%Q /\ (0 <= trade_count x)%Q) /\
  ((forall x, In x (current s) ->
      (0 <= current_price x)%Q /\ (0 <= volume x)%Q /\ (0 <= trade_count x)%Q) ->
   view s' = firstn 50 (sort_step (obj_val (sortConfig (app s))) (current s))).
Proof.
  intros s Hmt s'.
  assert (Hinv : sys_inv s) by apply sys_run_inv, sys_initial_inv.
  destruct (user_step url_ok JSON_parse ResetFilters s Hinv Hmt eq_refl)
    as (_ & _ & Hcur & Hfc & Hsc & Hview).
  fold s' in Hcur, Hfc, Hsc, Hview.
  split; [now rewrite Hfc|]. split; [now rewrite Hsc|]. split; [exact Hcur|].
  rewrite Hview. simpl obj_val. split.
  - intros x Hx. apply passes_default.
    unfold compute, truncate_step in Hx.
    rewrite array_slice_prefix in Hx by (simpl; lia).
    assert (Hx' : In x (sort_step (obj_val (sortConfig (app s)))
                          (filter_step default_filterConfig (current s)))).
    { rewrite <- (firstn_skipn (Z.to_nat (displayCount default_filterConfig))).
      apply in_or_app. now left. }
    apply array_sort_In in Hx'. now apply filter_In in Hx'.
  - intros Hall. unfold compute, truncate_step.
    rewrite array_slice_prefix by (simpl; lia).
    change (Z.to_nat (displayCount default_filterConfig)) with 50%nat.
    f_equal. f_equal. unfold filter_step.
    clear -Hall. induction (current s) as [|a l IH]; simpl; [reflexivity|].
    assert (Ha : passes default_filterConfig a = true)
      by (apply passes_default, Hall; now left).
    rewrite Ha. f_equal. apply IH. intros x Hx. apply Hall. now right.
Qed.

(* ================================================================== *)
(** * The lists of the statistics panel *)
(* ================================================================== *)

Lemma Qsign_le (q : Q) : Qsign q <= 0 <-> (q <= 0)%Q.
Proof.
  unfold Qsign, Qle. destruct q as [n d]. simpl. rewrite Z.mul_1_r. lia.
Qed.

Lemma Qsign_pos (q : Q) : 0 < Qsign q <-> (0 < q)%Q.
Proof.
  unfold Qsign, Qlt. destruct q as [n d]. simpl. rewrite Z.mul_1_r. lia.
Qed.

Lemma by_desc_le (f : Snapshot -> Q) (a b : Snapshot) :
  by_desc f a b <= 0 <-> (f b <= f a)%Q.
Proof.
  unfold by_desc. rewrite Qsign_le. split; intros H.
  - apply Qplus_le_l with (z := (- f a)%Q). now rewrite Qplus_opp_r.
  - apply Qplus_le_l with (z := (- f a)%Q) in H. now rewrite Qplus_opp_r in H.
Qed.

Lemma by_desc_total (f : Snapshot -> Q) (x y : Snapshot) :
  0 < by_desc f x y -> by_desc f y x <= 0.
Proof.
  intros H. apply by_desc_le.
  destruct (Qlt_le_dec (f y) (f x)) as [Hlt|Hle]; [|exact Hle].
  exfalso. assert (Hle : by_desc f x y <= 0) by (apply by_desc_le; now apply Qlt_le_weak).
  lia.
Qed.

Lemma by_desc_trans (f : Snapshot -> Q) (x y z : Snapshot) :
  by_desc f x y <= 0 -> by_desc f y z <= 0 -> by_desc f x z <= 0.
Proof.
  rewrite !by_desc_le. intros Hxy Hyz. now apply Qle_trans with (f y).
Qed.

Lemma by_desc_ordered (f : Snapshot -> Q) (l : list Snapshot) :
  ordered (by_desc f) (array_sort (by_desc f) l).
Proof.
  apply array_sort_ordered; [apply by_desc_total | apply by_desc_trans].
Qed.

Lemma array_slice_last {A : Type} (n : Z) (l : list A) :
  0 < n ->
  array_slice (- n) (Z.of_nat (length l)) l =
  skipn (length l - Z.to_nat n) l.
Proof.
  intros Hn. unfold array_slice, slice_index.
  set (len := Z.of_nat (length l)).
  assert (Hk : Z.to_nat (if - n <? 0 then Z.max (len + - n) 0 else Z.min (- n) len) =
               (length l - Z.to_nat n)%nat).
  { destruct (- n <? 0) eqn:E.
    - subst len. lia.
    - apply Z.ltb_ge in E. subst len. lia. }
  rewrite Hk. apply firstn_all2. rewrite length_skipn.
  destruct (len <? 0) eqn:E; [apply Z.ltb_lt in E; subst len; lia|].
  destruct (- n <? 0) eqn:E'; subst len; lia.
Qed.

Lemma formatStockList_map (items : list Snapshot) (type : string)
      (valueKey : Snapshot -> Q) (formatFn : Q -> string) :
  formatStockList items type valueKey formatFn =
  List.map (entry_of valueKey formatFn) (firstn 5 items).
Proof.
  unfold formatStockList. rewrite array_slice_prefix by lia. reflexivity.
Qed.

(** The first five of a list sorted by [f], descending: the five largest. *)
Lemma top_five (f : Snapshot -> Q) (l : list Snapshot) :
  let sorted := array_sort (by_desc f) l in
  Permutation (firstn 5 sorted ++ skipn 5 sorted) l /\
  length (firstn 5 sorted) = Nat.min 5 (length l) /\
  ordered (by_desc f) (firstn 5 sorted) /\
  (forall x y, In x (firstn 5 sorted) -> In y (skipn 5 sorted) -> (f y <= f x)%Q).
Proof.
  intros sorted. split; [|split; [|split]].
  - rewrite firstn_skipn. apply array_sort_perm.
  - rewrite length_firstn. subst sorted. now rewrite array_sort_length.
  - clear. subst sorted. generalize (by_desc_ordered f l).
    generalize (array_sort (by_desc f) l). intros m H. revert H.
    generalize 5%nat. intros n H. revert n.
    induction H as [|a m Hm IH Ha]; intros [|n]; simpl; try constructor.
    + apply IH.
    + rewrite List.Forall_forall in Ha |- *. intros x Hx. apply Ha.
      rewrite <- (firstn_skipn n m). apply in_or_app. now left.
  - intros x y Hx Hy. apply by_desc_le.
    apply (ordered_split (by_desc f) 5 sorted); auto. apply by_desc_ordered.
Qed.

(** The last five of the same list: the five smallest. *)
Lemma bottom_five (f : Snapshot -> Q) (l : list Snapshot) :
  let sorted := array_sort (by_desc f) l in
  let n := (length l - 5)%nat in
  Permutation (firstn n sorted ++ skipn n sorted) l /\
  length (skipn n sorted) = Nat.min 5 (length l) /\
  (forall x y, In x (skipn n sorted) -> In y (firstn n sorted) -> (f x <= f y)%Q).
Proof.
  intros sorted n. split; [|split].
  - rewrite firstn_skipn. apply array_sort_perm.
  - rewrite length_skipn. subst sorted n. rewrite array_sort_length. lia.
  - intros x y Hx Hy. apply by_desc_le.
    apply (ordered_split (by_desc f) n sorted); auto. apply by_desc_ordered.
Qed.

Section StatsFacts.
Variable formatPrice : Q -> string.
Variable formatLargeNumber : Q -> string.
Variable toFixed1 : number -> string.

Lemma stats_some (stocks : list Snapshot) :
  stocks <> [] ->
  exists st, stats formatPrice formatLargeNumber toFixed1 stocks = Some st /\
    marketTrend st =
      (let gainers := List.filter (fun stock => negb (Qle_bool (percent_change stock) 0)) stocks in
       mkMarketTrend (length gainers) (length stocks - length gainers)
                     (toFixed1 (percent_up (length gainers) (length stocks)))) /\
    topGainers st =
      List.map (entry_of current_price formatPrice)
               (firstn 5 (array_sort (by_desc percent_change) stocks)) /\
    topLosers st =
      List.map (entry_of current_price formatPrice)
               (firstn 5 (rev (skipn (length stocks - 5)
                                 (array_sort (by_desc percent_change) stocks)))) /\
    mostActiveVolume st =
      List.map (entry_of volume formatLargeNumber)
               (firstn 5 (array_sort (by_desc volume) stocks)) /\
    mostActiveTrades st =
      List.map (entry_of trade_count formatLargeNumber)
               (firstn 5 (array_sort (by_desc trade_count) stocks)).
Proof.
  intros Hne. unfold stats. destruct stocks as [|s l]; [contradiction|].
  change (length (s :: l) =? 0)%nat with false. cbv iota.
  eexists. split; [reflexivity|].
  cbn [marketTrend topGainers topLosers mostActiveVolume mostActiveTrades].
  rewrite !formatStockList_map.
  split; [reflexivity|]. split; [reflexivity|]. split; [|split; reflexivity].
  fold (by_desc percent_change).
  change (fun a b : Snapshot => Qsign (percent_change b - percent_change a))
    with (by_desc percent_change).
  rewrite (array_slice_last 5) by lia.
  rewrite array_sort_length. reflexivity.
Qed.
End StatsFacts.

(** X13.  For a non-empty list of snapshots: gainers and losers together
    are all the snapshots; the gainers are the snapshots whose change is
    above 0, so a change of exactly 0 counts as a loser; the ratio printed
    is [toFixed(1)] of the double [(gainers / length) * 100]; it is that of
    0 when no snapshot rises and that of 100 when every snapshot does. *)
Theorem market_trend_counts
        (formatPrice formatLargeNumber : Q -> string) (toFixed1 : number -> string)
        (stocks : list Snapshot) :
  stocks <> [] ->
  exists st, stats formatPrice formatLargeNumber toFixed1 stocks = Some st /\
    (gainers (marketTrend st) + losers (marketTrend st) = length stocks)%nat /\
    gainers (marketTrend st) =
      length (List.filter (fun x => negb (Qle_bool (percent_change x) 0)) stocks) /\
    ratio (marketTrend st) =
      toFixed1 (percent_up (gainers (marketTrend st)) (length stocks)) /\
    ((forall x, In x stocks -> (percent_change x <= 0)%Q) ->
     gainers (marketTrend st) = 0%nat /\ losers (marketTrend st) = length stocks /\
     ratio (marketTrend st) = toFixed1 (Fin 0)) /\
    ((forall x, In x stocks -> (0 < percent_change x)%Q) ->
     gainers (marketTrend st) = length stocks /\ losers (marketTrend st) = 0%nat /\
     ratio (marketTrend st) = toFixed1 (Fin 100)).
Proof.
  intros Hne.
  destruct (stats_some formatPrice formatLargeNumber toFixed1 stocks Hne)
    as (st & Hst & Htrend & _).
  exists st. split; [exact Hst|]. rewrite Htrend. cbv zeta. cbn [gainers losers ratio].
  set (g := List.filter _ stocks).
  assert (Hg : (length g <= length stocks)%nat) by apply List.filter_length_le.
  assert (Hlen : (0 < length stocks)%nat).
  { destruct stocks; [contradiction | simpl; lia]. }
  assert (Hnz : Qeq_bool (inject_Z (Z.of_nat (length stocks))) 0 = false).
  { destruct (Qeq_bool _ 0) eqn:E; [|reflexivity].
    apply Qeq_bool_iff in E. unfold Qeq in E. simpl in E. lia. }
  split; [lia|]. split; [reflexivity|]. split; [reflexivity|]. split.
  - intros Hall. assert (E : g = []).
    { subst g. clear -Hall. induction stocks as [|a l IH]; simpl; [reflexivity|].
      assert (Ha : Qle_bool (percent_change a) 0 = true)
        by (apply Qle_bool_iff, Hall; now left).
      rewrite Ha. simpl. apply IH. intros x Hx. apply Hall. now right. }
    rewrite E. cbn [length]. split; [reflexivity|]. split; [lia|]. f_equal.
    unfold percent_up, fdiv. rewrite Hnz.
    rewrite (round64_proper _ 0) by (unfold Qdiv; apply Qmult_0_l).
    reflexivity.
  - intros Hall. assert (E : g = stocks).
    { subst g. clear -Hall. induction stocks as [|a l IH]; simpl; [reflexivity|].
      assert (Ha : Qle_bool (percent_change a) 0 = false).
      { destruct (Qle_bool _ 0) eqn:B; [|reflexivity].
        apply Qle_bool_iff in B. specialize (Hall a (or_introl eq_refl)).
        exfalso. apply (Qlt_not_le _ _ Hall B). }
      rewrite Ha. simpl. f_equal. apply IH. intros x Hx. apply Hall. now right. }
    rewrite E. split; [reflexivity|]. split; [lia|]. f_equal.
    unfold percent_up, fdiv. rewrite Hnz.
    rewrite (round64_proper _ 1).
    + reflexivity.
    + apply Qmult_inv_r. intros E0. apply Qeq_bool_neq in Hnz. contradiction.
Qed.

(** X14.  For a non-empty list of snapshots, [topGainers] lists at most
    five of them (all of them up to five), in descending order of change,
    none with a smaller change than a snapshot left out; [topLosers] lists
    at most five, in ascending order of change, none with a larger change
    than a snapshot left out.  The entries carry the symbol, the change and
    the formatted price. *)
Theorem top_gainers_and_losers
        (formatPrice formatLargeNumber : Q -> string) (toFixed1 : number -> string)
        (stocks : list Snapshot) :
  stocks <> [] ->
  exists st, stats formatPrice formatLargeNumber toFixed1 stocks = Some st /\
    (exists top rest,
       topGainers st = List.map (entry_of current_price formatPrice) top /\
       Permutation (top ++ rest) stocks /\
       length top = Nat.min 5 (length stocks) /\
       ordered (by_desc percent_change) top /\
       forall x y, In x top -> In y rest ->
                   (percent_change y <= percent_change x)%Q) /\
    (exists bottom rest,
       topLosers st = List.map (entry_of current_price formatPrice) (rev bottom) /\
       Permutation (rest ++ bottom) stocks /\
       length bottom = Nat.min 5 (length stocks) /\
       ordered (by_desc percent_change) bottom /\
       forall x y, In x bottom -> In y rest ->
                   (percent_change x <= percent_change y)%Q).
Proof.
  intros Hne.
  destruct (stats_some formatPrice formatLargeNumber toFixed1 stocks Hne)
    as (st & Hst & _ & Hg & Hl & _).
  exists st. split; [exact Hst|]. split.
  - destruct (top_five percent_change stocks) as (Hperm & Hlen & Hord & Htop).
    eexists _, _. split; [exact Hg|]. repeat split; eauto.
  - destruct (bottom_five percent_change stocks) as (Hperm & Hlen & Hbot).
    eexists _, _. split; [|split; [exact Hperm|split; [exact Hlen|split; [|exact Hbot]]]].
    + rewrite Hl. f_equal. apply firstn_all2. rewrite length_rev, Hlen. lia.
    + clear. generalize (by_desc_ordered percent_change stocks).
      generalize (array_sort (by_desc percent_change) stocks).
      generalize (length stocks - 5)%nat.
      intros n m H. revert n. induction H as [|a m Hm IH Ha]; intros [|n]; simpl;
        try constructor; auto.
Qed.

(** X15.  For a non-empty list of snapshots, [mostActiveVolume] and
    [mostActiveTrades] list at most five snapshots (all of them up to five)
    in descending order of volume and of trade count, none with a smaller
    value than a snapshot left out, each entry with the value in large-number
    format. *)
Theorem most_active_lists
        (formatPrice formatLargeNumber : Q -> string) (toFixed1 : number -> string)
        (stocks : list Snapshot) :
  stocks <> [] ->
  exists st, stats formatPrice formatLargeNumber toFixed1 stocks = Some st /\
    (exists top rest,
       mostActiveVolume st = List.map (entry_of volume formatLargeNumber) top /\
       Permutation (top ++ rest) stocks /\
       length top = Nat.min 5 (length stocks) /\
       ordered (by_desc volume) top /\
       forall x y, In x top -> In y rest -> (volume y <= volume x)%Q) /\
    (exists top rest,
       mostActiveTrades st = List.map (entry_of trade_count formatLargeNumber) top /\
       Permutation (top ++ rest) stocks /\
       length top = Nat.min 5 (length stocks) /\
       ordered (by_desc trade_count) top /\
       forall x y, In x top -> In y rest -> (trade_count y <= trade_count x)%Q).
Proof.
  intros Hne.
  destruct (stats_some formatPrice formatLargeNumber toFixed1 stocks Hne)
    as (st & Hst & _ & _ & _ & Hv & Ht).
  exists st. split; [exact Hst|]. split.
  - destruct (top_five volume stocks) as (Hperm & Hlen & Hord & Htop).
    eexists _, _. split; [exact Hv|]. repeat split; eauto.
  - destruct (top_five trade_count stocks) as (Hperm & Hlen & Hord & Htop).
    eexists _, _. split; [exact Ht|]. repeat split; eauto.
Qed.

(** X16.  With five snapshots or fewer, every snapshot is both a top
    gainer and a top loser: [topGainers] has one entry for each snapshot and
    [topLosers] is the same list reversed. *)
Theorem few_stocks_lists_mirror
        (formatPrice formatLargeNumber : Q -> string) (toFixed1 : number -> string)
        (stocks : list Snapshot) :
  stocks <> [] -> (length stocks <= 5)%nat ->
  exists st, stats formatPrice formatLargeNumber toFixed1 stocks = Some st /\
    length (topGainers st) = length stocks /\
    topLosers st = rev (topGainers st).
Proof.
  intros Hne Hlen.
  destruct (stats_some formatPrice formatLargeNumber toFixed1 stocks Hne)
    as (st & Hst & _ & Hg & Hl & _).
  exists st. split; [exact Hst|]. rewrite Hg, Hl.
  replace (length stocks - 5)%nat with 0%nat by lia. rewrite skipn_0.
  rewrite !firstn_all2 by (rewrite ?length_rev, array_sort_length; exact Hlen).
  split.
  - now rewrite length_map, array_sort_length.
  - now rewrite map_rev.
Qed.

(** X17.  When all snapshots have the same change, the sort decides
    nothing: [topGainers] are the first five snapshots in the order of the
    message and [topLosers] the last five in reverse order. *)
Theorem sorted_message_keeps_order
        (formatPrice formatLargeNumber : Q -> string) (toFixed1 : number -> string)
        (stocks : list Snapshot) :
  stocks <> [] ->
  (forall x y, In x stocks -> In y stocks -> (percent_change x == percent_change y)%Q) ->
  exists st, stats formatPrice formatLargeNumber toFixed1 stocks = Some st /\
    topGainers st = List.map (entry_of current_price formatPrice) (firstn 5 stocks) /\
    topLosers st = List.map (entry_of current_price formatPrice)
                            (rev (skipn (length stocks - 5) stocks)).
Proof.
  intros Hne Heq.
  destruct (stats_some formatPrice formatLargeNumber toFixed1 stocks Hne)
    as (st & Hst & _ & Hg & Hl & _).
  exists st. split; [exact Hst|].
  assert (Hord : ordered (by_desc percent_change) stocks).
  { clear -Heq. induction stocks as [|a l IH]; constructor.
    - apply IH. intros x y Hx Hy. apply Heq; now right.
    - apply List.Forall_forall. intros x Hx. apply by_desc_le.
      rewrite (Heq x a); [apply Qle_refl | now right | now left]. }
  assert (Hid : array_sort (by_desc percent_change) stocks = stocks).
  { clear -Hord. induction Hord as [|a l Hl IH Ha]; simpl; [reflexivity|].
    rewrite IH. destruct l as [|b l]; simpl; [reflexivity|].
    inversion Ha as [|? ? Hab _]; subst.
    destruct (0 <? by_desc percent_change a b) eqn:E; [|reflexivity].
    apply Z.ltb_lt in E. lia. }
  rewrite Hg, Hl, Hid. split; [reflexivity|].
  f_equal. apply firstn_all2. rewrite length_rev, length_skipn. lia.
Qed.

(* ================================================================== *)
(** * The chart modal *)
(* ================================================================== *)

(** X18.  A click on a symbol opens the modal in its loading state.  When
    the request ends, loading is over and the symbol is the one clicked.  On
    success the error is clear and the modal shows the points received, or
    'No data available' when there are none.  On failure the trades of the
    previous symbol are kept, and the modal shows either an error message
    that is not empty or, when the message is empty or missing, the previous
    symbol's trades under the new symbol; that is so in particular when the
    server answers [success: false] without an [error]. *)
Theorem symbol_click_outcome (d : SymbolClick.Detail) (symbol : string)
        (r : SymbolClick.Response) :
  let d' := SymbolClick.settle r (SymbolClick.click symbol d) in
  SymbolClick.modalView (SymbolClick.click symbol d) = SymbolClick.Loading /\
  SymbolClick.isLoading d' = false /\
  SymbolClick.selectedSymbol d' = Some symbol /\
  (forall data err, r = SymbolClick.Json true data err ->
     SymbolClick.error d' = None /\
     SymbolClick.modalView d' =
       SymbolClick.dataView (List.map SymbolClick.chartPoint data)) /\
  (SymbolClick.failed r = true ->
     SymbolClick.historicalData d' = SymbolClick.historicalData d /\
     (SymbolClick.modalView d' = SymbolClick.dataView (SymbolClick.historicalData d) \/
      exists message, message <> EmptyString /\
        SymbolClick.error d' = Some message /\
        SymbolClick.modalView d' = SymbolClick.ShowError message)) /\
  (forall data, r = SymbolClick.Json false data None ->
     SymbolClick.modalView d' = SymbolClick.dataView (SymbolClick.historicalData d)).
Proof.
  intros d'. subst d'. split; [reflexivity|]. split; [reflexivity|].
  split; [now destruct r as [m|st|[] data err]|]. split; [|split].
  - intros data err ->. split; reflexivity.
  - intros Hf. destruct r as [m|st|[] data err]; try discriminate Hf;
      (split; [reflexivity|]).
    + destruct m as [|c m]; [left; reflexivity|].
      right. eexists. split; [|split; reflexivity]. discriminate.
    + right. eexists. split; [|split; reflexivity]. discriminate.
    + destruct err as [[|c m]|]; [left; reflexivity | | left; reflexivity].
      right. eexists. split; [|split; reflexivity]. discriminate.
  - intros data ->. reflexivity.
Qed.

(** X19.  Responses are not matched to requests.  After any sequence of
    clicks, responses and closings, the symbol shown is that of the last
    click and the trades are those of the last successful response, whichever
    request it answers; any response ends the loading state, also while a
    later request is still running; so after clicks on [a] and then [b], the
    response to the request for [a] is shown under the symbol [b]. *)
Theorem chart_follows_last_response (tr : list SymbolClick.Ev) (d : SymbolClick.Detail) :
  SymbolClick.selectedSymbol (SymbolClick.modal_run tr d) =
    SymbolClick.lastClicked tr (SymbolClick.selectedSymbol d) /\
  SymbolClick.historicalData (SymbolClick.modal_run tr d) =
    SymbolClick.lastLoaded tr (SymbolClick.historicalData d) /\
  (forall r,
     SymbolClick.isLoading (SymbolClick.modal_run (tr ++ [SymbolClick.Settle r]) d) = false) /\
  (forall a b data err,
     let d' := SymbolClick.modal_run (tr ++ [SymbolClick.Click a; SymbolClick.Click b;
                                       SymbolClick.Settle (SymbolClick.Json true data err)]) d in
     SymbolClick.selectedSymbol d' = Some b /\
     SymbolClick.modalView d' =
       SymbolClick.dataView (List.map SymbolClick.chartPoint data)).
Proof.
  assert (Hsel : forall tr d, SymbolClick.selectedSymbol (SymbolClick.modal_run tr d) =
                   SymbolClick.lastClicked tr (SymbolClick.selectedSymbol d)).
  { clear. induction tr as [|e tr IH]; intros d; [reflexivity|].
    unfold SymbolClick.modal_run, SymbolClick.lastClicked in *. simpl. rewrite IH.
    f_equal. destruct e as [s|[m|st|[] data err]|]; reflexivity. }
  assert (Hdat : forall tr d, SymbolClick.historicalData (SymbolClick.modal_run tr d) =
                   SymbolClick.lastLoaded tr (SymbolClick.historicalData d)).
  { clear. induction tr as [|e tr IH]; intros d; [reflexivity|].
    unfold SymbolClick.modal_run, SymbolClick.lastLoaded in *. simpl. rewrite IH.
    f_equal. destruct e as [s|[m|st|[] data err]|]; reflexivity. }
  split; [apply Hsel|]. split; [apply Hdat|]. split.
  - intros r. unfold SymbolClick.modal_run. rewrite fold_left_app. reflexivity.
  - intros a b data err d'. subst d'. unfold SymbolClick.modal_run.
    rewrite fold_left_app. simpl. split; reflexivity.
Qed.

Lemma fold_min_le (xs : list Q) (x y : Q) :
  In y (x :: xs) -> (fold_left Qmin xs x <= y)%Q.
Proof.
  revert x y. induction xs as [|a xs IH]; intros x y Hy; simpl.
  - destruct Hy as [Hy|[]]. rewrite Hy. apply Qle_refl.
  - destruct Hy as [Hy|[Hy|Hy]].
    + rewrite <- Hy.
      apply Qle_trans with (Qmin x a); [apply IH; now left | apply Q.le_min_l].
    + rewrite <- Hy.
      apply Qle_trans with (Qmin x a); [apply IH; now left | apply Q.le_min_r].
    + apply IH. now right.
Qed.

Lemma fold_max_ge (xs : list Q) (x y : Q) :
  In y (x :: xs) -> (y <= fold_left Qmax xs x)%Q.
Proof.
  revert x y. induction xs as [|a xs IH]; intros x y Hy; simpl.
  - destruct Hy as [Hy|[]]. rewrite Hy. apply Qle_refl.
  - destruct Hy as [Hy|[Hy|Hy]].
    + rewrite <- Hy.
      apply Qle_trans with (Qmax x a); [apply Q.le_max_l | apply IH; now left].
    + rewrite <- Hy.
      apply Qle_trans with (Qmax x a); [apply Q.le_max_r | apply IH; now left].
    + apply IH. now right.
Qed.

(** X20.  For a non-empty list of trades the price axis starts at 0 or
    above and its range holds every price that is not negative; the volume
    axis starts at 0 and holds every volume that is not negative. *)
Theorem chart_domains_hold_the_data (trades : list SymbolClick.Trade) :
  trades <> [] ->
  (exists lo hi, TradeChart.yDomain trades = Some (lo, hi) /\
     (0 <= lo)%Q /\
     forall t, In t trades ->
       (SymbolClick.price t <= hi)%Q /\
       ((0 <= SymbolClick.price t)%Q -> (lo <= SymbolClick.price t)%Q)) /\
  (exists top, TradeChart.volumeDomain trades = Some (0%Q, top) /\
     forall t, In t trades -> (0 <= SymbolClick.volume t)%Q ->
       (SymbolClick.volume t <= top)%Q).
Proof.
  intros Hne. destruct trades as [|t0 ts]; [contradiction|].
  unfold TradeChart.yDomain, TradeChart.volumeDomain, TradeChart.prices,
    TradeChart.volumes. simpl.
  set (mn := fold_left Qmin (List.map SymbolClick.price ts) (SymbolClick.price t0)).
  set (mx := fold_left Qmax (List.map SymbolClick.price ts) (SymbolClick.price t0)).
  set (mv := fold_left Qmax (List.map SymbolClick.volume ts) (SymbolClick.volume t0)).
  assert (Hmn : forall t, In t (t0 :: ts) -> (mn <= SymbolClick.price t)%Q).
  { intros t Ht. apply fold_min_le. change (In (SymbolClick.price t)
      (List.map SymbolClick.price (t0 :: ts))). now apply in_map. }
  assert (Hmx : forall t, In t (t0 :: ts) -> (SymbolClick.price t <= mx)%Q).
  { intros t Ht. apply fold_max_ge. change (In (SymbolClick.price t)
      (List.map SymbolClick.price (t0 :: ts))). now apply in_map. }
  assert (Hmv : forall t, In t (t0 :: ts) -> (SymbolClick.volume t <= mv)%Q).
  { intros t Ht. apply fold_max_ge. change (In (SymbolClick.volume t)
      (List.map SymbolClick.volume (t0 :: ts))). now apply in_map. }
  assert (Hle : (mn <= mx)%Q)
    by (apply Qle_trans with (SymbolClick.price t0); [apply Hmn | apply Hmx]; now left).
  clearbody mn mx mv.
  split.
  - eexists _, _. split; [reflexivity|]. split; [apply Q.le_max_l|].
    intros t Ht. specialize (Hmn t Ht). specialize (Hmx t Ht). split.
    + lra.
    + intros Hpos. apply Q.max_lub; [exact Hpos | lra].
  - eexists. split; [reflexivity|]. intros t Ht Hpos.
    specialize (Hmv t Ht). lra.
Qed.

(* ================================================================== *)
(** * The theme *)
(* ================================================================== *)

(** X22.  The theme survives a reload.  For JSON values that
    [JSON.parse] reads back as [JSON.stringify] wrote them: after loading
    the page and any number of clicks on the theme button, loading the page
    again over the stored entry gives the same state; the document carries
    the class ['dark'] exactly when the theme is truthy; each click flips the
    theme; and on a first visit, with nothing stored, the theme is light
    until the button is clicked. *)
Theorem theme_survives_reload
        (value : Type) (JSON_parse : string -> option value)
        (JSON_stringify : value -> string) (of_bool : bool -> value)
        (truthy : value -> bool) (saved : option string) (clicks : nat)
        (s0 : Theme.State value) :
  (forall v, JSON_parse (JSON_stringify v) = Some v) ->
  (forall v, JSON_stringify v <> EmptyString) ->
  (forall b, truthy (of_bool b) = b) ->
  Theme.load JSON_parse JSON_stringify of_bool truthy saved = Some s0 ->
  let s := Nat.iter clicks (Theme.toggle JSON_stringify of_bool truthy) s0 in
  Theme.load JSON_parse JSON_stringify of_bool truthy (Theme.darkTheme s) = Some s /\
  Theme.dark s = truthy (Theme.isDarkTheme s) /\
  truthy (Theme.isDarkTheme s) =
    (if Nat.even clicks then truthy (Theme.isDarkTheme s0)
     else negb (truthy (Theme.isDarkTheme s0))) /\
  (saved = None -> truthy (Theme.isDarkTheme s) = Nat.odd clicks).
Proof.
  intros Hrt Hne Htr Hload s.
  assert (Heff : forall st, (exists v, st = Theme.effect JSON_stringify truthy v) ->
            Theme.load JSON_parse JSON_stringify of_bool truthy (Theme.darkTheme st)
              = Some st /\
            Theme.dark st = truthy (Theme.isDarkTheme st)).
  { intros st [v ->]. simpl. split; [|reflexivity].
    unfold Theme.load, Theme.initialTheme.
    destruct (JSON_stringify v) as [|c r] eqn:E; [now apply Hne in E|].
    rewrite <- E, Hrt. reflexivity. }
  assert (Hs0 : exists v, s0 = Theme.effect JSON_stringify truthy v).
  { unfold Theme.load in Hload.
    destruct (Theme.initialTheme JSON_parse of_bool saved) as [v|]; [|discriminate].
    exists v. now injection Hload as <-. }
  assert (Hs : (exists v, s = Theme.effect JSON_stringify truthy v) /\
               truthy (Theme.isDarkTheme s) =
                 (if Nat.even clicks then truthy (Theme.isDarkTheme s0)
                  else negb (truthy (Theme.isDarkTheme s0)))).
  { subst s. induction clicks as [|n [IHe IHt]].
    - split; [exact Hs0 | reflexivity].
    - split; [eexists; reflexivity|].
      change (Nat.iter (S n) (Theme.toggle JSON_stringify of_bool truthy) s0)
        with (Theme.toggle JSON_stringify of_bool truthy
                (Nat.iter n (Theme.toggle JSON_stringify of_bool truthy) s0)).
      unfold Theme.toggle at 1. simpl Theme.isDarkTheme. rewrite Htr, IHt.
      rewrite Nat.even_succ, <- Nat.negb_even.
      destruct (Nat.even n); [reflexivity | apply negb_involutive]. }
  destruct Hs as [Hs Hpar]. destruct (Heff s Hs) as [Hl Hd].
  split; [exact Hl|]. split; [exact Hd|]. split; [exact Hpar|].
  intros ->. rewrite Hpar. unfold Theme.load in Hload. simpl in Hload.
  injection Hload as <-. simpl. rewrite Htr, <- Nat.negb_even.
  now destruct (Nat.even clicks).
Qed.

(* ================================================================== *)
(** * The earlier hook *)
(* ================================================================== *)

Lemma ReadyState_eq_closed (r : ReadyState) : r = CLOSED \/ r <> CLOSED.
Proof. destruct r; (now left) || (right; discriminate). Qed.

Lemma legacy_close_closed (id : nat) (b : Browser) :
  Forall (eq CLOSED) (sockets b) -> Legacy.close id b = b.
Proof.
  intros H. unfold Legacy.close. destruct (sockets b !! id) as [r|] eqn:E; [|reflexivity].
  apply (closed_lookup _ _ _ H) in E. now subst r.
Qed.

Lemma legacy_live_count (s : Legacy.State) :
  legacy_up s \/ legacy_waiting s \/ legacy_down s ->
  (length (legacy_live s) + size (pending (Legacy.browser s)) <= 1)%nat.
Proof.
  unfold legacy_live. intros [Hup|[Hw|Hd]].
  - destruct Hup as (l & st & -> & Hl & Hst & _ & ->).
    rewrite List.filter_app, (filter_closed l Hl), size_empty. simpl.
    destruct st; simpl; lia.
  - destruct Hw as (Hl & t & ->). rewrite (filter_closed _ Hl), size_singleton.
    simpl. lia.
  - destruct Hd as (Hl & ->). rewrite (filter_closed _ Hl), size_empty.
    simpl. lia.
Qed.

Lemma legacy_mount_inv :
  exists s, Legacy.mount true = Some s /\ legacy_inv s /\ Legacy.mounted s = true.
Proof.
  eexists. split; [reflexivity|]. split; [|reflexivity].
  split; [constructor|]. split; [reflexivity|]. split; [reflexivity|].
  left. exists [], CONNECTING. repeat split; try constructor; discriminate.
Qed.

Lemma legacy_up_lookup (s : Legacy.State) (id : nat) (r : ReadyState) :
  legacy_up s -> sockets (Legacy.browser s) !! id = Some r -> r <> CLOSED ->
  exists l, sockets (Legacy.browser s) = l ++ [r] /\ Forall (eq CLOSED) l /\
            id = length l /\ Legacy.websocket s = Some (length l) /\
            pending (Legacy.browser s) = ∅.
Proof.
  intros (l & st & Hs & Hl & Hst & Hw & Hp) E Hr. rewrite Hs in E.
  destruct (live_lookup l st r id Hl E Hr) as [-> ->].
  exists l. auto.
Qed.

Lemma legacy_closed_lookup (s : Legacy.State) (id : nat) (r : ReadyState) :
  Forall (eq CLOSED) (sockets (Legacy.browser s)) ->
  sockets (Legacy.browser s) !! id = Some r -> r = CLOSED.
Proof. apply closed_lookup. Qed.

Lemma legacy_step_inv (e : Event) (s : Legacy.State) :
  legacy_inv s ->
  exists s', Legacy.step true e s = Some s' /\ legacy_inv s'.
Proof.
  intros (Ht & Hc & Hws & Hph).
  assert (Hsame : exists s', Some s = Some s' /\ legacy_inv s')
    by (exists s; split; [reflexivity | repeat split; assumption]).
  destruct e as [id|id data|id|id|t| |id]; simpl.
  - (* open *)
    destruct (sockets (Legacy.browser s) !! id) as [r|] eqn:E; [|exact Hsame].
    destruct r; try exact Hsame.
    destruct Hph as [Hup|[[Hl _]|[Hl _]]];
      try (apply (legacy_closed_lookup s id _ Hl) in E; discriminate E).
    destruct (legacy_up_lookup s id _ Hup E) as (l & Hs & Hl & -> & Hw & Hp);
      [discriminate|].
    eexists. split; [reflexivity|]. unfold legacy_inv, Legacy.set_browser,
      Legacy.set_readyState. simpl. rewrite Hs, insert_last.
    split; [exact Ht|]. split; [rewrite <- Hc, Hs, !length_app; reflexivity|].
    split; [exact Hws|]. left. exists l, OPEN. simpl.
    repeat split; try assumption. discriminate.
  - (* message *)
    assert (Hm : exists s', Some (Legacy.onmessage data s) = Some s' /\ legacy_inv s').
    { eexists. split; [reflexivity|]. unfold Legacy.onmessage.
      destruct (Legacy.mounted s); repeat split; assumption. }
    destruct (sockets (Legacy.browser s) !! id) as [[]|]; assumption.
  - (* close *)
    destruct (sockets (Legacy.browser s) !! id) as [r|] eqn:E; [|exact Hsame].
    destruct (ReadyState_eq_closed r) as [->|Hr]; [exact Hsame|].
    destruct Hph as [Hup|[[Hl _]|[Hl _]]];
      try (apply (legacy_closed_lookup s id _ Hl) in E; contradiction).
    destruct (legacy_up_lookup s id _ Hup E Hr) as (l & Hs & Hl & -> & Hw & Hp).
    assert (Hgoal : exists s',
      Some (Legacy.onclose (Legacy.set_browser
              (Legacy.set_readyState (length l) CLOSED (Legacy.browser s)) s)) = Some s' /\
      legacy_inv s').
    { eexists. split; [reflexivity|]. unfold legacy_inv, Legacy.onclose,
        Legacy.set_browser, Legacy.set_readyState, Legacy.setTimeout. simpl.
      rewrite Hs, insert_last, Hp.
      split; [apply Forall_app; split; [exact Ht | repeat constructor]|].
      split; [rewrite <- Hc, Hs, !length_app; reflexivity|].
      split; [exact Hws|]. right. left. split.
      - simpl. apply Forall_app. split; [exact Hl | repeat constructor].
      - eexists. simpl. apply (right_id_L ∅ (∪)). }
    destruct r; try exact Hgoal. contradiction.
  - exact Hsame.
  - (* timer *)
    destruct (bool_decide (t ∈ pending (Legacy.browser s))) eqn:B; [|exact Hsame].
    apply bool_decide_eq_true in B.
    destruct Hph as [Hup|[[Hl [t' Hp]]|[Hl Hp]]].
    + destruct Hup as (l & st & _ & _ & _ & _ & Hp). rewrite Hp in B.
      now apply not_elem_of_empty in B.
    + rewrite Hp in B. apply elem_of_singleton in B. subst t'.
      unfold Legacy.retry. simpl. destruct (Legacy.mounted s) eqn:Hm.
      * unfold Legacy.cleanup. simpl.
        assert (Hcl : forall b, sockets b = sockets (Legacy.browser s) ->
                  forall id, Legacy.close id b = b).
        { intros b Hb id0. apply legacy_close_closed. now rewrite Hb. }
        destruct (Legacy.websocket s) as [id0|]; simpl;
          try rewrite Hcl by reflexivity; simpl;
          (eexists; split; [reflexivity|]);
          unfold legacy_inv; simpl; rewrite Hp, difference_diag_L;
          (split; [exact Ht|]); (split; [rewrite length_app; simpl; lia|]);
          (split; [reflexivity|]); left;
          exists (sockets (Legacy.browser s)), CONNECTING; simpl;
          repeat split; try assumption; discriminate.
      * eexists. split; [reflexivity|]. unfold legacy_inv, Legacy.set_browser. simpl.
        rewrite Hp, difference_diag_L. repeat split; try assumption.
        right. right. split; [exact Hl | reflexivity].
    + rewrite Hp in B. now apply not_elem_of_empty in B.
  - (* unmount *)
    destruct (Legacy.mounted s) eqn:Hm; [|exact Hsame].
    eexists. split; [reflexivity|]. unfold legacy_inv, Legacy.cleanup. simpl.
    destruct Hph as [Hup|[[Hl Hp]|[Hl Hp]]].
    + destruct Hup as (l & st & Hs & Hl & Hst & Hw & Hp). rewrite Hw. simpl.
      unfold Legacy.close. rewrite Hs.
      rewrite (list_lookup_middle l [] st (length l) eq_refl).
      destruct st; simpl; try contradiction; rewrite ?Hs, ?insert_last;
        (split; [exact Ht|]);
        (split; [rewrite <- Hc, ?Hs, !length_app; reflexivity|]);
        (split; [exact Hws|]); left; eexists l, _; simpl; rewrite ?Hs;
        repeat split; try eassumption; try reflexivity; discriminate.
    + destruct (Legacy.websocket s) as [id0|] eqn:Hw; simpl;
        try rewrite (legacy_close_closed id0 _ Hl); simpl;
        (split; [exact Ht|]); (split; [exact Hc|]); (split; [congruence|]);
        right; left; split; assumption.
    + destruct (Legacy.websocket s) as [id0|] eqn:Hw; simpl;
        try rewrite (legacy_close_closed id0 _ Hl); simpl;
        (split; [exact Ht|]); (split; [exact Hc|]); (split; [congruence|]);
        right; right; split; assumption.
  - (* the peer starts closing *)
    destruct (sockets (Legacy.browser s) !! id) as [r|] eqn:E; [|exact Hsame].
    destruct r; try exact Hsame.
    destruct Hph as [Hup|[[Hl _]|[Hl _]]];
      try (apply (legacy_closed_lookup s id _ Hl) in E; discriminate E).
    destruct (legacy_up_lookup s id _ Hup E) as (l & Hs & Hl & -> & Hw & Hp);
      [discriminate|].
    eexists. split; [reflexivity|]. unfold legacy_inv, Legacy.set_browser,
      Legacy.set_readyState. simpl. rewrite Hs, insert_last.
    split; [exact Ht|]. split; [rewrite <- Hc, Hs, !length_app; reflexivity|].
    split; [exact Hws|]. left. exists l, CLOSING. simpl.
    repeat split; try assumption. discriminate.
Qed.

Lemma legacy_run_inv (tr : list Event) (s : Legacy.State) :
  legacy_inv s -> exists s', Legacy.run true tr s = Some s' /\ legacy_inv s'.
Proof.
  revert s. induction tr as [|e tr IH]; intros s H; simpl.
  - now exists s.
  - destruct (legacy_step_inv e s H) as (s1 & -> & H1). now apply IH.
Qed.

Lemma legacy_unmount_torn (s : Legacy.State) :
  legacy_inv s -> Legacy.mounted s = true ->
  exists s', Legacy.step true Unmount s = Some s' /\
    legacy_torn (length (sockets (Legacy.browser s))) (Legacy.reconnectCount s)
                (Legacy.lastMessage s) (length (timeouts (Legacy.browser s))) s'.
Proof.
  intros (Ht & Hc & Hws & Hph) Hm. simpl. rewrite Hm.
  eexists. split; [reflexivity|]. unfold legacy_torn, Legacy.cleanup. simpl.
  destruct Hph as [Hup|[[Hl _]|[Hl _]]].
  - destruct Hup as (l & st & Hs & Hl & Hst & Hw & Hp). rewrite Hw. simpl.
    unfold Legacy.close. rewrite Hs.
    rewrite (list_lookup_middle l [] st (length l) eq_refl).
    destruct st; simpl; try contradiction; rewrite ?Hs, ?insert_last;
      (split; [reflexivity|]); (split; [now rewrite !length_app|]);
      (split; [reflexivity|]); (split; [reflexivity|]); left;
      (split; [|reflexivity]); eexists l, _; simpl; rewrite ?Hs;
      repeat split; try eassumption; try reflexivity; discriminate.
  - destruct (Legacy.websocket s) as [id0|]; simpl;
      try rewrite (legacy_close_closed id0 _ Hl); simpl;
      repeat split; right; split; [exact Hl | lia | exact Hl | lia].
  - destruct (Legacy.websocket s) as [id0|]; simpl;
      try rewrite (legacy_close_closed id0 _ Hl); simpl;
      repeat split; right; split; [exact Hl | lia | exact Hl | lia].
Qed.

Lemma legacy_torn_step (url_ok : bool) (n : nat) (c : Z) (m : option string) (k : nat)
      (e : Event) (s : Legacy.State) :
  legacy_torn n c m k s ->
  exists s', Legacy.step url_ok e s = Some s' /\ legacy_torn n c m k s'.
Proof.
  intros (Hm & Hn & Hc & Hl & Hph).
  assert (Hsame : exists s', Some s = Some s' /\ legacy_torn n c m k s')
    by (exists s; split; [reflexivity | repeat split; assumption]).
  destruct e as [id|id data|id|id|t| |id]; simpl.
  - destruct (sockets (Legacy.browser s) !! id) as [r|] eqn:E; [|exact Hsame].
    destruct r; try exact Hsame.
    destruct Hph as [[Hup Hk]|[Hcl _]];
      [|apply (legacy_closed_lookup s id _ Hcl) in E; discriminate E].
    destruct (legacy_up_lookup s id _ Hup E) as (l & Hs & Hcl & -> & Hw & Hp);
      [discriminate|].
    eexists. split; [reflexivity|]. unfold legacy_torn, Legacy.set_browser,
      Legacy.set_readyState. simpl. rewrite Hs, insert_last.
    split; [exact Hm|]. split; [rewrite <- Hn, Hs, !length_app; reflexivity|].
    split; [exact Hc|]. split; [exact Hl|]. left. split; [|exact Hk].
    exists l, OPEN. simpl. repeat split; try assumption. discriminate.
  - unfold Legacy.onmessage. rewrite Hm.
    destruct (sockets (Legacy.browser s) !! id) as [[]|]; exact Hsame.
  - destruct (sockets (Legacy.browser s) !! id) as [r|] eqn:E; [|exact Hsame].
    destruct (ReadyState_eq_closed r) as [->|Hr]; [exact Hsame|].
    destruct Hph as [[Hup Hk]|[Hcl _]];
      [|apply (legacy_closed_lookup s id _ Hcl) in E; contradiction].
    destruct (legacy_up_lookup s id _ Hup E Hr) as (l & Hs & Hcl & -> & Hw & Hp).
    assert (Hgoal : exists s',
      Some (Legacy.onclose (Legacy.set_browser
              (Legacy.set_readyState (length l) CLOSED (Legacy.browser s)) s)) = Some s' /\
      legacy_torn n c m k s').
    { eexists. split; [reflexivity|]. unfold legacy_torn, Legacy.onclose,
        Legacy.set_browser, Legacy.set_readyState, Legacy.setTimeout. simpl.
      rewrite Hs, insert_last.
      split; [exact Hm|]. split; [rewrite <- Hn, Hs, !length_app; reflexivity|].
      split; [exact Hc|]. split; [exact Hl|]. right. split.
      - apply Forall_app. split; [exact Hcl | repeat constructor].
      - rewrite length_app. simpl. lia. }
    destruct r; try exact Hgoal. contradiction.
  - exact Hsame.
  - destruct (bool_decide (t ∈ pending (Legacy.browser s))) eqn:B; [|exact Hsame].
    apply bool_decide_eq_true in B. unfold Legacy.retry. simpl. rewrite Hm.
    eexists. split; [reflexivity|]. unfold legacy_torn. simpl.
    split; [exact Hm|]. split; [exact Hn|]. split; [exact Hc|]. split; [exact Hl|].
    destruct Hph as [[Hup Hk]|Hcl]; [|right; exact Hcl].
    destruct Hup as (l & st & _ & _ & _ & _ & Hp). rewrite Hp in B.
    now apply not_elem_of_empty in B.
  - rewrite Hm. exact Hsame.
  - destruct (sockets (Legacy.browser s) !! id) as [r|] eqn:E; [|exact Hsame].
    destruct r; try exact Hsame.
    destruct Hph as [[Hup Hk]|[Hcl _]];
      [|apply (legacy_closed_lookup s id _ Hcl) in E; discriminate E].
    destruct (legacy_up_lookup s id _ Hup E) as (l & Hs & Hcl & -> & Hw & Hp);
      [discriminate|].
    eexists. split; [reflexivity|]. unfold legacy_torn, Legacy.set_browser,
      Legacy.set_readyState. simpl. rewrite Hs, insert_last.
    split; [exact Hm|]. split; [rewrite <- Hn, Hs, !length_app; reflexivity|].
    split; [exact Hc|]. split; [exact Hl|]. left. split; [|exact Hk].
    exists l, CLOSING. simpl. repeat split; try assumption. discriminate.
Qed.

Lemma legacy_torn_run (url_ok : bool) (n : nat) (c : Z) (m : option string) (k : nat)
      (tr : list Event) (s : Legacy.State) :
  legacy_torn n c m k s ->
  exists s', Legacy.run url_ok tr s = Some s' /\ legacy_torn n c m k s'.
Proof.
  revert s. induction tr as [|e tr IH]; intros s H; simpl.
  - now exists s.
  - destruct (legacy_torn_step url_ok n c m k e s H) as (s1 & -> & H1). now apply IH.
Qed.

(** X23.  The earlier hook, for a URL the constructor accepts: every
    sequence of events runs without an exception; every retry is scheduled
    1000 milliseconds after the close, without back-off; the sockets
    constructed number one more than [reconnectCount]; and at most one socket
    that is not closed or one pending timer exists at a time. *)
Theorem legacy_retries_every_second (tr : list Event) :
  exists s0 s,
    Legacy.mount true = Some s0 /\ Legacy.run true tr s0 = Some s /\
    Forall (eq 1000) (timeouts (Legacy.browser s)) /\
    Z.of_nat (length (sockets (Legacy.browser s))) = Legacy.reconnectCount s + 1 /\
    (length (legacy_live s) + size (pending (Legacy.browser s)) <= 1)%nat.
Proof.
  destruct legacy_mount_inv as (s0 & Hmount & Hinv & _).
  destruct (legacy_run_inv tr s0 Hinv) as (s & Hrun & Ht & Hc & _ & Hph).
  exists s0, s. split; [exact Hmount|]. split; [exact Hrun|].
  split; [exact Ht|]. split; [exact Hc|]. now apply legacy_live_count.
Qed.

(** X24.  The earlier hook after teardown: whatever happens after the
    cleanup has run, no socket is constructed, [reconnectCount] and
    [lastMessage] stay as they were, and at most one more timer is set (by
    the close event of the socket the cleanup closed), whose callback does
    nothing. *)
Theorem legacy_teardown_constructs_no_socket
        (before after : list Event) (s0 s1 : Legacy.State) :
  Legacy.mount true = Some s0 ->
  Legacy.run true before s0 = Some s1 ->
  Legacy.mounted s1 = true ->
  exists s2,
    Legacy.run true (Unmount :: after) s1 = Some s2 /\
    Legacy.mounted s2 = false /\
    length (sockets (Legacy.browser s2)) = length (sockets (Legacy.browser s1)) /\
    Legacy.reconnectCount s2 = Legacy.reconnectCount s1 /\
    Legacy.lastMessage s2 = Legacy.lastMessage s1 /\
    (length (timeouts (Legacy.browser s2)) <=
     S (length (timeouts (Legacy.browser s1))))%nat.
Proof.
  intros Hmount Hrun Hm.
  destruct legacy_mount_inv as (s0' & Hmount' & Hinv & _).
  rewrite Hmount in Hmount'. injection Hmount' as <-.
  destruct (legacy_run_inv before s0 Hinv) as (s1' & Hrun' & Hinv1).
  rewrite Hrun in Hrun'. injection Hrun' as <-.
  destruct (legacy_unmount_torn s1 Hinv1 Hm) as (s' & Hstep & Htorn).
  destruct (legacy_torn_run true _ _ _ _ after s' Htorn)
    as (s2 & Hrun2 & Hm2 & Hn & Hc & Hl & Hph).
  exists s2. split.
  - change (Legacy.run true (Unmount :: after) s1)
      with (match Legacy.step true Unmount s1 with
            | Some s' => Legacy.run true after s'
            | None => None
            end).
    rewrite Hstep. exact Hrun2.
  - repeat split; try assumption.
    destruct Hph as [[_ Hk]|[_ Hk]]; lia.
Qed.

(* ================================================================== *)
(** * Further instances *)
(* ================================================================== *)

Lemma one_socket_or_one_timer_witness :
  (length (live_sockets (run true [SockOpen 0%nat; SockClose 0%nat] (mount true))) +
   size (pending (browser (run true [SockOpen 0%nat; SockClose 0%nat] (mount true))))
   <= 1)%nat.
Proof.
  exact (one_socket_or_one_timer true [SockOpen 0%nat; SockClose 0%nat]).
Defined.

Lemma connected_sends_unless_closing_witness :
  sendMessage "ping" (run true [SockOpen 0%nat] (mount true)) =
    Some (0%nat, "ping"%string) /\
  isConnected (run true [SockOpen 0%nat; PeerClosing 0%nat] (mount true)) = true /\
  sendMessage "ping" (run true [SockOpen 0%nat; PeerClosing 0%nat] (mount true)) = None.
Proof.
  pose proof (connected_sends_unless_closing true [SockOpen 0%nat] "ping" eq_refl) as H.
  cbv zeta in H. destruct H as [H1 H2]. split.
  - destruct (H1 eq_refl) as (id & Hws & [[_ Hsend]|[Hcl _]]).
    + vm_compute in Hws. injection Hws as <-. exact Hsend.
    + vm_compute in Hws. injection Hws as <-. vm_compute in Hcl. discriminate Hcl.
  - exact (H2 0%nat eq_refl eq_refl).
Defined.

Lemma status_while_retrying_witness :
  connectionStatus (hook (run true [SockOpen 0%nat; SockClose 0%nat] (mount true))) =
  disconnected.
Proof.
  pose proof (status_while_retrying true [SockOpen 0%nat; SockClose 0%nat] eq_refl) as H.
  cbv zeta in H. destruct H as (H & _). apply H.
  vm_compute. discriminate.
Defined.

Lemma teardown_after_close_is_final_witness :
  run true [TimerFire 0%nat; SockClose 0%nat]
      (step true Unmount (run true [SockOpen 0%nat; SockClose 0%nat] (mount true))) =
  step true Unmount (run true [SockOpen 0%nat; SockClose 0%nat] (mount true)).
Proof.
  pose proof (teardown_after_close_is_final true [SockOpen 0%nat; SockClose 0%nat]
                [TimerFire 0%nat; SockClose 0%nat]) as H.
  cbv zeta in H. destruct H as (_ & _ & _ & H).
  - reflexivity.
  - vm_compute. repeat constructor.
  - exact H.
Defined.

Lemma delays_are_six_values_witness :
  Forall (fun d => In d [1000; 2000; 4000; 8000; 16000; 30000])
         (timeouts (browser (run true [SockClose 0%nat; TimerFire 0%nat; SockClose 1%nat]
                                 (mount true)))).
Proof.
  exact (proj2 (delays_are_six_values true
                  [SockClose 0%nat; TimerFire 0%nat; SockClose 1%nat])).
Defined.

Lemma view_rows_are_current_and_pass_witness :
  ordered (comparator default_sortConfig)
          (compute [AAA; BBB; CCC] ceiling10 default_sortConfig).
Proof.
  exact (proj1 (proj2 (proj2
    (view_rows_are_current_and_pass [AAA; BBB; CCC] ceiling10 default_sortConfig)))).
Defined.

Lemma smaller_page_is_prefix_witness :
  compute [AAA; BBB; CCC]
          (mkFilterConfig (Finite 0) Infinity (Finite 0) Infinity (Finite 0) 2)
          default_sortConfig =
  firstn (Z.to_nat 2)
         (compute [AAA; BBB; CCC]
                  (mkFilterConfig (Finite 0) Infinity (Finite 0) Infinity (Finite 0) 50)
                  default_sortConfig).
Proof.
  apply smaller_page_is_prefix. lia.
Defined.

Lemma compute_idempotent_witness :
  compute (compute [AAA; BBB; CCC] ceiling10 default_sortConfig)
          ceiling10 default_sortConfig =
  compute [AAA; BBB; CCC] ceiling10 default_sortConfig.
Proof.
  apply compute_idempotent. simpl. lia.
Defined.

Lemma descending_is_reverse_of_ascending_witness :
  sort_step (mkSortConfig K_volume desc) [AAA; BBB; CCC] =
  rev (sort_step (mkSortConfig K_volume asc) [AAA; BBB; CCC]).
Proof.
  apply descending_is_reverse_of_ascending.
  repeat constructor; vm_compute; discriminate.
Defined.

Lemma header_click_toggles_witness :
  obj_val (sortConfig (handleHeaderClick K_trade_count
                         (handleHeaderClick K_trade_count app_mount))) =
  obj_val (sortConfig app_mount).
Proof.
  pose proof (header_click_toggles K_trade_count app_mount) as H.
  cbv zeta in H. destruct H as (_ & _ & H & _). apply H. reflexivity.
Defined.

Lemma range_slider_empties_or_unmounts_witness :
  view (sys_run true four_frames [Host (SockMessage 0%nat "feed")]
          (sys_step true four_frames (User (range_slider_moved Price 5))
             (sys_run true four_frames connected_and_fed (sys_initial true)))) = [] /\
  mounted (world (sys_step true four_frames (User (range_slider_moved Volume 5000))
                    (sys_run true four_frames connected_and_fed (sys_initial true)))) =
  false.
Proof.
  pose proof (range_slider_empties_or_unmounts true four_frames connected_and_fed
                Price 5 [Host (SockMessage 0%nat "feed")] eq_refl) as HP.
  pose proof (range_slider_empties_or_unmounts true four_frames connected_and_fed
                Volume 5000 [] eq_refl) as HV.
  cbv zeta iota in HP, HV.
  destruct HP as (_ & _ & _ & _ & _ & _ & HP).
  destruct HV as (_ & _ & _ & _ & HV & _).
  split; [exact (HP eq_refl) | exact HV].
Defined.

Lemma reset_shows_first_fifty_witness :
  obj_val (filterConfig (app (sys_step true four_frames (User ResetFilters)
             (sys_run true four_frames
                (connected_and_fed ++ [User (HandleRangeChange Price [5%Q])])
                (sys_initial true))))) =
  default_filterConfig.
Proof.
  pose proof (reset_shows_first_fifty true four_frames
                (connected_and_fed ++ [User (HandleRangeChange Price [5%Q])])) as H.
  cbv zeta in H. destruct H as (H & _).
  - reflexivity.
  - exact H.
Defined.

Lemma market_trend_counts_witness :
  exists st,
    stats (fun _ => EmptyString) (fun _ => EmptyString) three_ratios
          [AAA; UPP; CCC] = Some st /\
    gainers (marketTrend st) = 1%nat /\ losers (marketTrend st) = 2%nat /\
    ratio (marketTrend st) = "33.3"%string.
Proof.
  destruct (market_trend_counts (fun _ => EmptyString) (fun _ => EmptyString)
              three_ratios [AAA; UPP; CCC]) as (st & Hst & Hsum & Hg & Hr & _);
    [discriminate|].
  exists st. split; [exact Hst|].
  assert (G : gainers (marketTrend st) = 1%nat) by (rewrite Hg; reflexivity).
  split; [exact G|]. split.
  - rewrite G in Hsum. simpl in Hsum. lia.
  - rewrite Hr, G. vm_compute. reflexivity.
Defined.

Lemma top_gainers_and_losers_witness :
  exists st,
    stats (fun _ => EmptyString) (fun _ => EmptyString) (fun _ => EmptyString)
          [AAA; BBB; CCC] = Some st /\
    exists top rest,
      topGainers st = List.map (entry_of current_price (fun _ => EmptyString)) top /\
      Permutation (top ++ rest) [AAA; BBB; CCC] /\
      length top = 3%nat.
Proof.
  destruct (top_gainers_and_losers (fun _ => EmptyString) (fun _ => EmptyString)
              (fun _ => EmptyString) [AAA; BBB; CCC])
    as (st & Hst & (top & rest & Hg & Hp & Hl & _) & _); [discriminate|].
  exists st. split; [exact Hst|]. exists top, rest. auto.
Defined.

Lemma most_active_lists_witness :
  exists st,
    stats (fun _ => EmptyString) (fun _ => EmptyString) (fun _ => EmptyString)
          [AAA; BBB; CCC] = Some st /\
    exists top rest,
      mostActiveVolume st = List.map (entry_of volume (fun _ => EmptyString)) top /\
      Permutation (top ++ rest) [AAA; BBB; CCC] /\
      ordered (by_desc volume) top.
Proof.
  destruct (most_active_lists (fun _ => EmptyString) (fun _ => EmptyString)
              (fun _ => EmptyString) [AAA; BBB; CCC])
    as (st & Hst & (top & rest & Hv & Hp & _ & Ho & _) & _); [discriminate|].
  exists st. split; [exact Hst|]. exists top, rest. auto.
Defined.

Lemma few_stocks_lists_mirror_witness :
  exists st,
    stats (fun _ => EmptyString) (fun _ => EmptyString) (fun _ => EmptyString)
          [AAA; BBB; CCC] = Some st /\
    length (topGainers st) = 3%nat /\
    topLosers st = rev (topGainers st).
Proof.
  apply (few_stocks_lists_mirror (fun _ => EmptyString) (fun _ => EmptyString)
           (fun _ => EmptyString) [AAA; BBB; CCC]).
  - discriminate.
  - simpl. lia.
Defined.

Lemma sorted_message_keeps_order_witness :
  exists st,
    stats (fun _ => EmptyString) (fun _ => EmptyString) (fun _ => EmptyString)
          [AAA; BBB; CCC] = Some st /\
    topGainers st =
      List.map (entry_of current_price (fun _ => EmptyString)) [AAA; BBB; CCC] /\
    topLosers st =
      List.map (entry_of current_price (fun _ => EmptyString)) [CCC; BBB; AAA].
Proof.
  apply (sorted_message_keeps_order (fun _ => EmptyString) (fun _ => EmptyString)
           (fun _ => EmptyString) [AAA; BBB; CCC]).
  - discriminate.
  - intros x y [<-|[<-|[<-|[]]]] [<-|[<-|[<-|[]]]]; reflexivity.
Defined.

Lemma symbol_click_outcome_witness :
  SymbolClick.modalView
    (SymbolClick.settle (SymbolClick.Json false [] None)
       (SymbolClick.click "BBB"
          (SymbolClick.settle (SymbolClick.Json true [SymbolClick.mkPoint "t0" 10 100] None)
             (SymbolClick.click "AAA" SymbolClick.closed_modal)))) =
  SymbolClick.Chart [SymbolClick.mkTrade (SymbolClick.new_Date "t0") 10 100].
Proof.
  pose proof (symbol_click_outcome
                (SymbolClick.settle
                   (SymbolClick.Json true [SymbolClick.mkPoint "t0" 10 100] None)
                   (SymbolClick.click "AAA" SymbolClick.closed_modal))
                "BBB" (SymbolClick.Json false [] None)) as H.
  cbv zeta in H. destruct H as (_ & _ & _ & _ & _ & H).
  rewrite (H [] eq_refl). reflexivity.
Defined.

Lemma chart_follows_last_response_witness :
  SymbolClick.selectedSymbol
    (SymbolClick.modal_run
       [SymbolClick.Click "AAA"; SymbolClick.Click "BBB";
        SymbolClick.Settle (SymbolClick.Json true [SymbolClick.mkPoint "t0" 10 100] None)]
       SymbolClick.closed_modal) = Some "BBB"%string /\
  SymbolClick.modalView
    (SymbolClick.modal_run
       [SymbolClick.Click "AAA"; SymbolClick.Click "BBB";
        SymbolClick.Settle (SymbolClick.Json true [SymbolClick.mkPoint "t0" 10 100] None)]
       SymbolClick.closed_modal) =
  SymbolClick.Chart [SymbolClick.mkTrade (SymbolClick.new_Date "t0") 10 100].
Proof.
  destruct (chart_follows_last_response [] SymbolClick.closed_modal) as (_ & _ & _ & H).
  exact (H "AAA"%string "BBB"%string [SymbolClick.mkPoint "t0" 10 100] None).
Defined.

Lemma chart_domains_hold_the_data_witness :
  exists top,
    TradeChart.volumeDomain
      two_trades = Some (0%Q, top) /\
    forall t,
      In t two_trades ->
      (0 <= SymbolClick.volume t)%Q -> (SymbolClick.volume t <= top)%Q.
Proof.
  apply chart_domains_hold_the_data. discriminate.
Defined.

Lemma theme_survives_reload_witness :
  Theme.load parse_bool stringify_bool id id
    (Theme.darkTheme
       (Nat.iter 3 (Theme.toggle stringify_bool id id)
          (Theme.effect stringify_bool id false))) =
  Some (Nat.iter 3 (Theme.toggle stringify_bool id id)
          (Theme.effect stringify_bool id false)).
Proof.
  refine (proj1 (theme_survives_reload bool parse_bool stringify_bool id id None 3
                   (Theme.effect stringify_bool id false) _ _ _ _)).
  - intros []; reflexivity.
  - intros []; discriminate.
  - reflexivity.
  - reflexivity.
Defined.

Lemma legacy_retries_every_second_witness :
  exists s0 s,
    Legacy.mount true = Some s0 /\
    Legacy.run true [SockClose 0%nat; TimerFire 0%nat; SockClose 1%nat] s0 = Some s /\
    Forall (eq 1000) (timeouts (Legacy.browser s)) /\
    Z.of_nat (length (sockets (Legacy.browser s))) = Legacy.reconnectCount s + 1 /\
    (length (legacy_live s) + size (pending (Legacy.browser s)) <= 1)%nat.
Proof.
  exact (legacy_retries_every_second [SockClose 0%nat; TimerFire 0%nat; SockClose 1%nat]).
Defined.

Lemma legacy_teardown_constructs_no_socket_witness :
  exists s2,
    Legacy.run true [Unmount; SockClose 0%nat; TimerFire 0%nat]
      (legacy_open) = Some s2 /\
    Legacy.mounted s2 = false /\
    length (sockets (Legacy.browser s2)) = 1%nat.
Proof.
  destruct (legacy_teardown_constructs_no_socket [SockOpen 0%nat]
              [SockClose 0%nat; TimerFire 0%nat]
              (Legacy.mkState (Some 0%nat) None 0 (Some 0%nat)
                              (mkBrowser [CONNECTING] [] ∅) true)
              legacy_open)
    as (s2 & Hrun & Hm & Hn & _).
  - reflexivity.
  - reflexivity.
  - reflexivity.
  - exists s2. split; [exact Hrun|]. split; [exact Hm|]. exact Hn.
Defined.
